(** * RasterVectorHybrid: a model of [multithreaddraw.py]

    The development embeds the [DrawingView] class of
    [src/multithreaddraw.py]: the stroke smoothing window, the tablet and
    mouse handlers, the raster stroke compositor, the binarisation loop of
    the raster export, the pin registry and the binary canvas codec
    ([save_canvas_to_file] / [load_canvas_from_file]).

    Python objects are modelled by explicit state: the fields of [self] are
    a record, a method is a computation in a state-and-exception monad, a
    Python exception is an [exn] value that leaves the state reached so far
    in place.  Python floats are IEEE-754 binary64 numbers ([PrimFloat]),
    [bytes] are lists of [Byte.byte], [str] is a list of code points.

    Qt is not part of the repository.  What the program needs from it is
    either written out (the element list of a [QPainterPath], the
    big-endian [QDataStream] encoding) or kept abstract in the class
    [QtModel] (rasterisation, PNG, bounding boxes, point comparison). *)

From Stdlib Require Import ZArith List Bool Lia Floats Uint63.
From Stdlib.Strings Require Import Byte.
From Stdlib Require Import Ascii DecimalString DecimalNat.
From stdpp Require Import base tactics option list strings gmap.
From Equations Require Import Equations.
Import ListNotations.

Set Default Proof Using "Type".
(* Decimal literals such as [0.8] denote the nearest binary64 number, as in
   Python. *)
Set Warnings "-inexact-float".
Local Open Scope Z_scope.

(** ** Python values *)

(** Exceptions the modelled code can raise. *)
Inductive exn :=
| IndexError
| TypeError
| UnicodeDecodeError
| UnicodeEncodeError
| ValueError.

(** The outcome of a call: a returned value or a raised exception. *)
Inductive result (A : Type) :=
| Return (a : A)
| Raise (e : exn).
Arguments Return {A} a.
Arguments Raise {A} e.

(** A method over state [S]: the state is threaded through and survives a
    raise, as the fields of a Python object do. *)
Definition M (S A : Type) : Type := S -> result A * S.

Definition ret {S A} (a : A) : M S A := fun s => (Return a, s).

Definition bind {S A B} (m : M S A) (k : A -> M S B) : M S B :=
  fun s => match m s with
           | (Return a, s') => k a s'
           | (Raise e, s') => (Raise e, s')
           end.

Definition raise {S A} (e : exn) : M S A := fun s => (Raise e, s).
Definition get {S} : M S S := fun s => (Return s, s).
Definition gets {S A} (f : S -> A) : M S A := fun s => (Return (f s), s).
Definition modify {S} (f : S -> S) : M S unit := fun s => (Return tt, f s).

(** The notation of the methods below: [x ← m; k] runs [m], binds its
    value and goes on with [k]; [m;; k] drops the value. *)
Declare Scope monad_scope.
Delimit Scope monad_scope with monad.
Notation "x ← y ; z" := (bind y (fun x => z))
  (at level 20, y at level 100, z at level 200, only parsing) : monad_scope.
Notation "' x ← y ; z" := (bind y (fun x => z))
  (at level 20, x pattern, y at level 100, z at level 200, only parsing) : monad_scope.
Notation "x ;; z" := (bind x (fun _ => z))
  (at level 100, z at level 200, only parsing, right associativity) : monad_scope.
Open Scope monad_scope.

(** [for x in xs: body x]. *)
Fixpoint for_each {S A} (xs : list A) (body : A -> M S unit) : M S unit :=
  match xs with
  | [] => ret tt
  | x :: xs' => bind (body x) (fun _ => for_each xs' body)
  end.

(** [range(a, b)] for naturals. *)
Definition range (a b : nat) : list nat := seq a (b - a).

(** [xs[i]] on a Python list: [IndexError] out of range. *)
Definition index {S A} (xs : list A) (i : nat) : M S A :=
  match xs !! i with
  | Some x => ret x
  | None => raise IndexError
  end.

(** A Python number: [int] or [float]. *)
Inductive pynum :=
| PyInt (z : Z)
| PyFloat (f : float).

(** The float of a (small) integer; exact below [2^53]. *)
Definition float_of_Z (z : Z) : float :=
  if z <? 0 then (- of_uint63 (Uint63.of_Z (- z)))%float
  else of_uint63 (Uint63.of_Z z).

(** ** Qt value types *)

Record QPointF := mkPoint { pt_x : float; pt_y : float }.

Record QRectF := mkRectF { rf_x : float; rf_y : float; rf_w : float; rf_h : float }.

Record QRect := mkRect { r_x : Z; r_y : Z; r_w : Z; r_h : Z }.

(** [QRectF()]. *)
Definition QRectF_null : QRectF := mkRectF 0 0 0 0.

(** [QRectF.isNull()]: width and height are both [0.0]. *)
Definition QRectF_isNull (r : QRectF) : bool :=
  ((rf_w r =? 0) && (rf_h r =? 0))%float.

(** [QRectF(QRect)]. *)
Definition QRectF_of_QRect (r : QRect) : QRectF :=
  mkRectF (float_of_Z (r_x r)) (float_of_Z (r_y r))
          (float_of_Z (r_w r)) (float_of_Z (r_h r)).

Record QColor := mkColor { red : Z; green : Z; blue : Z; alpha : Z }.

Definition Qt_black : QColor := mkColor 0 0 0 255.
Definition Qt_white : QColor := mkColor 255 255 255 255.
Definition Qt_transparent : QColor := mkColor 0 0 0 0.

(** [QPen(color, width, Qt.SolidLine, Qt.RoundCap, Qt.RoundJoin)]: style,
    cap and join are the same constants at every construction. *)
Record QPen := mkPen { pen_colour : QColor; pen_width : pynum }.

(** *** Painter paths *)

(** [QPainterPath.ElementType], with its integer values [0..3]. *)
Inductive ElementType :=
| MoveToElement
| LineToElement
| CurveToElement
| CurveToDataElement.

Definition ElementType_value (t : ElementType) : Z :=
  match t with
  | MoveToElement => 0
  | LineToElement => 1
  | CurveToElement => 2
  | CurveToDataElement => 3
  end.

(** [QPainterPath.Element]: what [elementAt(i)] returns. *)
Record Element := mkElement { el_type : ElementType; el_x : float; el_y : float }.

Definition el_point (e : Element) : QPointF := mkPoint (el_x e) (el_y e).

(** A call made on a [QPainterPath] object. *)
Inductive PathCall :=
| MoveTo (p : QPointF)
| LineTo (p : QPointF)
| QuadTo (c e : QPointF)
| CubicTo (c1 c2 e : QPointF).

(** A [QPainterPath] object is modelled by the calls made on it since its
    construction, oldest first; [QPainterPath()] is [[]].  What Qt stores
    for them is [elements] below. *)
Definition QPainterPath := list PathCall.

(** *** Images and pixmaps *)

(** A [QImage]: [img_w * img_h] pixels, row by row.  The null image has no
    pixels. *)
Record QImage := mkImage { img_w : Z; img_h : Z; img_px : list QColor }.

Definition QImage_null : QImage := mkImage 0 0 [].

(** A [QPixmap] is modelled by how it was made: Qt's rasteriser decides its
    pixels ([toImage] below). *)
Inductive QPixmap :=
| NullPixmap
| Filled (w h : Z) (c : QColor)
| FromImage (img : QImage)
| Painted (dev : QPixmap) (path : QPainterPath) (pen : QPen) (antialias : bool).

Fixpoint QPixmap_width (p : QPixmap) : Z :=
  match p with
  | NullPixmap => 0
  | Filled w _ _ => w
  | FromImage img => img_w img
  | Painted dev _ _ _ => QPixmap_width dev
  end.

Fixpoint QPixmap_height (p : QPixmap) : Z :=
  match p with
  | NullPixmap => 0
  | Filled _ h _ => h
  | FromImage img => img_h img
  | Painted dev _ _ _ => QPixmap_height dev
  end.

(** [QPixmap.rect()]. *)
Definition QPixmap_getRect (p : QPixmap) : QRect :=
  mkRect 0 0 (QPixmap_width p) (QPixmap_height p).

(** [QPixmap.isNull()]. *)
Definition QPixmap_isNull (p : QPixmap) : bool :=
  (QPixmap_width p =? 0) || (QPixmap_height p =? 0).

(** [QPixmap.fill(c)]: same size, every pixel [c]. *)
Definition QPixmap_fill (p : QPixmap) (c : QColor) : QPixmap :=
  if QPixmap_isNull p then p else Filled (QPixmap_width p) (QPixmap_height p) c.

(** [QPixmap.fromImage(img)]. *)
Definition QPixmap_fromImage (img : QImage) : QPixmap :=
  if (img_w img =? 0) || (img_h img =? 0) then NullPixmap else FromImage img.

(** ** The Qt library, as far as it is kept abstract

    The functions below are computed by Qt and not by the program.  No
    result of this development depends on what they return, except where a
    theorem states a hypothesis about them. *)
Class QtModel := {
  (** [QPointF.operator==], a fuzzy comparison in Qt 5. *)
  qt_point_eq : QPointF -> QPointF -> bool;
  (** The coordinate check at the head of [moveTo], [lineTo], [quadTo] and
      [cubicTo]: a call with a point that fails it is ignored. *)
  qt_valid_coords : QPointF -> bool;
  (** [QPainterPath.boundingRect()]. *)
  qt_bounding_rect : list Element -> QRectF;
  (** [QRectF.united]. *)
  qt_united : QRectF -> QRectF -> QRectF;
  (** [QRectF.toAlignedRect()] and [QRectF.toRect()]. *)
  qt_to_aligned_rect : QRectF -> QRect;
  (** The pixels of an image after [QPainter.drawPath] on it. *)
  qt_draw_path : QImage -> list Element -> QPen -> bool -> list QColor;
  (** The pixels of the export buffer of [save_raster_image] once the
      raster copy and the vector path are painted: background colour,
      antialiasing flag, target rectangle, raster image, pen, path. *)
  qt_paint_export :
    QColor -> bool -> QRect -> QImage -> QPen -> list Element -> list QColor;
  (** The PNG encoder and decoder behind [save(.., 'PNG')] and
      [loadFromData(.., 'PNG')]. *)
  qt_png_encode : QImage -> list byte;
  qt_png_decode : list byte -> option QImage
}.

(** *** The element list of a painter path

    Qt stores a path as a list of elements; [elementCount] and [elementAt]
    read it.  The four calls edit the list as [qpainterpath.cpp] does: a
    call with invalid coordinates is ignored, an empty path first gets the
    element [MoveTo (0,0)], [moveTo] overwrites a trailing move, [lineTo]
    to the current point and an empty curve add nothing, and a quadratic
    curve is stored as the cubic curve of the same shape. *)
Section Elements.
Context `{QtModel}.

Definition ensureData (els : list Element) : list Element :=
  match els with
  | [] => [mkElement MoveToElement 0 0]
  | _ => els
  end.

Definition last_point (els : list Element) : QPointF :=
  match last els with
  | Some e => el_point e
  | None => mkPoint 0 0
  end.

Definition ends_with_move (els : list Element) : bool :=
  match last els with
  | Some (mkElement MoveToElement _ _) => true
  | _ => false
  end.

Definition elements_moveTo (p : QPointF) (els : list Element) : list Element :=
  if qt_valid_coords p then
    let els := ensureData els in
    if ends_with_move els
    then removelast els ++ [mkElement MoveToElement (pt_x p) (pt_y p)]
    else els ++ [mkElement MoveToElement (pt_x p) (pt_y p)]
  else els.

Definition elements_lineTo (p : QPointF) (els : list Element) : list Element :=
  if qt_valid_coords p then
    let els := ensureData els in
    if qt_point_eq p (last_point els) then els
    else els ++ [mkElement LineToElement (pt_x p) (pt_y p)]
  else els.

Definition elements_cubicTo (c1 c2 e : QPointF) (els : list Element)
  : list Element :=
  if qt_valid_coords c1 && qt_valid_coords c2 && qt_valid_coords e then
    let els := ensureData els in
    if qt_point_eq (last_point els) c1 && qt_point_eq c1 c2 && qt_point_eq c2 e
    then els
    else els ++ [mkElement CurveToElement (pt_x c1) (pt_y c1);
                 mkElement CurveToDataElement (pt_x c2) (pt_y c2);
                 mkElement CurveToDataElement (pt_x e) (pt_y e)]
  else els.

Definition elements_quadTo (c e : QPointF) (els : list Element) : list Element :=
  if qt_valid_coords c && qt_valid_coords e then
    let els := ensureData els in
    let prev := last_point els in
    if qt_point_eq prev c && qt_point_eq c e then els
    else
      let c1 := mkPoint ((pt_x prev + 2 * pt_x c) / 3) ((pt_y prev + 2 * pt_y c) / 3) in
      let c2 := mkPoint ((pt_x e + 2 * pt_x c) / 3) ((pt_y e + 2 * pt_y c) / 3) in
      elements_cubicTo c1 c2 e els
  else els.

Definition apply_call (els : list Element) (c : PathCall) : list Element :=
  match c with
  | MoveTo p => elements_moveTo p els
  | LineTo p => elements_lineTo p els
  | QuadTo c e => elements_quadTo c e els
  | CubicTo c1 c2 e => elements_cubicTo c1 c2 e els
  end.

(** The elements of a path: [elementAt(i)] is [elements path !! i] and
    [elementCount()] is its length. *)
Definition elements (path : QPainterPath) : list Element :=
  fold_left apply_call path [].

(** [QPixmap.toImage()]. *)
Fixpoint toImage (p : QPixmap) : QImage :=
  match p with
  | NullPixmap => QImage_null
  | Filled w h c => mkImage w h (repeat c (Z.to_nat (w * h)))
  | FromImage img => img
  | Painted dev path pen aa =>
      let img := toImage dev in
      if QPixmap_isNull dev then img
      else mkImage (img_w img) (img_h img) (qt_draw_path img (elements path) pen aa)
  end.

End Elements.

(** ** The state of a [DrawingView]

    One field per attribute that [__init__] creates and a method of the
    class reads or writes.  The three scene items are represented by what
    the program sets on them: the pen and path of [vector_item], the pixmap
    of [raster_item], the brush of [background_rect]. *)

(** A Python [str]: its code points. *)
Definition pystr := list Z.

(** A pin: the dict [{'name': str, 'pos': QPointF}]. *)
Record Pin := mkPin { pin_name : pystr; pin_pos : QPointF }.

Record DrawingView := mkView {
  current_pen_width : pynum;
  pen_color : QColor;
  pen : QPen;
  last_points : list QPointF;
  drawing : bool;
  vector_path : QPainterPath;
  vector_item_pen : QPen;
  vector_item_path : QPainterPath;
  raster_pixmap : QPixmap;
  raster_item_pixmap : QPixmap;
  scale_factor : float;
  background_visible : bool;
  background_color : QColor;
  background_rect_brush : QColor;
  pins : list Pin;
  use_tablet : bool;
  antialiasing_enabled : bool;
  stroke_points : list QPointF;
  stroke_pen_widths : list pynum;
  raster_bounding_rect : QRectF
}.

(** Attribute assignment, [self.f = v]: one setter per field. *)
Definition set_current_pen_width (v : pynum) (s : DrawingView) : DrawingView :=
  mkView v (pen_color s) (pen s) (last_points s) (drawing s)
    (vector_path s) (vector_item_pen s) (vector_item_path s)
    (raster_pixmap s) (raster_item_pixmap s) (scale_factor s)
    (background_visible s) (background_color s) (background_rect_brush s)
    (pins s) (use_tablet s) (antialiasing_enabled s) (stroke_points s)
    (stroke_pen_widths s) (raster_bounding_rect s).

Definition set_pen_color (v : QColor) (s : DrawingView) : DrawingView :=
  mkView (current_pen_width s) v (pen s) (last_points s) (drawing s)
    (vector_path s) (vector_item_pen s) (vector_item_path s)
    (raster_pixmap s) (raster_item_pixmap s) (scale_factor s)
    (background_visible s) (background_color s) (background_rect_brush s)
    (pins s) (use_tablet s) (antialiasing_enabled s) (stroke_points s)
    (stroke_pen_widths s) (raster_bounding_rect s).

Definition set_pen (v : QPen) (s : DrawingView) : DrawingView :=
  mkView (current_pen_width s) (pen_color s) v (last_points s) (drawing s)
    (vector_path s) (vector_item_pen s) (vector_item_path s)
    (raster_pixmap s) (raster_item_pixmap s) (scale_factor s)
    (background_visible s) (background_color s) (background_rect_brush s)
    (pins s) (use_tablet s) (antialiasing_enabled s) (stroke_points s)
    (stroke_pen_widths s) (raster_bounding_rect s).

Definition set_last_points (v : list QPointF) (s : DrawingView) : DrawingView :=
  mkView (current_pen_width s) (pen_color s) (pen s) v (drawing s)
    (vector_path s) (vector_item_pen s) (vector_item_path s)
    (raster_pixmap s) (raster_item_pixmap s) (scale_factor s)
    (background_visible s) (background_color s) (background_rect_brush s)
    (pins s) (use_tablet s) (antialiasing_enabled s) (stroke_points s)
    (stroke_pen_widths s) (raster_bounding_rect s).

Definition set_drawing (v : bool) (s : DrawingView) : DrawingView :=
  mkView (current_pen_width s) (pen_color s) (pen s) (last_points s) v
    (vector_path s) (vector_item_pen s) (vector_item_path s)
    (raster_pixmap s) (raster_item_pixmap s) (scale_factor s)
    (background_visible s) (background_color s) (background_rect_brush s)
    (pins s) (use_tablet s) (antialiasing_enabled s) (stroke_points s)
    (stroke_pen_widths s) (raster_bounding_rect s).

Definition set_vector_path (v : QPainterPath) (s : DrawingView) : DrawingView :=
  mkView (current_pen_width s) (pen_color s) (pen s) (last_points s)
    (drawing s) v (vector_item_pen s) (vector_item_path s)
    (raster_pixmap s) (raster_item_pixmap s) (scale_factor s)
    (background_visible s) (background_color s) (background_rect_brush s)
    (pins s) (use_tablet s) (antialiasing_enabled s) (stroke_points s)
    (stroke_pen_widths s) (raster_bounding_rect s).

Definition set_vector_item_pen (v : QPen) (s : DrawingView) : DrawingView :=
  mkView (current_pen_width s) (pen_color s) (pen s) (last_points s)
    (drawing s) (vector_path s) v (vector_item_path s) (raster_pixmap s)
    (raster_item_pixmap s) (scale_factor s) (background_visible s)
    (background_color s) (background_rect_brush s) (pins s) (use_tablet s)
    (antialiasing_enabled s) (stroke_points s) (stroke_pen_widths s)
    (raster_bounding_rect s).

Definition set_vector_item_path (v : QPainterPath) (s : DrawingView) : DrawingView :=
  mkView (current_pen_width s) (pen_color s) (pen s) (last_points s)
    (drawing s) (vector_path s) (vector_item_pen s) v (raster_pixmap s)
    (raster_item_pixmap s) (scale_factor s) (background_visible s)
    (background_color s) (background_rect_brush s) (pins s) (use_tablet s)
    (antialiasing_enabled s) (stroke_points s) (stroke_pen_widths s)
    (raster_bounding_rect s).

Definition set_raster_pixmap (v : QPixmap) (s : DrawingView) : DrawingView :=
  mkView (current_pen_width s) (pen_color s) (pen s) (last_points s)
    (drawing s) (vector_path s) (vector_item_pen s) (vector_item_path s) v
    (raster_item_pixmap s) (scale_factor s) (background_visible s)
    (background_color s) (background_rect_brush s) (pins s) (use_tablet s)
    (antialiasing_enabled s) (stroke_points s) (stroke_pen_widths s)
    (raster_bounding_rect s).

Definition set_raster_item_pixmap (v : QPixmap) (s : DrawingView) : DrawingView :=
  mkView (current_pen_width s) (pen_color s) (pen s) (last_points s)
    (drawing s) (vector_path s) (vector_item_pen s) (vector_item_path s)
    (raster_pixmap s) v (scale_factor s) (background_visible s)
    (background_color s) (background_rect_brush s) (pins s) (use_tablet s)
    (antialiasing_enabled s) (stroke_points s) (stroke_pen_widths s)
    (raster_bounding_rect s).

Definition set_scale_factor (v : float) (s : DrawingView) : DrawingView :=
  mkView (current_pen_width s) (pen_color s) (pen s) (last_points s)
    (drawing s) (vector_path s) (vector_item_pen s) (vector_item_path s)
    (raster_pixmap s) (raster_item_pixmap s) v (background_visible s)
    (background_color s) (background_rect_brush s) (pins s) (use_tablet s)
    (antialiasing_enabled s) (stroke_points s) (stroke_pen_widths s)
    (raster_bounding_rect s).

Definition set_background_visible (v : bool) (s : DrawingView) : DrawingView :=
  mkView (current_pen_width s) (pen_color s) (pen s) (last_points s)
    (drawing s) (vector_path s) (vector_item_pen s) (vector_item_path s)
    (raster_pixmap s) (raster_item_pixmap s) (scale_factor s) v
    (background_color s) (background_rect_brush s) (pins s) (use_tablet s)
    (antialiasing_enabled s) (stroke_points s) (stroke_pen_widths s)
    (raster_bounding_rect s).

Definition set_background_color (v : QColor) (s : DrawingView) : DrawingView :=
  mkView (current_pen_width s) (pen_color s) (pen s) (last_points s)
    (drawing s) (vector_path s) (vector_item_pen s) (vector_item_path s)
    (raster_pixmap s) (raster_item_pixmap s) (scale_factor s)
    (background_visible s) v (background_rect_brush s) (pins s)
    (use_tablet s) (antialiasing_enabled s) (stroke_points s)
    (stroke_pen_widths s) (raster_bounding_rect s).

Definition set_background_rect_brush (v : QColor) (s : DrawingView) : DrawingView :=
  mkView (current_pen_width s) (pen_color s) (pen s) (last_points s)
    (drawing s) (vector_path s) (vector_item_pen s) (vector_item_path s)
    (raster_pixmap s) (raster_item_pixmap s) (scale_factor s)
    (background_visible s) (background_color s) v (pins s) (use_tablet s)
    (antialiasing_enabled s) (stroke_points s) (stroke_pen_widths s)
    (raster_bounding_rect s).

Definition set_pins (v : list Pin) (s : DrawingView) : DrawingView :=
  mkView (current_pen_width s) (pen_color s) (pen s) (last_points s)
    (drawing s) (vector_path s) (vector_item_pen s) (vector_item_path s)
    (raster_pixmap s) (raster_item_pixmap s) (scale_factor s)
    (background_visible s) (background_color s) (background_rect_brush s) v
    (use_tablet s) (antialiasing_enabled s) (stroke_points s)
    (stroke_pen_widths s) (raster_bounding_rect s).

Definition set_use_tablet (v : bool) (s : DrawingView) : DrawingView :=
  mkView (current_pen_width s) (pen_color s) (pen s) (last_points s)
    (drawing s) (vector_path s) (vector_item_pen s) (vector_item_path s)
    (raster_pixmap s) (raster_item_pixmap s) (scale_factor s)
    (background_visible s) (background_color s) (background_rect_brush s)
    (pins s) v (antialiasing_enabled s) (stroke_points s)
    (stroke_pen_widths s) (raster_bounding_rect s).

Definition set_antialiasing_enabled (v : bool) (s : DrawingView) : DrawingView :=
  mkView (current_pen_width s) (pen_color s) (pen s) (last_points s)
    (drawing s) (vector_path s) (vector_item_pen s) (vector_item_path s)
    (raster_pixmap s) (raster_item_pixmap s) (scale_factor s)
    (background_visible s) (background_color s) (background_rect_brush s)
    (pins s) (use_tablet s) v (stroke_points s) (stroke_pen_widths s)
    (raster_bounding_rect s).

Definition set_stroke_points (v : list QPointF) (s : DrawingView) : DrawingView :=
  mkView (current_pen_width s) (pen_color s) (pen s) (last_points s)
    (drawing s) (vector_path s) (vector_item_pen s) (vector_item_path s)
    (raster_pixmap s) (raster_item_pixmap s) (scale_factor s)
    (background_visible s) (background_color s) (background_rect_brush s)
    (pins s) (use_tablet s) (antialiasing_enabled s) v
    (stroke_pen_widths s) (raster_bounding_rect s).

Definition set_stroke_pen_widths (v : list pynum) (s : DrawingView) : DrawingView :=
  mkView (current_pen_width s) (pen_color s) (pen s) (last_points s)
    (drawing s) (vector_path s) (vector_item_pen s) (vector_item_path s)
    (raster_pixmap s) (raster_item_pixmap s) (scale_factor s)
    (background_visible s) (background_color s) (background_rect_brush s)
    (pins s) (use_tablet s) (antialiasing_enabled s) (stroke_points s) v
    (raster_bounding_rect s).

Definition set_raster_bounding_rect (v : QRectF) (s : DrawingView) : DrawingView :=
  mkView (current_pen_width s) (pen_color s) (pen s) (last_points s)
    (drawing s) (vector_path s) (vector_item_pen s) (vector_item_path s)
    (raster_pixmap s) (raster_item_pixmap s) (scale_factor s)
    (background_visible s) (background_color s) (background_rect_brush s)
    (pins s) (use_tablet s) (antialiasing_enabled s) (stroke_points s)
    (stroke_pen_widths s) v.

(** A Python [str] literal, from its ASCII text. *)
Definition str (s : string) : pystr :=
  map (fun a => Z.of_N (Ascii.N_of_ascii a)) (String.list_ascii_of_string s).

(** The parsed content of [rvsettings.ini], section by section; [None] for
    a section the file does not have. *)
Record Settings := mkSettings {
  cfg_pins : option (list Pin);
  cfg_view : option (float * float);
  cfg_settings : option (bool * bool)
}.

(** ** Events *)

Inductive TabletEventType :=
| TabletPress
| TabletMove
| TabletRelease
| TabletOther.

(** A [QTabletEvent]: [type()], [posF()] and [pressure()]. *)
Record QTabletEvent := mkTablet {
  te_type : TabletEventType;
  te_posF : QPointF;
  te_pressure : float
}.

Inductive MouseButton :=
| LeftButton
| OtherButton.

(** A [QMouseEvent]: [button()], and [pos()] as [mapToScene] maps it. *)
Record QMouseEvent := mkMouse {
  me_button : MouseButton;
  me_scene_pos : QPointF
}.

Definition is_left (b : MouseButton) : bool :=
  match b with
  | LeftButton => true
  | OtherButton => false
  end.

(** A [QWheelEvent]: whether [modifiers()] is exactly [ControlModifier],
    and [angleDelta().y()]. *)
Record QWheelEvent := mkWheel { we_control : bool; we_angle_y : Z }.

Inductive Key :=
| Key_Plus
| Key_Minus
| Key_Other.

(** ** The methods of [DrawingView] *)

(** [deque(maxlen=n).append(x)]: a full deque drops its oldest item. *)
Definition deque_append {A} (maxlen : nat) (d : list A) (x : A) : list A :=
  if (length d <? maxlen)%nat then d ++ [x] else drop 1 d ++ [x].

(** [max(1, pressure * 10)]: Python's [max] returns its first argument
    unless a later one is greater ([>]), so the result is the [int] [1] or
    the [float] product. *)
Definition pen_width_of_pressure (pressure : float) : pynum :=
  let w := (pressure * 10)%float in
  if (1 <? w)%float then PyFloat w else PyInt 1.

(** A [for] loop that updates a local variable. *)
Fixpoint fold_each {S A B} (xs : list A) (acc : B) (body : B -> A -> M S B)
  : M S B :=
  match xs with
  | [] => ret acc
  | x :: xs' => bind (body acc x) (fun acc' => fold_each xs' acc' body)
  end.

Section Methods.
Context `{QtModel}.

(** [__init__] without a settings file: the state at the end of the
    constructor. *)
Definition DrawingView_new : DrawingView :=
  {| current_pen_width := PyInt 2;
     pen_color := Qt_black;
     pen := mkPen Qt_black (PyInt 2);
     last_points := [];
     drawing := false;
     vector_path := [];
     vector_item_pen := mkPen Qt_black (PyInt 2);
     vector_item_path := [];
     raster_pixmap := Filled 10000 10000 Qt_transparent;
     raster_item_pixmap := Filled 10000 10000 Qt_transparent;
     scale_factor := 1;
     background_visible := true;
     background_color := Qt_white;
     background_rect_brush := Qt_white;
     pins := [mkPin (str "Default Pin") (mkPoint 0 0)];
     use_tablet := false;
     antialiasing_enabled := false;
     stroke_points := [];
     stroke_pen_widths := [];
     raster_bounding_rect := QRectF_null |}.

(** [load_settings], given what [configparser] read ([None]: no file).  The
    view centre is a property of the scroll area and is not modelled. *)
Definition load_settings (config : option Settings) : M DrawingView unit :=
  match config with
  | None => ret tt
  | Some config =>
      match cfg_pins config with
      | Some ps =>
          modify (set_pins []);;
          for_each ps (fun pin => modify (fun s => set_pins (pins s ++ [pin]) s))
      | None => ret tt
      end;;
      match cfg_settings config with
      | Some (bg_visible, antialiasing) =>
          modify (set_background_visible bg_visible);;
          modify (set_background_color
                    (if bg_visible then Qt_white else Qt_transparent));;
          modify (fun s => set_background_rect_brush (background_color s) s);;
          modify (set_antialiasing_enabled antialiasing)
      | None => ret tt
      end
  end.

(** [__init__]: the constructor's defaults, then [load_settings]. *)
Definition DrawingView_init (config : option Settings) : DrawingView :=
  snd (load_settings config DrawingView_new).

Definition toggle_background : M DrawingView unit :=
  visible ← gets background_visible;
  if visible then
    modify (set_background_color Qt_transparent);;
    modify (fun s => set_background_rect_brush (background_color s) s);;
    modify (set_background_visible false)
  else
    modify (set_background_color Qt_white);;
    modify (fun s => set_background_rect_brush (background_color s) s);;
    modify (set_background_visible true).

Definition update_pen : M DrawingView unit :=
  modify (fun s => set_pen (mkPen (pen_color s) (current_pen_width s)) s);;
  modify (fun s => set_vector_item_pen (pen s) s).

Definition smooth_path (new_point : QPointF) : M DrawingView unit :=
  modify (fun s => set_last_points (deque_append 3 (last_points s) new_point) s);;
  window ← gets last_points;
  match window with
  | [p0; p1; p2] =>
      (* Calculate the control point for quadratic Bezier curve *)
      let cpx := pt_x p1 in
      let cpy := pt_y p1 in
      modify (fun s => set_vector_path (vector_path s ++ [QuadTo (mkPoint cpx cpy) p2]) s);;
      modify (fun s => set_vector_item_path (vector_path s) s)
  | _ => ret tt
  end.

Definition process_raster_stroke : M DrawingView unit :=
  points ← gets stroke_points;
  first ← index points 0;
  path ← fold_each (range 1 (length points)) [MoveTo first]
           (fun path i =>
              p0 ← index points (i - 1);
              p1 ← index points i;
              let cp := mkPoint ((pt_x p0 + pt_x p1) / 2) ((pt_y p0 + pt_y p1) / 2) in
              ret (path ++ [QuadTo cp p1]));
  modify (fun s => set_raster_pixmap
            (Painted (raster_pixmap s) path
                     (mkPen (pen_color s) (current_pen_width s)) true) s);;
  modify (fun s => set_raster_item_pixmap (raster_pixmap s) s);;
  (* Update raster bounding rect *)
  let stroke_bounding_rect := qt_bounding_rect (elements path) in
  modify (fun s =>
    if QRectF_isNull (raster_bounding_rect s)
    then set_raster_bounding_rect stroke_bounding_rect s
    else set_raster_bounding_rect
           (qt_united (raster_bounding_rect s) stroke_bounding_rect) s).

(** The handlers return whether the event was accepted. *)
Definition tabletEvent (event : QTabletEvent) : M DrawingView bool :=
  modify (set_use_tablet true);;
  is_drawing ← gets drawing;
  match te_type event, is_drawing with
  | TabletPress, _ =>
      modify (set_last_points []);;
      modify (set_stroke_points []);;
      modify (set_stroke_pen_widths []);;
      modify (set_drawing true);;
      let point := te_posF event in
      modify (fun s => set_last_points (deque_append 3 (last_points s) point) s);;
      modify (fun s => set_vector_path (vector_path s ++ [MoveTo point]) s);;
      modify (fun s => set_stroke_points (stroke_points s ++ [point]) s);;
      let pressure := te_pressure event in
      modify (set_current_pen_width (pen_width_of_pressure pressure));;
      modify (fun s => set_stroke_pen_widths (stroke_pen_widths s ++ [current_pen_width s]) s);;
      update_pen;;
      ret true
  | TabletMove, true =>
      let point := te_posF event in
      let pressure := te_pressure event in
      modify (set_current_pen_width (pen_width_of_pressure pressure));;
      modify (fun s => set_stroke_pen_widths (stroke_pen_widths s ++ [current_pen_width s]) s);;
      update_pen;;
      smooth_path point;;
      modify (fun s => set_stroke_points (stroke_points s ++ [point]) s);;
      ret true
  | TabletRelease, _ =>
      (if is_drawing then process_raster_stroke else ret tt);;
      modify (set_drawing false);;
      ret true
  | _, _ => ret false
  end.

(** [super().mousePressEvent(event)] and its siblings: the default
    [QGraphicsView] handling, which touches no attribute of the class. *)
Definition QGraphicsView_mouseEvent : M DrawingView bool := ret false.

Definition mousePressEvent (event : QMouseEvent) : M DrawingView bool :=
  tablet ← gets use_tablet;
  if negb tablet && is_left (me_button event) then
    modify (set_last_points []);;
    modify (set_stroke_points []);;
    modify (set_stroke_pen_widths []);;
    modify (set_drawing true);;
    let point := me_scene_pos event in
    modify (fun s => set_last_points (deque_append 3 (last_points s) point) s);;
    modify (fun s => set_vector_path (vector_path s ++ [MoveTo point]) s);;
    modify (fun s => set_stroke_points (stroke_points s ++ [point]) s);;
    update_pen;;
    ret true
  else QGraphicsView_mouseEvent.

Definition mouseMoveEvent (event : QMouseEvent) : M DrawingView bool :=
  tablet ← gets use_tablet;
  is_drawing ← gets drawing;
  if negb tablet && is_drawing then
    let point := me_scene_pos event in
    update_pen;;
    smooth_path point;;
    modify (fun s => set_stroke_points (stroke_points s ++ [point]) s);;
    ret true
  else QGraphicsView_mouseEvent.

Definition mouseReleaseEvent (event : QMouseEvent) : M DrawingView bool :=
  tablet ← gets use_tablet;
  is_drawing ← gets drawing;
  if negb tablet && is_left (me_button event) && is_drawing then
    (if is_drawing then process_raster_stroke else ret tt);;
    modify (set_drawing false);;
    ret true
  else QGraphicsView_mouseEvent.

Definition wheelEvent (event : QWheelEvent) : M DrawingView bool :=
  if we_control event then
    let factor := if (0 <? we_angle_y event)%Z then 1.25%float else 0.8%float in
    modify (fun s => set_scale_factor (scale_factor s * factor) s);;
    ret true
  else ret false.

Definition keyPressEvent (key : Key) : M DrawingView unit :=
  match key with
  | Key_Plus => modify (fun s => set_scale_factor (scale_factor s * 1.25) s)
  | Key_Minus => modify (fun s => set_scale_factor (scale_factor s * 0.8) s)
  | Key_Other => ret tt
  end.

Definition clear_canvas : M DrawingView unit :=
  modify (set_vector_path []);;
  modify (fun s => set_vector_item_path (vector_path s) s);;
  modify (fun s => set_raster_pixmap (QPixmap_fill (raster_pixmap s) Qt_transparent) s);;
  modify (fun s => set_raster_item_pixmap (raster_pixmap s) s);;
  modify (set_raster_bounding_rect QRectF_null).

(** *** Pins *)

Definition add_pin (name : pystr) (pos : QPointF) : M DrawingView unit :=
  let pin := mkPin name pos in
  modify (fun s => set_pins (pins s ++ [pin]) s).

Definition remove_pin (name : pystr) : M DrawingView unit :=
  modify (fun s => set_pins (filter (fun pin => pin_name pin <> name) (pins s)) s).

Definition get_pins : M DrawingView (list Pin) := gets pins.

End Methods.

(** ** Raster export: the binarisation loop of [save_raster_image] *)

(** The index of pixel [(x, y)] in the row-major pixel list. *)
Definition pixel_index (image : QImage) (x y : nat) : nat :=
  (y * Z.to_nat (img_w image) + x)%nat.

(** [image.pixelColor(x, y)]; an invalid [QColor()] (opaque black) where
    the image has no such pixel. *)
Definition QImage_pixelColor (image : QImage) (x y : nat) : QColor :=
  default Qt_black (img_px image !! pixel_index image x y).

(** [image.setPixelColor(x, y, c)]. *)
Definition QImage_setPixelColor (image : QImage) (x y : nat) (c : QColor) : QImage :=
  mkImage (img_w image) (img_h image) (<[pixel_index image x y := c]> (img_px image)).

(** The body of the inner loop (lines 309-315). *)
Definition binarize_pixel (image : QImage) (x y : nat) : QImage :=
  let color := QImage_pixelColor image x y in
  (* Calculate the brightness *)
  let brightness := (float_of_Z (red color + green color + blue color) / 3)%float in
  if (brightness <? 128)%float
  then QImage_setPixelColor image x y Qt_black
  else QImage_setPixelColor image x y Qt_white.

(** The two nested [for] loops (lines 307-315). *)
Definition binarize (image : QImage) : QImage :=
  fold_left
    (fun image y =>
       fold_left (fun image x => binarize_pixel image x y)
                 (range 0 (Z.to_nat (img_w image))) image)
    (range 0 (Z.to_nat (img_h image))) image.

(** [QRectF.isEmpty()]. *)
Definition QRectF_isEmpty (r : QRectF) : bool :=
  ((rf_w r <=? 0) || (rf_h r <=? 0))%float.

(** ** Bytes and the [QDataStream] encoding *)

Definition Z_of_byte (b : byte) : Z := Z.of_N (Byte.to_N b).

(** The byte of [z mod 256]. *)
Definition byte_of_Z (z : Z) : byte :=
  default x00 (Byte.of_N (Z.to_N (z mod 256))).

(** The [n] low bytes of [v], most significant first (Qt's default byte
    order): the value is reduced modulo [256^n]. *)
Fixpoint be_bytes (n : nat) (v : Z) : list byte :=
  match n with
  | O => []
  | S n' => be_bytes n' (v / 256) ++ [byte_of_Z v]
  end.

(** The unsigned value of a big-endian byte string. *)
Definition be_value (bs : list byte) : Z :=
  fold_left (fun acc b => acc * 256 + Z_of_byte b) bs 0.

(** *** IEEE-754 binary64 bit patterns *)

Definition two52 : Z := Eval compute in 2 ^ 52.
Definition two63 : Z := Eval compute in 2 ^ 63.
Definition two64 : Z := Eval compute in 2 ^ 64.
Definition nan_bits : Z := Eval compute in 2047 * 2 ^ 52 + 2 ^ 51.

Definition sign_bits (s : bool) : Z := if s then two63 else 0.

(** The 64 bits of a binary64 number given by sign, mantissa and exponent
    ([m * 2^e]); the one NaN of [PrimFloat] is the quiet NaN. *)
Definition bits_of_SF (f : spec_float) : Z :=
  match f with
  | S754_zero s => sign_bits s
  | S754_infinity s => sign_bits s + 2047 * two52
  | S754_nan => nan_bits
  | S754_finite s m e =>
      sign_bits s +
      (if two52 <=? Z.pos m then (e + 1075) * two52 + (Z.pos m - two52)
       else Z.pos m)
  end.

Definition SF_of_bits (b : Z) : spec_float :=
  let s := two63 <=? b in
  let e := (b / two52) mod 2048 in
  let f := b mod two52 in
  if e =? 0 then
    match f with
    | Z.pos m => S754_finite s m (-1074)
    | _ => S754_zero s
    end
  else if e =? 2047 then
    (if f =? 0 then S754_infinity s else S754_nan)
  else
    match f + two52 with
    | Z.pos m => S754_finite s m (e - 1075)
    | _ => S754_nan
    end.

Definition bits_of_float (x : float) : Z := bits_of_SF (Prim2SF x).
Definition float_of_bits (b : Z) : float := SF2Prim (SF_of_bits b).

(** *** Reading

    A [QDataStream] over a file opened for reading is the list of bytes not
    yet read.  A read that finds too few bytes takes what is left and
    yields zero, as Qt does (the stream's status is never checked by the
    program). *)
Definition stream := list byte.

Definition read_be (n : nat) (s : stream) : Z * stream :=
  (if (n <=? length s)%nat then be_value (take n s) else 0, drop n s).

Definition readUInt32 (s : stream) : Z * stream := read_be 4 s.
Definition readUInt8 (s : stream) : Z * stream := read_be 1 s.

Definition readDouble (s : stream) : float * stream :=
  (if (8 <=? length s)%nat then float_of_bits (be_value (take 8 s)) else 0%float,
   drop 8 s).

Definition readBool (s : stream) : bool * stream :=
  let '(v, s) := readUInt8 s in (negb (v =? 0), s).

(** [stream.readBytes()]: a 32-bit length, then that many bytes.  The
    binding returns [None] when Qt hands back no buffer: for length zero
    and for a short read. *)
Definition readBytes (s : stream) : option (list byte) * stream :=
  let '(len, s) := readUInt32 s in
  let n := Z.to_nat len in
  (if (len =? 0) || negb (n <=? length s)%nat then None else Some (take n s),
   drop n s).

(** [stream.readRawData(len)]: up to [len] bytes.  A length that does not
    fit a C [int] is refused by the binding. *)
Definition readRawData {S} (len : Z) (s : stream) : M S (list byte * stream) :=
  if 2 ^ 31 <=? len then raise ValueError
  else ret (take (Z.to_nat len) s, drop (Z.to_nat len) s).

(** [QByteArray(data)]: [None] is not a byte string. *)
Definition QByteArray {S} (data : option (list byte)) : M S (list byte) :=
  match data with
  | Some bs => ret bs
  | None => raise TypeError
  end.

(** *** UTF-8 *)

(** [str.encode('utf-8')] for one code point; [None] where Python raises
    (a surrogate, or no code point at all). *)
Definition utf8_encode_cp (c : Z) : option (list byte) :=
  if c <? 0 then None
  else if c <? 0x80 then Some [byte_of_Z c]
  else if c <? 0x800 then
    Some [byte_of_Z (0xC0 + c / 64); byte_of_Z (0x80 + c mod 64)]
  else if c <? 0x10000 then
    if (0xD800 <=? c) && (c <=? 0xDFFF) then None
    else Some [byte_of_Z (0xE0 + c / 4096);
               byte_of_Z (0x80 + (c / 64) mod 64);
               byte_of_Z (0x80 + c mod 64)]
  else if c <? 0x110000 then
    Some [byte_of_Z (0xF0 + c / 262144);
          byte_of_Z (0x80 + (c / 4096) mod 64);
          byte_of_Z (0x80 + (c / 64) mod 64);
          byte_of_Z (0x80 + c mod 64)]
  else None.

Fixpoint utf8_encode (s : pystr) : option (list byte) :=
  match s with
  | [] => Some []
  | c :: s' =>
      match utf8_encode_cp c, utf8_encode s' with
      | Some bs, Some bs' => Some (bs ++ bs')
      | _, _ => None
      end
  end.

(** A continuation byte, [0x80..0xBF]. *)
Definition is_cont (z : Z) : bool := (0x80 <=? z) && (z <=? 0xBF).

(** [bytes.decode('utf-8')] (strict): [None] where Python raises
    [UnicodeDecodeError], that is on a stray or missing continuation byte,
    an overlong form, a surrogate, or a value above [0x10FFFF]. *)
Fixpoint utf8_decode (bs : list byte) : option pystr :=
  match bs with
  | [] => Some []
  | b0 :: r =>
      let z0 := Z_of_byte b0 in
      if z0 <? 0x80 then cons z0 <$> utf8_decode r
      else if z0 <? 0xC2 then None
      else if z0 <? 0xE0 then
        match r with
        | b1 :: r' =>
            let z1 := Z_of_byte b1 in
            if is_cont z1
            then cons ((z0 - 0xC0) * 64 + (z1 - 0x80)) <$> utf8_decode r'
            else None
        | _ => None
        end
      else if z0 <? 0xF0 then
        match r with
        | b1 :: b2 :: r' =>
            let z1 := Z_of_byte b1 in
            let z2 := Z_of_byte b2 in
            let c := (z0 - 0xE0) * 4096 + (z1 - 0x80) * 64 + (z2 - 0x80) in
            if is_cont z1 && is_cont z2 && (0x800 <=? c)
               && negb ((0xD800 <=? c) && (c <=? 0xDFFF))
            then cons c <$> utf8_decode r'
            else None
        | _ => None
        end
      else if z0 <? 0xF5 then
        match r with
        | b1 :: b2 :: b3 :: r' =>
            let z1 := Z_of_byte b1 in
            let z2 := Z_of_byte b2 in
            let z3 := Z_of_byte b3 in
            let c := (z0 - 0xF0) * 262144 + (z1 - 0x80) * 4096
                     + (z2 - 0x80) * 64 + (z3 - 0x80) in
            if is_cont z1 && is_cont z2 && is_cont z3
               && (0x10000 <=? c) && (c <? 0x110000)
            then cons c <$> utf8_decode r'
            else None
        | _ => None
        end
      else None
  end.

Definition str_encode {S} (s : pystr) : M S (list byte) :=
  match utf8_encode s with
  | Some bs => ret bs
  | None => raise UnicodeEncodeError
  end.

Definition bytes_decode {S} (bs : list byte) : M S pystr :=
  match utf8_decode bs with
  | Some s => ret s
  | None => raise UnicodeDecodeError
  end.

(** ** Files *)

(** A path on disk: a regular file with its content, or something that
    cannot be opened (a directory, a file without permission).  A path that
    is not in the map does not exist. *)
Inductive File :=
| Regular (content : list byte)
| Unopenable.

(** What the methods that touch files run on: the object and the disk. *)
Record World := mkWorld { view : DrawingView; disk : gmap string File }.

Definition set_view (v : DrawingView) (w : World) : World := mkWorld v (disk w).
Definition set_disk (d : gmap string File) (w : World) : World := mkWorld (view w) d.

(** Runs a computation on one component of the state. *)
Definition with_field {S T A} (getf : S -> T) (setf : T -> S -> S) (m : M T A)
  : M S A :=
  fun s => let '(r, t) := m (getf s) in (r, setf t s).

(** A method of the view, run in the world. *)
Definition on_view {A} (m : M DrawingView A) : M World A :=
  with_field view set_view m.

(** [QFile(path).open(QFile.WriteOnly)]: creates or truncates the file. *)
Definition QFile_open_write (path : string) : M World bool :=
  d ← gets disk;
  match d !! path with
  | Some Unopenable => ret false
  | _ => modify (set_disk (<[path := Regular []]> d));; ret true
  end.

(** [QFile(path).open(QFile.ReadOnly)]: the content, or [None] when the
    file cannot be opened. *)
Definition QFile_open_read (path : string) : M World (option stream) :=
  d ← gets disk;
  match d !! path with
  | Some (Regular content) => ret (Some content)
  | _ => ret None
  end.

(** Appends bytes to an open file. *)
Definition write_raw (path : string) (bs : list byte) : M World unit :=
  modify (fun w =>
    match disk w !! path with
    | Some (Regular content) => set_disk (<[path := Regular (content ++ bs)]> (disk w)) w
    | _ => w
    end).

(** *** Writing: a [QDataStream] over a file opened for writing is named by
    the file's path. *)
Definition writeUInt32 (stream : string) (v : Z) : M World unit :=
  write_raw stream (be_bytes 4 v).

Definition writeUInt8 (stream : string) (v : Z) : M World unit :=
  write_raw stream (be_bytes 1 v).

Definition writeDouble (stream : string) (x : float) : M World unit :=
  write_raw stream (be_bytes 8 (bits_of_float x)).

Definition writeBool (stream : string) (b : bool) : M World unit :=
  write_raw stream (be_bytes 1 (if b then 1 else 0)).

Definition writeRawData (stream : string) (bs : list byte) : M World unit :=
  write_raw stream bs.

(** [stream.writeBytes(bs)]: a 32-bit length, then the bytes. *)
Definition writeBytes (stream : string) (bs : list byte) : M World unit :=
  writeUInt32 stream (Z.of_nat (length bs));;
  write_raw stream bs.

(** ** The canvas file *)

(** An element as the file holds it: type tag, x, y. *)
Definition RawElement : Type := Z * float * float.

(** The [while] loop of [load_canvas_from_file] (lines 436-458), run on the
    path object it fills. *)
Equations? rebuild_path (elements : list RawElement) (i : nat) (path : QPainterPath)
  : result unit * QPainterPath by wf (length elements - i)%nat lt :=
  rebuild_path elements i path with decide (i < length elements)%nat => {
    | right _ => (Return tt, path)
    | left _ with elements !! i => {
      | None => (Raise IndexError, path)
      | Some (elem_type, x, y) =>
          if elem_type =? 0 then (* MoveToElement *)
            rebuild_path elements (i + 1) (path ++ [MoveTo (mkPoint x y)])
          else if elem_type =? 1 then (* LineToElement *)
            rebuild_path elements (i + 1) (path ++ [LineTo (mkPoint x y)])
          else if elem_type =? 2 then (* CurveToElement *)
            if decide (i + 2 < length elements)%nat then
              match elements !! (i + 1)%nat, elements !! (i + 2)%nat with
              | Some (_, ctrl2_x, ctrl2_y), Some (_, end_x, end_y) =>
                  rebuild_path elements (i + 3)
                    (path ++ [CubicTo (mkPoint x y) (mkPoint ctrl2_x ctrl2_y)
                                      (mkPoint end_x end_y)])
              | _, _ => (Raise IndexError, path)
              end
            else (Return tt, path) (* Not enough data for a curve *)
          else rebuild_path elements (i + 1) path (* Unknown element type *)
      }
    }.
Proof. all: lia. Qed.

(** The first [for] loop of the vector section (lines 430-434). *)
Fixpoint read_elements (n : nat) (s : stream) (elements : list RawElement)
  : list RawElement * stream :=
  match n with
  | O => (elements, s)
  | S n' =>
      let '(elem_type, s) := readUInt8 s in
      let '(x, s) := readDouble s in
      let '(y, s) := readDouble s in
      read_elements n' s (elements ++ [(elem_type, x, y)])
  end.

Section Canvas.
Context `{QtModel}.

(** [pixmap.save(buffer, 'PNG')]: the bytes left in the buffer; a null
    pixmap writes none. *)
Definition QPixmap_save_PNG (p : QPixmap) : list byte :=
  if QPixmap_isNull p then [] else qt_png_encode (toImage p).

(** [image.loadFromData(data, 'PNG')] on a fresh [QImage()]. *)
Definition QImage_loadFromData (data : list byte) : QImage :=
  match qt_png_decode data with
  | Some img => img
  | None => QImage_null
  end.

Definition save_canvas_to_file (file_path : string) : M World bool :=
  opened ← QFile_open_write file_path;
  if negb opened then ret false else
  let stream := file_path in
  (* Save raster_pixmap *)
  raster_bytes ← gets (fun w => QPixmap_save_PNG (raster_pixmap (view w)));
  writeUInt32 stream (Z.of_nat (length raster_bytes));;
  writeBytes stream raster_bytes;;
  (* Save vector_path *)
  elements ← gets (fun w =>
    map (fun elem => (ElementType_value (el_type elem), el_x elem, el_y elem))
        (elements (vector_path (view w))));
  writeUInt32 stream (Z.of_nat (length elements));;
  for_each elements (fun '(elem_type, x, y) =>
    writeUInt8 stream elem_type;;
    writeDouble stream x;;
    writeDouble stream y);;
  (* Save pins *)
  the_pins ← gets (fun w => pins (view w));
  writeUInt32 stream (Z.of_nat (length the_pins));;
  for_each the_pins (fun pin =>
    name_bytes ← str_encode (pin_name pin);
    writeUInt32 stream (Z.of_nat (length name_bytes));;
    writeRawData stream name_bytes;;
    writeDouble stream (pt_x (pin_pos pin));;
    writeDouble stream (pt_y (pin_pos pin)));;
  (* Save background visibility *)
  visible ← gets (fun w => background_visible (view w));
  writeBool stream visible;;
  ret true.

(** The [for] loop of the pin section (lines 464-470); returns the stream
    after the pins. *)
Fixpoint read_pins (n : nat) (s : stream) : M DrawingView stream :=
  match n with
  | O => ret s
  | S n' =>
      let '(name_length, s) := readUInt32 s in
      '(name_bytes, s) ← readRawData name_length s;
      name ← bytes_decode name_bytes;
      let '(x, s) := readDouble s in
      let '(y, s) := readDouble s in
      modify (fun v => set_pins (pins v ++ [mkPin name (mkPoint x y)]) v);;
      read_pins n' s
  end.

Definition load_canvas_from_file (file_path : string) : M World bool :=
  file ← QFile_open_read file_path;
  match file with
  | None => ret false
  | Some s =>
      on_view (
        (* Load raster_pixmap *)
        let '(raster_size, s) := readUInt32 s in
        let '(raster_data, s) := readBytes s in
        raster_bytes ← QByteArray raster_data;
        let raster_image := QImage_loadFromData raster_bytes in
        modify (set_raster_pixmap (QPixmap_fromImage raster_image));;
        modify (fun v => set_raster_item_pixmap (raster_pixmap v) v);;
        modify (fun v => set_raster_bounding_rect
                           (QRectF_of_QRect (QPixmap_getRect (raster_pixmap v))) v);;
        (* Load vector_path *)
        let '(element_count, s) := readUInt32 s in
        let '(elements, s) := read_elements (Z.to_nat element_count) s [] in
        modify (set_vector_path []);;
        with_field vector_path set_vector_path (rebuild_path elements 0);;
        modify (fun v => set_vector_item_path (vector_path v) v);;
        (* Load pins *)
        let '(pin_count, s) := readUInt32 s in
        modify (set_pins []);;
        s ← read_pins (Z.to_nat pin_count) s;
        (* Load background visibility *)
        let '(visible, s) := readBool s in
        modify (set_background_visible visible);;
        modify (fun v => set_background_color
                           (if background_visible v then Qt_white else Qt_transparent) v);;
        modify (fun v => set_background_rect_brush (background_color v) v);;
        ret true)
  end.

(** [save_raster_image]: the export buffer is painted by Qt, binarised by
    the program's loop and written as PNG. *)
Definition save_raster_image (file_path : string) : M World unit :=
  v ← gets view;
  let vector_bounding_rect := qt_bounding_rect (elements (vector_path v)) in
  let raster_bounding_rect := raster_bounding_rect v in
  let total_bounding_rect := qt_united vector_bounding_rect raster_bounding_rect in
  if QRectF_isNull total_bounding_rect || QRectF_isEmpty total_bounding_rect
  then ret tt (* Nothing to save *)
  else
    let total_bounding_rect := qt_to_aligned_rect total_bounding_rect in
    let width := r_w total_bounding_rect in
    let height := r_h total_bounding_rect in
    let image :=
      mkImage width height
        (qt_paint_export (background_color v) (antialiasing_enabled v)
           total_bounding_rect (toImage (raster_pixmap v)) (pen v)
           (elements (vector_path v))) in
    (* Binarize the image *)
    let image := binarize image in
    let temp_pixmap := QPixmap_fromImage image in
    opened ← QFile_open_write file_path;
    if opened then write_raw file_path (QPixmap_save_PNG temp_pixmap) else ret tt.

End Canvas.

(** ** Runs of the program

    What the application does to a [DrawingView] between its construction
    and the end of the process: the events Qt delivers and the commands of
    the main window.  An exception that leaves a handler ends the run. *)
Inductive Action :=
| Tablet (event : QTabletEvent)
| MousePress (event : QMouseEvent)
| MouseMove (event : QMouseEvent)
| MouseRelease (event : QMouseEvent)
| Wheel (event : QWheelEvent)
| KeyPress (key : Key)
| ClearCanvas
| ToggleBackground
| AddPin (name : pystr) (pos : QPointF)
| RemovePin (name : pystr)
| SaveCanvas (file_path : string)
| OpenCanvas (file_path : string)
| SaveRasterImage (file_path : string).

Section Runs.
Context `{QtModel}.

Definition perform (a : Action) : M World unit :=
  match a with
  | Tablet event => on_view (tabletEvent event);; ret tt
  | MousePress event => on_view (mousePressEvent event);; ret tt
  | MouseMove event => on_view (mouseMoveEvent event);; ret tt
  | MouseRelease event => on_view (mouseReleaseEvent event);; ret tt
  | Wheel event => on_view (wheelEvent event);; ret tt
  | KeyPress key => on_view (keyPressEvent key)
  | ClearCanvas => on_view clear_canvas
  | ToggleBackground => on_view toggle_background
  | AddPin name pos => on_view (add_pin name pos)
  | RemovePin name => on_view (remove_pin name)
  | SaveCanvas file_path => save_canvas_to_file file_path;; ret tt
  | OpenCanvas file_path => load_canvas_from_file file_path;; ret tt
  | SaveRasterImage file_path => save_raster_image file_path
  end.

Definition run (actions : list Action) : M World unit :=
  for_each actions perform.

(** The states a run can be in: from a fresh view, with or without a
    settings file, on any disk. *)
Definition reachable (w : World) : Prop :=
  exists config d actions,
    run actions (mkWorld (DrawingView_init config) d) = (Return tt, w).

End Runs.

(** ** The main window: the file number of [save_multi]

    [save_multi] looks for the first number, from 1 up, for which neither
    [imagemulti.NNNN.png] nor [imagemulti.NNNN.svg] exists, and exports
    to these two names. *)

(** [f"{num:04d}"]: the decimal digits of [num], with zeros in front of
    fewer than four digits. *)
Definition format_04d (num : nat) : string :=
  let digits := NilZero.string_of_uint (Nat.to_uint num) in
  Nat.iter (4 - String.length digits) (String "0"%char) digits.

Definition multi_raster_filename (num : nat) : string :=
  "imagemulti." +:+ format_04d num +:+ ".png".

Definition multi_vector_filename (num : nat) : string :=
  "imagemulti." +:+ format_04d num +:+ ".svg".

(** [os.path.exists]. *)
Definition os_path_exists (d : gmap string File) (p : string) : bool :=
  bool_decide (is_Some (d !! p)).

(** The [while True] loop of [save_multi] (lines 557-562), run for at most
    [fuel] rounds from [num]: the number it stops at, or [None] when the
    rounds do not suffice. *)
Fixpoint save_multi_number (fuel : nat) (num : nat) (d : gmap string File)
  : option nat :=
  match fuel with
  | O => None
  | S fuel' =>
      let raster_filename := multi_raster_filename num in
      let vector_filename := multi_vector_filename num in
      if negb (os_path_exists d raster_filename)
         && negb (os_path_exists d vector_filename)
      then Some num
      else save_multi_number fuel' (num + 1) d
  end.

(** ** Vocabulary of the statements *)

(** The number a Python number stands for, as a float. *)
Definition pynum_float (n : pynum) : float :=
  match n with
  | PyInt z => float_of_Z z
  | PyFloat f => f
  end.

(** The quadratic segments of a point sequence: one for each three
    consecutive points, with the middle point as control point and the
    last as end point. *)
Fixpoint triple_segments (points : list QPointF) : list PathCall :=
  match points with
  | p0 :: rest =>
      match rest with
      | p1 :: p2 :: _ => QuadTo p1 p2 :: triple_segments rest
      | _ => []
      end
  | [] => []
  end.

(** A stylus gesture up to its last move: a press, then the moves. *)
Definition tablet_gesture `{QtModel} (start : QPointF * float)
    (moves : list (QPointF * float)) : M DrawingView unit :=
  tabletEvent (mkTablet TabletPress (fst start) (snd start));;
  for_each moves (fun m => tabletEvent (mkTablet TabletMove (fst m) (snd m));; ret tt).

(** A mouse gesture up to its last move: a left press, then the moves,
    whatever buttons they report. *)
Definition mouse_gesture `{QtModel} (start : QPointF)
    (moves : list QMouseEvent) : M DrawingView unit :=
  mousePressEvent (mkMouse LeftButton start);;
  for_each moves (fun m => mouseMoveEvent m;; ret tt).

(** The pin that [__init__] creates. *)
Definition default_pin : Pin := mkPin (str "Default Pin") (mkPoint 0 0).

Definition is_mouse_action (a : Action) : bool :=
  match a with
  | MousePress _ | MouseMove _ | MouseRelease _ => true
  | _ => false
  end.

(** The calls the loading loop makes for a list of stored elements, read
    off the list from its head: [rebuild_path] is shown to make exactly
    these. *)
Fixpoint calls_of_elements (elements : list RawElement) : list PathCall :=
  match elements with
  | [] => []
  | (elem_type, x, y) :: rest =>
      if elem_type =? 0 then MoveTo (mkPoint x y) :: calls_of_elements rest
      else if elem_type =? 1 then LineTo (mkPoint x y) :: calls_of_elements rest
      else if elem_type =? 2 then
        match rest with
        | (_, ctrl2_x, ctrl2_y) :: (_, end_x, end_y) :: rest' =>
            CubicTo (mkPoint x y) (mkPoint ctrl2_x ctrl2_y) (mkPoint end_x end_y)
            :: calls_of_elements rest'
        | _ => []
        end
      else calls_of_elements rest
  end.

(** A list of stored elements made of whole records: each curve element
    (tag 2) comes with the two elements that complete it. *)
Inductive whole_records : list RawElement -> Prop :=
| whole_nil : whole_records []
| whole_curve x y e2 e3 rest :
    whole_records rest -> whole_records ((2, x, y) :: e2 :: e3 :: rest)
| whole_other t x y rest :
    t <> 2 -> whole_records rest -> whole_records ((t, x, y) :: rest).

(** The parts of the state that make up the canvas document, with the
    bounding box of the raster. *)
Definition document (v : DrawingView)
  : QPainterPath * QPixmap * QRectF * list Pin * bool :=
  (vector_path v, raster_pixmap v, raster_bounding_rect v, pins v,
   background_visible v).

(** *** A stand-in for Qt, to run the model on examples

    Exact comparison of points, finite coordinates, no geometry, a painter
    that leaves the pixels as they are, and in place of PNG a dump of the
    size (one byte each) and of the channels of every pixel. *)
Definition dump_pixel (c : QColor) : list byte :=
  [byte_of_Z (red c); byte_of_Z (green c); byte_of_Z (blue c); byte_of_Z (alpha c)].

Fixpoint undump_pixels (bs : list byte) : list QColor :=
  match bs with
  | r :: g :: b :: a :: rest =>
      mkColor (Z_of_byte r) (Z_of_byte g) (Z_of_byte b) (Z_of_byte a)
      :: undump_pixels rest
  | _ => []
  end.

Definition dump_image (img : QImage) : list byte :=
  byte_of_Z (img_w img) :: byte_of_Z (img_h img) :: concat (map dump_pixel (img_px img)).

Definition undump_image (bs : list byte) : option QImage :=
  match bs with
  | w :: h :: rest =>
      if (length rest =? 4 * Z.to_nat (Z_of_byte w * Z_of_byte h))%nat
      then Some (mkImage (Z_of_byte w) (Z_of_byte h) (undump_pixels rest))
      else None
  | _ => None
  end.

Definition sample_qt : QtModel :=
  {| qt_point_eq p q := ((pt_x p =? pt_x q) && (pt_y p =? pt_y q))%float;
     qt_valid_coords p := is_finite (pt_x p) && is_finite (pt_y p);
     qt_bounding_rect _ := QRectF_null;
     qt_united r1 r2 := r2;
     qt_to_aligned_rect _ := mkRect 0 0 0 0;
     qt_draw_path img _ _ _ := img_px img;
     qt_paint_export _ _ _ img _ _ := img_px img;
     qt_png_encode := dump_image;
     qt_png_decode := undump_image |}.

(** The actions that leave the default pin in the registry: all but
    opening a canvas and removing the pin named "Default Pin". *)
Definition spares_default_pin (a : Action) : Prop :=
  match a with
  | OpenCanvas _ => False
  | RemovePin name => name <> str "Default Pin"
  | _ => True
  end.

(** The path the compositor paints for a stroke: from the first point, a
    quadratic segment to each later point, with the midpoint of the two
    points as control point. *)
Definition midpoint (p0 p1 : QPointF) : QPointF :=
  mkPoint ((pt_x p0 + pt_x p1) / 2) ((pt_y p0 + pt_y p1) / 2).

Fixpoint midpoint_segments (prev : QPointF) (rest : list QPointF) : list PathCall :=
  match rest with
  | [] => []
  | p :: rest' => QuadTo (midpoint prev p) p :: midpoint_segments p rest'
  end.

(** What holds between gestures and during them: a stroke that is being
    drawn has at least its start point. *)
Definition gesture_has_points (v : DrawingView) : Prop :=
  drawing v = true -> stroke_points v <> [].

(** *** The layout of a canvas file *)

(** An element as [save_canvas_to_file] stores it. *)
Definition raw_element (e : Element) : RawElement :=
  (ElementType_value (el_type e), el_x e, el_y e).

Definition encode_element (e : RawElement) : list byte :=
  let '(elem_type, x, y) := e in
  be_bytes 1 elem_type ++ be_bytes 8 (bits_of_float x) ++ be_bytes 8 (bits_of_float y).

Definition encode_pin (name_bytes : list byte) (pos : QPointF) : list byte :=
  be_bytes 4 (Z.of_nat (length name_bytes)) ++ name_bytes
  ++ be_bytes 8 (bits_of_float (pt_x pos)) ++ be_bytes 8 (bits_of_float (pt_y pos)).

(** The pin section after its count; [None] when a name cannot be
    encoded. *)
Fixpoint encode_pins (ps : list Pin) : option (list byte) :=
  match ps with
  | [] => Some []
  | p :: ps' =>
      match utf8_encode (pin_name p), encode_pins ps' with
      | Some name_bytes, Some rest => Some (encode_pin name_bytes (pin_pos p) ++ rest)
      | _, _ => None
      end
  end.

(** The bytes of a canvas file, field by field (spec section 4.5, with the
    length of the raster written twice, as the code does). *)
Definition canvas_file (raster_bytes : list byte) (elements : list RawElement)
    (pins_bytes : list byte) (n_pins : nat) (visible : bool) : list byte :=
  be_bytes 4 (Z.of_nat (length raster_bytes))
  ++ be_bytes 4 (Z.of_nat (length raster_bytes)) ++ raster_bytes
  ++ be_bytes 4 (Z.of_nat (length elements))
  ++ concat (map encode_element elements)
  ++ be_bytes 4 (Z.of_nat n_pins)
  ++ pins_bytes
  ++ be_bytes 1 (if visible then 1 else 0).

(** A document whose parts fit the fields of the file: the three counts
    and the raster length fit 32 bits, the raster is not empty, and every
    encoded name is shorter than [2^31] bytes. *)
Definition fits_canvas_file `{QtModel} (v : DrawingView) : Prop :=
  (0 < length (QPixmap_save_PNG (raster_pixmap v)))%nat /\
  Z.of_nat (length (QPixmap_save_PNG (raster_pixmap v))) < 2 ^ 32 /\
  Z.of_nat (length (elements (vector_path v))) < 2 ^ 32 /\
  Z.of_nat (length (pins v)) < 2 ^ 32 /\
  Forall (fun p => forall name_bytes,
            utf8_encode (pin_name p) = Some name_bytes ->
            Z.of_nat (length name_bytes) < 2 ^ 31) (pins v).

(** *** The element lists Qt builds

    An element list as the four path calls leave it: it starts with a move,
    has no two moves in a row, holds only points that pass the coordinate
    check, no line to the point before it and no empty curve. *)
Definition move_element (p : QPointF) : Element :=
  mkElement MoveToElement (pt_x p) (pt_y p).
Definition line_element (p : QPointF) : Element :=
  mkElement LineToElement (pt_x p) (pt_y p).
Definition curve_elements (c1 c2 e : QPointF) : list Element :=
  [mkElement CurveToElement (pt_x c1) (pt_y c1);
   mkElement CurveToDataElement (pt_x c2) (pt_y c2);
   mkElement CurveToDataElement (pt_x e) (pt_y e)].

Inductive built `{QtModel} : list Element -> Prop :=
| built_first p :
    qt_valid_coords p = true -> built [move_element p]
| built_move els p :
    built els -> ends_with_move els = false -> qt_valid_coords p = true ->
    built (els ++ [move_element p])
| built_line els p :
    built els -> qt_valid_coords p = true ->
    qt_point_eq p (last_point els) = false ->
    built (els ++ [line_element p])
| built_curve els c1 c2 e :
    built els ->
    qt_valid_coords c1 && qt_valid_coords c2 && qt_valid_coords e = true ->
    qt_point_eq (last_point els) c1 && qt_point_eq c1 c2 && qt_point_eq c2 e = false ->
    built (els ++ curve_elements c1 c2 e).

(** *** Sample inputs

    A small document to run the file methods on: a raster of 2 x 2 pixels
    with one stroke, a path of one curve and two pins. *)
Definition sample_document : DrawingView :=
  set_raster_pixmap
    (Painted (Filled 2 2 Qt_transparent)
       [MoveTo (mkPoint 0 0); QuadTo (mkPoint 0.5 0.5) (mkPoint 1 1)]
       (mkPen Qt_black (PyInt 2)) true)
    (set_vector_path [MoveTo (mkPoint 0 0); QuadTo (mkPoint 1 2) (mkPoint 3 4)]
       (set_pins [default_pin; mkPin (str "Home") (mkPoint 3 4)] DrawingView_new)).

(** A canvas file whose only pin has a name that is not UTF-8: one byte
    of raster data, no element, one pin with the one-byte name [0xFF]. *)
Definition sample_bad_file : list byte :=
  [x00; x00; x00; x01;  x00; x00; x00; x01;  x00;
   x00; x00; x00; x00;
   x00; x00; x00; x01;  x00; x00; x00; x01;  xff].

(** *** Invariants of the states of a run *)

(** The background colour and the brush of the background rectangle
    follow the visibility flag. *)
Definition background_consistent (v : DrawingView) : Prop :=
  background_color v = (if background_visible v then Qt_white else Qt_transparent) /\
  background_rect_brush v = background_color v.

(** The pen is the black pen of the current width, the path item draws
    with it, and the width is at least 1. *)
Definition pen_consistent (v : DrawingView) : Prop :=
  pen_color v = Qt_black /\
  pen v = mkPen (pen_color v) (current_pen_width v) /\
  vector_item_pen v = pen v /\
  (1 <=? pynum_float (current_pen_width v))%float = true.

(** The pixmap item of the scene shows the raster. *)
Definition scene_shows_raster (v : DrawingView) : Prop :=
  raster_item_pixmap v = raster_pixmap v.

(** The path item of the scene shows the vector path, up to [moveTo]
    calls at its end: it lacks no segment. *)
Definition scene_shows_path (v : DrawingView) : Prop :=
  exists moves, vector_path v = vector_item_path v ++ map MoveTo moves.

(** The smoothing window holds at most three points. *)
Definition window_bounded (v : DrawingView) : Prop :=
  (length (last_points v) <= 3)%nat.

Definition view_invariant (v : DrawingView) : Prop :=
  background_consistent v /\ pen_consistent v /\ scene_shows_raster v /\
  scene_shows_path v /\ window_bounded v.


(** *** Vocabulary of the proofs *)

(** The test of the loop of [save_multi]: neither name of the number
    exists. *)
Definition number_is_free (d : gmap string File) (num : nat) : bool :=
  negb (os_path_exists d (multi_raster_filename num))
  && negb (os_path_exists d (multi_vector_filename num)).


(** The world in which the file at [path] holds [content]. *)
Definition written (path : string) (v : DrawingView) (d : gmap string File)
    (content : list byte) : World :=
  mkWorld v (<[path := Regular content]> d).

(** [m] appends [bs] to the file at [path] and does nothing else. *)
Definition appends (path : string) (bs : list byte) (m : M World unit) : Prop :=
  forall v d content,
    m (written path v d content) = (Return tt, written path v d (content ++ bs)).


(** The test of the binarisation loop on one colour, and the loop body on
    the pixel list. *)
Definition binarized (c : QColor) : QColor :=
  if (float_of_Z (red c + green c + blue c) / 3 <? 128)%float
  then Qt_black else Qt_white.

Definition binarize_at (px : list QColor) (i : nat) : list QColor :=
  <[i := binarized (default Qt_black (px !! i))]> px.


(** What a new point makes the window emit. *)
Definition emitted (window : list QPointF) : list PathCall :=
  match window with
  | [_; p1; p2] => [QuadTo p1 p2]
  | _ => []
  end.

(** The last two points of a window. *)
Definition window_tail (w : list QPointF) : list QPointF :=
  match w with
  | [_; b; c] => [b; c]
  | _ => w
  end.

(** [m] never changes the observation [f] of the state, whether it returns
    or raises. *)
Definition preserves {S A T} (f : S -> T) (m : M S A) : Prop :=
  forall s, f (snd (m s)) = f s.

(** * Properties *)

(** ** The monad *)

Lemma bind_ret_l {S A B} (a : A) (k : A -> M S B) s : bind (ret a) k s = k a s.
Proof. reflexivity. Qed.

Lemma bind_Return {S A B} (m : M S A) (k : A -> M S B) s a s' :
  m s = (Return a, s') -> bind m k s = k a s'.
Proof. intros E. unfold bind. now rewrite E. Qed.

Lemma bind_Raise {S A B} (m : M S A) (k : A -> M S B) s e s' :
  m s = (Raise e, s') -> bind m k s = (Raise e, s').
Proof. intros E. unfold bind. now rewrite E. Qed.

Lemma for_each_app {S A} (xs ys : list A) (body : A -> M S unit) s :
  for_each (xs ++ ys) body s = bind (for_each xs body) (fun _ => for_each ys body) s.
Proof.
  revert s. induction xs as [|x xs IH]; intros s; simpl.
  - reflexivity.
  - unfold bind in *. destruct (body x s) as [[[]|e] s1]; [|reflexivity].
    apply IH.
Qed.

(** Unfolds the straight-line part of a method. *)
Ltac run_method :=
  cbv [bind ret modify gets get raise with_field on_view update_pen];
  cbn.

(** ** Floating-point order *)

Lemma float_ltb_leb (x y : float) : (x <? y)%float = true -> (x <=? y)%float = true.
Proof.
  rewrite FloatAxioms.ltb_spec, FloatAxioms.leb_spec. unfold SFltb, SFleb.
  destruct (SFcompare _ _) as [[]|]; congruence.
Qed.

Lemma Prim2SF_one : Prim2SF 1 = S754_finite false 4503599627370496 (-52).
Proof. vm_compute. reflexivity. Qed.

Lemma float_eqb_leb (x y : float) : (x =? y)%float = true -> (x <=? y)%float = true.
Proof.
  rewrite FloatAxioms.eqb_spec, FloatAxioms.leb_spec. unfold SFeqb, SFleb.
  destruct (SFcompare _ _) as [[]|]; congruence.
Qed.

(** Below or at 1 when not above it, unless the number is a NaN. *)
Lemma float_not_gt_one (x : float) :
  (x =? x)%float = true -> (1 <? x)%float = false -> (x <=? 1)%float = true.
Proof.
  rewrite FloatAxioms.eqb_spec, FloatAxioms.ltb_spec, FloatAxioms.leb_spec, Prim2SF_one.
  unfold SFeqb, SFltb, SFleb.
  destruct (Prim2SF x) as [s|s| |s m e]; cbn [SFcompare]; try congruence.
  - destruct s; congruence.
  - destruct s; [congruence|]. intros _.
    rewrite (Z.compare_antisym e (-52)).
    pose proof (Pos.compare_cont_antisym 4503599627370496 m Eq) as E.
    cbn [CompOpp] in E. rewrite <- E. clear E.
    destruct (e ?= -52)%Z; cbn [CompOpp]; try congruence.
    destruct (Pos.compare_cont Eq _ m); cbn [CompOpp]; congruence.
Qed.

(** ** Pressure to width (C9) *)

Lemma pen_width_floor (pressure : float) :
  (1 <=? pynum_float (pen_width_of_pressure pressure))%float = true.
Proof.
  unfold pen_width_of_pressure.
  destruct (1 <? pressure * 10)%float eqn:E; cbn [pynum_float].
  - now apply float_ltb_leb.
  - vm_compute. reflexivity.
Qed.

Lemma pen_width_above_product (pressure : float) :
  (pressure * 10 =? pressure * 10)%float = true ->
  (pressure * 10 <=? pynum_float (pen_width_of_pressure pressure))%float = true.
Proof.
  intros Hnum. unfold pen_width_of_pressure.
  destruct (1 <? pressure * 10)%float eqn:E; cbn [pynum_float].
  - now apply float_eqb_leb.
  - replace (float_of_Z 1) with 1%float by (vm_compute; reflexivity).
    now apply float_not_gt_one.
Qed.

(** C9.  At a stylus press, and at a stylus move while a stroke is drawn,
    the pen width becomes [max(1, pressure * 10)]: it is the product when
    the product is above 1 and 1 otherwise, hence never below 1 and never
    below the product (when that is a number); pressure 0.05 gives 1 and
    pressure 0.5 gives 5. *)
Theorem pen_width_is_max_of_one_and_product `{QtModel}
    (s : DrawingView) (point : QPointF) (pressure : float) :
  let product := (pressure * 10)%float in
  let width := pen_width_of_pressure pressure in
  let at_press := snd (tabletEvent (mkTablet TabletPress point pressure) s) in
  let at_move :=
    snd (tabletEvent (mkTablet TabletMove point pressure) (set_drawing true s)) in
  current_pen_width at_press = width /\
  pen_width (pen at_press) = width /\
  current_pen_width at_move = width /\
  pen_width (pen at_move) = width /\
  ((1 <? product)%float = true -> width = PyFloat product) /\
  ((1 <? product)%float = false -> width = PyInt 1) /\
  (1 <=? pynum_float width)%float = true /\
  ((product =? product)%float = true ->
   (product <=? pynum_float width)%float = true) /\
  pen_width_of_pressure 0.05 = PyInt 1 /\
  pen_width_of_pressure 0.5 = PyFloat 5.
Proof.
  cbv zeta.
  repeat apply conj.
  - unfold tabletEvent. run_method. reflexivity.
  - unfold tabletEvent. run_method. reflexivity.
  - unfold tabletEvent, smooth_path. run_method.
    destruct (deque_append 3 (last_points s) point) as [|? [|? [|? [|? ?]]]];
      run_method; reflexivity.
  - unfold tabletEvent, smooth_path. run_method.
    destruct (deque_append 3 (last_points s) point) as [|? [|? [|? [|? ?]]]];
      run_method; reflexivity.
  - unfold pen_width_of_pressure. now intros ->.
  - unfold pen_width_of_pressure. now intros ->.
  - apply pen_width_floor.
  - apply pen_width_above_product.
  - vm_compute. reflexivity.
  - vm_compute. reflexivity.
Qed.

(** ** The smoothing window (C1) *)

Lemma point_eta (p : QPointF) : mkPoint (pt_x p) (pt_y p) = p.
Proof. now destruct p. Qed.

Lemma triple_segments_length (points : list QPointF) :
  length (triple_segments points) = (length points - 2)%nat.
Proof.
  induction points as [|p0 [|p1 [|p2 rest]] IH]; try reflexivity.
  change (S (length (triple_segments (p1 :: p2 :: rest)))
          = (length (p0 :: p1 :: p2 :: rest) - 2)%nat).
  rewrite IH. simpl. lia.
Qed.

Lemma triple_segments_lookup (points : list QPointF) (k : nat) (p1 p2 : QPointF) :
  points !! S k = Some p1 ->
  points !! S (S k) = Some p2 ->
  triple_segments points !! k = Some (QuadTo p1 p2).
Proof.
  revert k. induction points as [|p0 rest IH]; intros k H1 H2; [discriminate|].
  destruct rest as [|q1 [|q2 rest']]; [discriminate| |].
  - destruct k; discriminate.
  - change (triple_segments (p0 :: q1 :: q2 :: rest'))
      with (QuadTo q1 q2 :: triple_segments (q1 :: q2 :: rest')).
    destruct k as [|k].
    + cbn in H1, H2. cbn. congruence.
    + apply (IH k); assumption.
Qed.

Lemma smooth_path_spec `{QtModel} (s : DrawingView) (q : QPointF) :
  exists s',
    smooth_path q s = (Return tt, s') /\
    last_points s' = deque_append 3 (last_points s) q /\
    vector_path s' = vector_path s ++ emitted (deque_append 3 (last_points s) q) /\
    drawing s' = drawing s /\ use_tablet s' = use_tablet s /\
    stroke_points s' = stroke_points s.
Proof.
  unfold smooth_path. run_method.
  destruct (deque_append 3 (last_points s) q) as [|a [|b [|c [|d w]]]] eqn:E;
    run_method; eexists; (split; [reflexivity|]); cbn; rewrite ?E, ?app_nil_r;
    try rewrite point_eta; auto.
Qed.

(** A stylus move while drawing: the window slides and emits. *)
Lemma tablet_move_spec `{QtModel} (s : DrawingView) (q : QPointF) (pressure : float) :
  drawing s = true ->
  exists s',
    tabletEvent (mkTablet TabletMove q pressure) s = (Return true, s') /\
    last_points s' = deque_append 3 (last_points s) q /\
    vector_path s' = vector_path s ++ emitted (deque_append 3 (last_points s) q) /\
    drawing s' = true.
Proof.
  intros Hd. unfold tabletEvent.
  cbv [bind ret modify gets update_pen]. cbn [te_type te_posF te_pressure].
  replace (drawing (set_use_tablet true s)) with true by (now rewrite <- Hd).
  match goal with |- context [smooth_path q ?s0] =>
    destruct (smooth_path_spec s0 q) as (s1 & -> & Hl & Hv & Hdr & _ & _) end.
  eexists. split; [reflexivity|]. cbn. rewrite Hl, Hv, Hdr. cbn. auto.
Qed.

(** A mouse move while drawing without a stylus. *)
Lemma mouse_move_spec `{QtModel} (s : DrawingView) (event : QMouseEvent) :
  use_tablet s = false -> drawing s = true ->
  exists s',
    mouseMoveEvent event s = (Return true, s') /\
    last_points s' = deque_append 3 (last_points s) (me_scene_pos event) /\
    vector_path s' =
      vector_path s ++ emitted (deque_append 3 (last_points s) (me_scene_pos event)) /\
    use_tablet s' = false /\ drawing s' = true.
Proof.
  intros Hu Hd. unfold mouseMoveEvent.
  cbv [bind ret modify gets update_pen]. rewrite Hu, Hd. cbn [negb andb].
  match goal with |- context [smooth_path ?q ?s0] =>
    destruct (smooth_path_spec s0 q) as (s1 & -> & Hl & Hv & Hdr & Hut & _) end.
  eexists. split; [reflexivity|]. cbn. rewrite Hl, Hv, Hdr, Hut. cbn. auto.
Qed.

(** Feeding points to a window that holds one to three points emits the
    segments of the triples that end in a new point. *)
Lemma window_emits {A} (step : A -> M DrawingView unit) (pt : A -> QPointF)
    (P : DrawingView -> Prop) :
  (forall a s, P s -> exists s',
      step a s = (Return tt, s') /\ P s' /\
      last_points s' = deque_append 3 (last_points s) (pt a) /\
      vector_path s' = vector_path s ++ emitted (deque_append 3 (last_points s) (pt a))) ->
  forall moves s, P s ->
    (1 <= length (last_points s) <= 3)%nat ->
    exists s',
      for_each moves step s = (Return tt, s') /\ P s' /\
      vector_path s' =
        vector_path s ++ triple_segments (window_tail (last_points s) ++ map pt moves).
Proof.
  intros Hstep moves. induction moves as [|a moves IH]; intros s HP Hlen.
  - exists s. split; [reflexivity|]. split; [assumption|].
    destruct (last_points s) as [|x [|y [|z [|? ?]]]]; simpl in *; try lia;
      now rewrite app_nil_r.
  - destruct (Hstep a s HP) as (s1 & E1 & HP1 & Hl1 & Hv1).
    destruct (IH s1 HP1) as (s2 & E2 & HP2 & Hv2).
    { rewrite Hl1. unfold deque_append.
      destruct (last_points s) as [|x [|y [|z [|? ?]]]]; simpl in *; lia. }
    exists s2. split.
    { simpl. unfold bind. rewrite E1. exact E2. }
    split; [assumption|].
    rewrite Hv2, Hv1, Hl1, <- app_assoc. f_equal.
    unfold deque_append.
    destruct (last_points s) as [|x [|y [|z [|? ?]]]]; simpl in *; try lia;
      reflexivity.
Qed.

Lemma tablet_press_spec `{QtModel} (s : DrawingView) (p : QPointF) (pressure : float) :
  exists s',
    tabletEvent (mkTablet TabletPress p pressure) s = (Return true, s') /\
    last_points s' = [p] /\
    vector_path s' = vector_path s ++ [MoveTo p] /\
    stroke_points s' = [p] /\
    drawing s' = true /\ use_tablet s' = true.
Proof.
  unfold tabletEvent. run_method. eexists. split; [reflexivity|]. cbn. auto.
Qed.

Lemma mouse_press_spec `{QtModel} (s : DrawingView) (p : QPointF) :
  use_tablet s = false ->
  exists s',
    mousePressEvent (mkMouse LeftButton p) s = (Return true, s') /\
    last_points s' = [p] /\
    vector_path s' = vector_path s ++ [MoveTo p] /\
    stroke_points s' = [p] /\
    drawing s' = true /\ use_tablet s' = false.
Proof.
  intros Hu. unfold mousePressEvent. run_method. rewrite Hu. run_method.
  eexists. split; [reflexivity|]. cbn. auto.
Qed.

(** C1.  A gesture of N >= 3 points, a press at [start] and then N-1 moves,
    appends to the vector path one [moveTo] and then exactly N-2 quadratic
    segments; segment [k] has point [k+1] of the gesture as control point
    and point [k+2] as end point.  This holds for a stylus gesture from any
    state and for a mouse gesture from any state in which no stylus was
    seen. *)
Theorem smoothing_emits_one_segment_per_triple `{QtModel}
    (s : DrawingView) (start : QPointF) (pressure : float)
    (moves : list (QPointF * float * MouseButton)) :
  let points := start :: map (fun m => m.1.1) moves in
  let tablet_moves := map (fun m => (m.1.1, m.1.2)) moves in
  let mouse_moves := map (fun m => mkMouse m.2 m.1.1) moves in
  (3 <= length points)%nat ->
  exists s_tablet s_mouse,
    tablet_gesture (start, pressure) tablet_moves s = (Return tt, s_tablet) /\
    mouse_gesture start mouse_moves (set_use_tablet false s) = (Return tt, s_mouse) /\
    vector_path s_tablet = vector_path s ++ MoveTo start :: triple_segments points /\
    vector_path s_mouse = vector_path s ++ MoveTo start :: triple_segments points /\
    length (triple_segments points) = (length points - 2)%nat /\
    forall k p1 p2,
      points !! S k = Some p1 -> points !! S (S k) = Some p2 ->
      triple_segments points !! k = Some (QuadTo p1 p2).
Proof.
  intros points tablet_moves mouse_moves _.
  (* the stylus gesture *)
  destruct (tablet_press_spec s start pressure) as (t0 & Et0 & Hl0 & Hv0 & _ & Hd0 & _).
  destruct (window_emits
              (fun m : QPointF * float =>
                 tabletEvent (mkTablet TabletMove m.1 m.2);; ret tt)
              fst (fun v => drawing v = true)) with (moves := tablet_moves) (s := t0)
    as (t1 & Et1 & _ & Hv1); [| assumption | rewrite Hl0; simpl; lia |].
  { intros [q pr] v Hd. destruct (tablet_move_spec v q pr Hd) as (v' & E & Hl & Hv & Hd').
    exists v'. split; [|auto]. unfold bind. cbn [fst snd]. now rewrite E. }
  (* the mouse gesture *)
  destruct (mouse_press_spec (set_use_tablet false s) start eq_refl)
    as (m0 & Em0 & Hlm0 & Hvm0 & _ & Hdm0 & Hum0).
  destruct (window_emits
              (fun m : QMouseEvent => mouseMoveEvent m;; ret tt)
              me_scene_pos (fun v => use_tablet v = false /\ drawing v = true))
    with (moves := mouse_moves) (s := m0)
    as (m1 & Em1 & _ & Hvm1); [| split; assumption | rewrite Hlm0; simpl; lia |].
  { intros e v [Hu Hd]. destruct (mouse_move_spec v e Hu Hd) as (v' & E & Hl & Hv & Hu' & Hd').
    exists v'. split; [|auto]. unfold bind. now rewrite E. }
  exists t1, m1.
  assert (Hpts : map fst tablet_moves = map (fun m => m.1.1) moves).
  { unfold tablet_moves. rewrite map_map. reflexivity. }
  assert (Hmpts : map me_scene_pos mouse_moves = map (fun m => m.1.1) moves).
  { unfold mouse_moves. rewrite map_map. reflexivity. }
  repeat apply conj.
  - unfold tablet_gesture, bind. cbn [fst snd]. rewrite Et0. exact Et1.
  - unfold mouse_gesture, bind. rewrite Em0. exact Em1.
  - rewrite Hv1, Hv0, Hl0, Hpts, <- app_assoc. reflexivity.
  - rewrite Hvm1, Hvm0, Hlm0, Hmpts, <- app_assoc. reflexivity.
  - apply triple_segments_length.
  - intros k p1 p2. apply triple_segments_lookup.
Qed.

Lemma smoothing_emits_one_segment_per_triple_witness :
  exists s_tablet s_mouse,
    tablet_gesture (H := sample_qt) (mkPoint 0 0, 0.5%float)
      [(mkPoint 1 2, 0.5%float); (mkPoint 3 1, 0.25%float)] DrawingView_new
    = (Return tt, s_tablet) /\
    mouse_gesture (H := sample_qt) (mkPoint 0 0)
      [mkMouse LeftButton (mkPoint 1 2); mkMouse OtherButton (mkPoint 3 1)]
      (set_use_tablet false DrawingView_new)
    = (Return tt, s_mouse) /\
    vector_path s_tablet = [MoveTo (mkPoint 0 0); QuadTo (mkPoint 1 2) (mkPoint 3 1)] /\
    vector_path s_mouse = [MoveTo (mkPoint 0 0); QuadTo (mkPoint 1 2) (mkPoint 3 1)].
Proof.
  destruct (smoothing_emits_one_segment_per_triple (H := sample_qt)
              DrawingView_new (mkPoint 0 0) 0.5%float
              [(mkPoint 1 2, 0.5%float, LeftButton); (mkPoint 3 1, 0.25%float, OtherButton)])
    as (st & sm & Et & Em & Hvt & Hvm & _); [simpl; lia|].
  exists st, sm. repeat apply conj; assumption.
Defined.

(** ** Frames: what a method leaves alone *)

Section Preserves.
Context {S T : Type} (f : S -> T).

Lemma preserves_ret {A} (a : A) : preserves f (ret a).
Proof. intros s. reflexivity. Qed.

Lemma preserves_raise {A} (e : exn) : preserves f (raise (A := A) e).
Proof. intros s. reflexivity. Qed.

Lemma preserves_gets {A} (g : S -> A) : preserves f (gets g).
Proof. intros s. reflexivity. Qed.

Lemma preserves_modify (g : S -> S) :
  (forall s, f (g s) = f s) -> preserves f (modify g).
Proof. intros Hg s. apply Hg. Qed.

Lemma preserves_bind {A B} (m : M S A) (k : A -> M S B) :
  preserves f m -> (forall a, preserves f (k a)) -> preserves f (bind m k).
Proof.
  intros Hm Hk s. unfold bind. specialize (Hm s).
  destruct (m s) as [[a|e] s1]; cbn in *.
  - now rewrite Hk.
  - assumption.
Qed.

Lemma preserves_for_each {A} (xs : list A) (body : A -> M S unit) :
  (forall x, preserves f (body x)) -> preserves f (for_each xs body).
Proof.
  intros Hb. induction xs as [|x xs IH]; simpl.
  - apply preserves_ret.
  - apply preserves_bind; [apply Hb | intros _; apply IH].
Qed.

Lemma preserves_fold_each {A B} (xs : list A) (acc : B) (body : B -> A -> M S B) :
  (forall b x, preserves f (body b x)) -> preserves f (fold_each xs acc body).
Proof.
  intros Hb. revert acc. induction xs as [|x xs IH]; intros acc; simpl.
  - apply preserves_ret.
  - apply preserves_bind; [apply Hb | intros b; apply IH].
Qed.

Lemma preserves_index {A} (xs : list A) (i : nat) : preserves f (index xs i).
Proof. unfold index. destruct (xs !! i); [apply preserves_ret | apply preserves_raise]. Qed.

(** A computation on a component that [f] does not look at. *)
Lemma preserves_with_field_other {U A} (getf : S -> U) (setf : U -> S -> S) (m : M U A) :
  (forall u s, f (setf u s) = f s) -> preserves f (with_field getf setf m).
Proof. intros Hset s. unfold with_field. destruct (m (getf s)) as [r u]. apply Hset. Qed.

(** A computation on the component that [f] looks at. *)
Lemma preserves_with_field_same {U A} (g : U -> T) (getf : S -> U) (setf : U -> S -> S)
    (m : M U A) :
  (forall s, f s = g (getf s)) -> (forall u s, getf (setf u s) = u) ->
  preserves g m -> preserves f (with_field getf setf m).
Proof.
  intros Hf Hgs Hm s. unfold with_field. specialize (Hm (getf s)).
  destruct (m (getf s)) as [r u]. cbn in *. now rewrite !Hf, Hgs.
Qed.

End Preserves.

(** Proves [preserves f m] for straight-line code by walking through it;
    lemmas about methods are taken from the hint database [frames]. *)
Create HintDb frames.

Ltac frame_step :=
  first
    [ apply preserves_ret
    | apply preserves_raise
    | apply preserves_gets
    | apply preserves_index
    | solve [auto with frames]
    | apply preserves_modify; intros ?; cbv beta;
      repeat match goal with |- context [if ?b then _ else _] => destruct b end;
      first [solve [auto] | cbn; reflexivity]
    | apply preserves_bind; [|intros ?]
    | apply preserves_for_each; intros ?
    | apply preserves_fold_each; intros ? ?
    | match goal with
      | |- preserves _ (match ?x with _ => _ end) => destruct x
      | |- preserves _ (if ?b then _ else _) => destruct b
      | |- preserves _ (let '(_, _) := ?e in _) => destruct e
      end ].

Ltac frame := repeat frame_step.

Section MethodFrames.
Context `{QtModel}.

Lemma smooth_path_frame {T} (f : DrawingView -> T) (q : QPointF) :
  (forall v s, f (set_last_points v s) = f s) ->
  (forall v s, f (set_vector_path v s) = f s) ->
  (forall v s, f (set_vector_item_path v s) = f s) ->
  preserves f (smooth_path q).
Proof.
  intros H1 H2 H3. unfold smooth_path.
  apply preserves_bind; [apply preserves_modify; intros; apply H1|intros _].
  apply preserves_bind; [apply preserves_gets|intros w].
  destruct w as [|? [|? [|? [|? ?]]]]; try apply preserves_ret.
  apply preserves_bind; apply preserves_modify || intros _;
    [intros; apply H2 | apply preserves_modify; intros; apply H3].
Qed.


End MethodFrames.

(** *** Frames of the file methods *)

Lemma preserves_write_raw {T} (f : DrawingView -> T) (path : string) (bs : list byte) :
  preserves (fun w => f (view w)) (write_raw path bs).
Proof.
  apply preserves_modify. intros w. destruct (disk w !! path) as [[]|]; reflexivity.
Qed.
#[global] Hint Resolve preserves_write_raw : frames.

Lemma preserves_QFile_open_write {T} (f : DrawingView -> T) (path : string) :
  preserves (fun w => f (view w)) (QFile_open_write path).
Proof.
  unfold QFile_open_write. apply preserves_bind; [apply preserves_gets|intros d].
  destruct (d !! path) as [[]|]; frame.
Qed.
#[global] Hint Resolve preserves_QFile_open_write : frames.

Lemma preserves_QFile_open_read {T} (f : World -> T) (path : string) :
  preserves f (QFile_open_read path).
Proof.
  unfold QFile_open_read. apply preserves_bind; [apply preserves_gets|intros d].
  destruct (d !! path) as [[]|]; frame.
Qed.
#[global] Hint Resolve preserves_QFile_open_read : frames.

Lemma preserves_on_view {T A} (f : DrawingView -> T) (m : M DrawingView A) :
  preserves f m -> preserves (fun w => f (view w)) (on_view m).
Proof.
  intros Hm. unfold on_view.
  apply (preserves_with_field_same _ f); [reflexivity | reflexivity | exact Hm].
Qed.

Section FileFrames.
Context `{QtModel}.

(** Saving touches the disk only. *)
Lemma save_canvas_to_file_frame {T} (f : DrawingView -> T) (file_path : string) :
  preserves (fun w => f (view w)) (save_canvas_to_file file_path).
Proof.
  unfold save_canvas_to_file, writeBytes, writeUInt32, writeUInt8, writeDouble,
    writeBool, writeRawData, str_encode.
  frame.
Qed.

Lemma save_raster_image_frame {T} (f : DrawingView -> T) (file_path : string) :
  preserves (fun w => f (view w)) (save_raster_image file_path).
Proof. unfold save_raster_image. frame. Qed.

Lemma read_pins_frame {T} (f : DrawingView -> T) (n : nat) (s : stream) :
  (forall v s, f (set_pins v s) = f s) -> preserves f (read_pins n s).
Proof.
  intros Hp. revert s. induction n as [|n IH]; intros s; simpl.
  - apply preserves_ret.
  - unfold readRawData, bytes_decode. frame.
Qed.

(** Loading writes the raster, its item and bounding box, the vector path
    and its item, the pins and the background attributes, and nothing
    else. *)
Lemma load_canvas_from_file_frame {T} (f : DrawingView -> T) (file_path : string) :
  (forall v s, f (set_raster_pixmap v s) = f s) ->
  (forall v s, f (set_raster_item_pixmap v s) = f s) ->
  (forall v s, f (set_raster_bounding_rect v s) = f s) ->
  (forall v s, f (set_vector_path v s) = f s) ->
  (forall v s, f (set_vector_item_path v s) = f s) ->
  (forall v s, f (set_pins v s) = f s) ->
  (forall v s, f (set_background_visible v s) = f s) ->
  (forall v s, f (set_background_color v s) = f s) ->
  (forall v s, f (set_background_rect_brush v s) = f s) ->
  preserves (fun w => f (view w)) (load_canvas_from_file file_path).
Proof.
  intros H1 H2 H3 H4 H5 H6 H7 H8 H9. unfold load_canvas_from_file.
  apply preserves_bind; [frame|intros [s|]]; [|frame].
  apply preserves_on_view. unfold QByteArray.
  assert (Hpins := fun n s => read_pins_frame f n s H6).
  assert (Hpath := fun els => preserves_with_field_other f vector_path set_vector_path
                                (rebuild_path els 0) H4).
  frame.
Qed.

End FileFrames.

(** *** Frames of the actions *)

Ltac frame_methods :=
  unfold tabletEvent, mousePressEvent, mouseMoveEvent, mouseReleaseEvent,
    wheelEvent, keyPressEvent, clear_canvas, toggle_background, add_pin,
    remove_pin, smooth_path, process_raster_stroke, update_pen,
    QGraphicsView_mouseEvent;
  frame.

Section ActionFrames.
Context `{QtModel}.

(** Only the pin commands and opening a canvas change the pin list. *)
Lemma perform_preserves_pins (a : Action) :
  match a with
  | AddPin _ _ | RemovePin _ | OpenCanvas _ => False
  | _ => True
  end ->
  preserves (fun w => pins (view w)) (perform a).
Proof.
  destruct a; intros Ha; try contradiction; unfold perform;
    try (apply preserves_bind; [|intros ?; apply preserves_ret]);
    try (apply (preserves_on_view pins); frame_methods).
  - apply (save_canvas_to_file_frame pins).
  - apply (save_raster_image_frame pins).
Qed.

(** Only stylus events change the stylus flag. *)
Lemma perform_preserves_use_tablet (a : Action) :
  match a with
  | Tablet _ => False
  | _ => True
  end ->
  preserves (fun w => use_tablet (view w)) (perform a).
Proof.
  destruct a; intros Ha; try contradiction; unfold perform;
    try (apply preserves_bind; [|intros ?; apply preserves_ret]);
    try (apply (preserves_on_view use_tablet); frame_methods).
  - apply (save_canvas_to_file_frame use_tablet).
  - apply (load_canvas_from_file_frame use_tablet); reflexivity.
  - apply (save_raster_image_frame use_tablet).
Qed.

(** Only stylus and mouse events change the gesture state. *)
Lemma perform_preserves_gesture (a : Action) :
  match a with
  | Tablet _ | MousePress _ | MouseMove _ | MouseRelease _ => False
  | _ => True
  end ->
  preserves (fun w => (drawing (view w), stroke_points (view w))) (perform a).
Proof.
  set (f := fun v => (drawing v, stroke_points v)).
  destruct a; intros Ha; try contradiction; unfold perform;
    try (apply preserves_bind; [|intros ?; apply preserves_ret]);
    try (apply (preserves_on_view f); frame_methods).
  - apply (save_canvas_to_file_frame f).
  - apply (load_canvas_from_file_frame f); reflexivity.
  - apply (save_raster_image_frame f).
Qed.

(** A stylus event sets the flag and nothing after it in the handler
    clears it. *)
Lemma tabletEvent_use_tablet (event : QTabletEvent) (s : DrawingView) :
  use_tablet (snd (tabletEvent event s)) = true.
Proof.
  unfold tabletEvent.
  match goal with
  | |- use_tablet (snd (bind _ ?k ?s)) = _ =>
      assert (Hk : preserves use_tablet (k tt))
  end.
  { cbv beta. unfold smooth_path, process_raster_stroke, update_pen. frame. }
  unfold bind at 1. cbn [modify]. rewrite Hk. reflexivity.
Qed.

(** Once set, the stylus flag stays set. *)
Lemma perform_keeps_use_tablet (a : Action) (w : World) :
  use_tablet (view w) = true -> use_tablet (view (snd (perform a w))) = true.
Proof.
  intros Hu. pose proof (perform_preserves_use_tablet a) as Hp.
  unfold preserves in Hp.
  destruct a; try (rewrite (Hp I w); exact Hu).
  clear Hp. unfold perform, bind, on_view, with_field.
  pose proof (tabletEvent_use_tablet event (view w)) as Ht.
  destruct (tabletEvent event (view w)) as [[b|e] v]; exact Ht.
Qed.

End ActionFrames.

(** ** Runs *)

Section RunFacts.
Context `{QtModel}.

Lemma run_app (xs ys : list Action) (w : World) :
  run (xs ++ ys) w = bind (run xs) (fun _ => run ys) w.
Proof. apply for_each_app. Qed.

Lemma run_cons_Return (a : Action) (rest : list Action) (w w' : World) :
  run (a :: rest) w = (Return tt, w') ->
  exists w1, perform a w = (Return tt, w1) /\ run rest w1 = (Return tt, w').
Proof.
  unfold run. simpl. unfold bind.
  destruct (perform a w) as [[[]|e] w1]; [eauto | discriminate].
Qed.

Lemma run_app_Return (xs ys : list Action) (w w' : World) :
  run (xs ++ ys) w = (Return tt, w') ->
  exists w1, run xs w = (Return tt, w1) /\ run ys w1 = (Return tt, w').
Proof.
  rewrite run_app. unfold bind.
  destruct (run xs w) as [[[]|e] w1]; [eauto | discriminate].
Qed.

(** A property that every action keeps holds after every run. *)
Lemma run_keeps (P : World -> Prop) :
  (forall a w, P w -> P (snd (perform a w))) ->
  forall actions w, P w -> P (snd (run actions w)).
Proof.
  intros Hstep actions. induction actions as [|a rest IH]; intros w HP.
  - exact HP.
  - unfold run. simpl. unfold bind. specialize (Hstep a w HP).
    destruct (perform a w) as [[[]|e] w1]; cbn in *.
    + apply IH, Hstep.
    + exact Hstep.
Qed.

End RunFacts.

(** ** The stylus latch (C5) *)

Section Latch.
Context `{QtModel}.

Lemma mouse_ignored (s : DrawingView) (event : QMouseEvent) :
  use_tablet s = true ->
  mousePressEvent event s = (Return false, s) /\
  mouseMoveEvent event s = (Return false, s) /\
  mouseReleaseEvent event s = (Return false, s).
Proof.
  intros Hu. unfold mousePressEvent, mouseMoveEvent, mouseReleaseEvent.
  cbv [bind gets]. rewrite Hu. cbn. auto.
Qed.

End Latch.

(** C5.  In a run in which a stylus event has occurred, every later mouse
    press, move and release is passed to the base class and leaves the
    whole state as it is: it neither starts, extends nor commits a stroke.
    The stylus flag is set by the stylus event and never cleared. *)
Theorem mouse_ignored_after_stylus `{QtModel}
    (w0 w : World) (before between : list Action) (stylus : QTabletEvent) :
  run (before ++ Tablet stylus :: between) w0 = (Return tt, w) ->
  use_tablet (view w) = true /\
  (forall event : QMouseEvent,
      mousePressEvent event (view w) = (Return false, view w) /\
      mouseMoveEvent event (view w) = (Return false, view w) /\
      mouseReleaseEvent event (view w) = (Return false, view w)) /\
  (forall a : Action, is_mouse_action a = true -> perform a w = (Return tt, w)).
Proof.
  intros Hrun.
  assert (Hu : use_tablet (view w) = true).
  { apply run_app_Return in Hrun as (w1 & _ & Hrun).
    apply run_cons_Return in Hrun as (w2 & Hst & Hrun).
    assert (Hu2 : use_tablet (view w2) = true).
    { replace w2 with (snd (perform (Tablet stylus) w1)) by now rewrite Hst.
      unfold perform, bind, on_view, with_field.
      pose proof (tabletEvent_use_tablet stylus (view w1)) as Ht.
      destruct (tabletEvent stylus (view w1)) as [[b|e] v]; exact Ht. }
    replace w with (snd (run between w2)) by now rewrite Hrun.
    apply (run_keeps (fun w => use_tablet (view w) = true)); [|exact Hu2].
    intros a w'. apply perform_keeps_use_tablet. }
  split; [exact Hu|]. split.
  - intros event. now apply mouse_ignored.
  - intros a Ha. destruct w as [v d]. cbn in Hu.
    destruct a; try discriminate; unfold perform, bind, on_view, with_field;
      cbn [view]; pose proof (mouse_ignored v event Hu) as (E1 & E2 & E3);
      rewrite ?E1, ?E2, ?E3; reflexivity.
Qed.

Lemma mouse_ignored_after_stylus_witness :
  let w0 := mkWorld DrawingView_new ∅ in
  let actions :=
    [MousePress (mkMouse LeftButton (mkPoint 1 1));
     Tablet (mkTablet TabletPress (mkPoint 2 2) 0.5%float);
     MouseMove (mkMouse LeftButton (mkPoint 3 3));
     Tablet (mkTablet TabletMove (mkPoint 4 4) 0.75%float)] in
  let w := snd (run (H := sample_qt) actions w0) in
  use_tablet (view w) = true /\
  mousePressEvent (mkMouse LeftButton (mkPoint 5 5)) (view w)
  = (Return false, view w).
Proof.
  cbv zeta.
  destruct (mouse_ignored_after_stylus (H := sample_qt)
              (mkWorld DrawingView_new ∅)
              (snd (run (H := sample_qt)
                      [MousePress (mkMouse LeftButton (mkPoint 1 1));
                       Tablet (mkTablet TabletPress (mkPoint 2 2) 0.5%float);
                       MouseMove (mkMouse LeftButton (mkPoint 3 3));
                       Tablet (mkTablet TabletMove (mkPoint 4 4) 0.75%float)]
                      (mkWorld DrawingView_new ∅)))
              [MousePress (mkMouse LeftButton (mkPoint 1 1))]
              [MouseMove (mkMouse LeftButton (mkPoint 3 3));
               Tablet (mkTablet TabletMove (mkPoint 4 4) 0.75%float)]
              (mkTablet TabletPress (mkPoint 2 2) 0.5%float))
    as (Hu & Hm & _).
  - vm_compute. reflexivity.
  - split; [exact Hu|]. apply Hm.
Defined.

Set Default Proof Using "All".

(** ** Moves extend the stroke *)

(** A move while drawing also records its point for the raster stroke. *)
Lemma tablet_move_points `{QtModel} (s : DrawingView) (q : QPointF) (pressure : float) :
  drawing s = true ->
  exists s',
    tabletEvent (mkTablet TabletMove q pressure) s = (Return true, s') /\
    last_points s' = deque_append 3 (last_points s) q /\
    vector_path s' = vector_path s ++ emitted (deque_append 3 (last_points s) q) /\
    drawing s' = true /\ stroke_points s' = stroke_points s ++ [q].
Proof.
  intros Hd. unfold tabletEvent.
  cbv [bind ret modify gets update_pen]. cbn [te_type te_posF te_pressure].
  replace (drawing (set_use_tablet true s)) with true by (now rewrite <- Hd).
  match goal with |- context [smooth_path q ?s0] =>
    destruct (smooth_path_spec s0 q) as (s1 & -> & Hl & Hv & Hdr & _ & Hsp) end.
  eexists. split; [reflexivity|]. cbn. rewrite Hl, Hv, Hdr, Hsp. cbn. auto.
Qed.

Lemma mouse_move_points `{QtModel} (s : DrawingView) (event : QMouseEvent) :
  use_tablet s = false -> drawing s = true ->
  exists s',
    mouseMoveEvent event s = (Return true, s') /\
    last_points s' = deque_append 3 (last_points s) (me_scene_pos event) /\
    vector_path s' =
      vector_path s ++ emitted (deque_append 3 (last_points s) (me_scene_pos event)) /\
    use_tablet s' = false /\ drawing s' = true /\
    stroke_points s' = stroke_points s ++ [me_scene_pos event].
Proof.
  intros Hu Hd. unfold mouseMoveEvent.
  cbv [bind ret modify gets update_pen]. rewrite Hu, Hd. cbn [negb andb].
  match goal with |- context [smooth_path ?q ?s0] =>
    destruct (smooth_path_spec s0 q) as (s1 & -> & Hl & Hv & Hdr & Hut & Hsp) end.
  eexists. split; [reflexivity|]. cbn. rewrite Hl, Hv, Hdr, Hut, Hsp. cbn. auto.
Qed.

(** ** Saving is read-only *)

(** X1.  [save_canvas_to_file] leaves the object as it is, whether it
    returns [True], returns [False] or raises: in particular the vector
    path, the raster, its bounding box, the pins and the background flag
    are those of before the call. *)
Theorem save_canvas_never_mutates `{QtModel} (w : World) (file_path : string) :
  let after := snd (save_canvas_to_file file_path w) in
  view after = view w /\ document (view after) = document (view w).
Proof.
  cbv zeta.
  pose proof (save_canvas_to_file_frame (fun v => v) file_path w) as E.
  cbv beta in E. rewrite E. split; reflexivity.
Qed.

(** ** The pin registry *)

Lemma default_pin_name : pin_name default_pin = str "Default Pin".
Proof. reflexivity. Qed.

Section Pins.
Context `{QtModel}.

Lemma init_has_default_pin (config : option Settings) :
  match config with
  | Some c => cfg_pins c = None
  | None => True
  end ->
  default_pin ∈ pins (DrawingView_init config).
Proof.
  destruct config as [[ps vw st]|]; cbn [cfg_pins].
  - intros ->. unfold DrawingView_init, load_settings. cbn [cfg_pins cfg_settings].
    destruct st as [[bg aa]|]; cbn; apply list_elem_of_here.
  - intros _. apply list_elem_of_here.
Qed.

Lemma add_pin_keeps_default (name : pystr) (pos : QPointF) (s : DrawingView) :
  default_pin ∈ pins s -> default_pin ∈ pins (snd (add_pin name pos s)).
Proof. intros Hin. cbn. apply elem_of_app. now left. Qed.

Lemma remove_pin_keeps_default (name : pystr) (s : DrawingView) :
  name <> str "Default Pin" ->
  default_pin ∈ pins s -> default_pin ∈ pins (snd (remove_pin name s)).
Proof.
  intros Hne Hin. cbn. apply list_elem_of_filter. split; [|exact Hin].
  rewrite default_pin_name. congruence.
Qed.

End Pins.

(** X2.  A view constructed without a [Pins] section
    in its settings holds the default pin at (0,0), and keeps it through
    every run that neither opens a canvas file nor removes the pin named
    "Default Pin": [add_pin] and [remove_pin] of any other name keep it. *)
Theorem default_pin_kept_unless_removed_or_replaced `{QtModel}
    (config : option Settings) (d : gmap string File)
    (actions : list Action) (w : World) :
  match config with
  | Some c => cfg_pins c = None
  | None => True
  end ->
  Forall spares_default_pin actions ->
  run actions (mkWorld (DrawingView_init config) d) = (Return tt, w) ->
  default_pin ∈ pins (view w).
Proof.
  intros Hcfg Hall.
  assert (Hinit : default_pin ∈ pins (view (mkWorld (DrawingView_init config) d)))
    by now apply init_has_default_pin.
  revert Hinit. generalize (mkWorld (DrawingView_init config) d). clear Hcfg.
  induction Hall as [|a rest Ha Hrest IH]; intros w0 Hin Hrun.
  - injection Hrun as <-. exact Hin.
  - apply run_cons_Return in Hrun as (w1 & Hstep & Hrun).
    apply (IH w1); [|exact Hrun].
    replace w1 with (snd (perform a w0)) by now rewrite Hstep.
    clear Hstep Hrun IH.
    pose proof (perform_preserves_pins a) as Hp. unfold preserves in Hp.
    destruct a as [e|e|e|e|e|k| | |nm ps|nm|p|p|p]; try contradiction;
      try (rewrite (Hp I w0); exact Hin).
    + apply (add_pin_keeps_default nm ps (view w0) Hin).
    + apply (remove_pin_keeps_default nm (view w0) Ha Hin).
Qed.

Lemma default_pin_kept_unless_removed_or_replaced_witness :
  let actions :=
    [AddPin (str "Home") (mkPoint 3 4); RemovePin (str "Home");
     Tablet (mkTablet TabletPress (mkPoint 1 1) 0.5%float); ClearCanvas] in
  default_pin ∈
    pins (view (snd (run (H := sample_qt) actions (mkWorld (DrawingView_init None) ∅)))).
Proof.
  cbv zeta.
  apply (default_pin_kept_unless_removed_or_replaced (H := sample_qt) None ∅
           [AddPin (str "Home") (mkPoint 3 4); RemovePin (str "Home");
            Tablet (mkTablet TabletPress (mkPoint 1 1) 0.5%float); ClearCanvas]).
  - exact I.
  - repeat constructor. cbn. discriminate.
  - vm_compute. reflexivity.
Defined.

(** ** The compositor in a run *)

Section Compositor.
Context `{QtModel}.

(** The loop of the compositor, from index [i] on. *)
Lemma compositor_loop (points : list QPointF) (s : DrawingView) :
  forall (k i : nat) (acc : QPainterPath) (prev : QPointF),
    points !! i = Some prev ->
    (S i + k = length points)%nat ->
    fold_each (seq (S i) k) acc
      (fun path j =>
         p0 ← index points (j - 1);
         p1 ← index points j;
         ret (path ++ [QuadTo (mkPoint ((pt_x p0 + pt_x p1) / 2)
                                       ((pt_y p0 + pt_y p1) / 2)) p1])) s
    = (Return (acc ++ midpoint_segments prev (drop (S i) points)), s).
Proof.
  induction k as [|k IH]; intros i acc prev Hprev Hlen.
  - rewrite drop_ge by lia. cbn. now rewrite app_nil_r.
  - destruct (points !! S i) as [p|] eqn:Hp.
    2:{ apply lookup_ge_None in Hp. lia. }
    cbn [seq fold_each]. unfold bind at 1. unfold bind at 1.
    replace (S i - 1)%nat with i by lia.
    unfold index at 1. rewrite Hprev. cbn [ret].
    unfold bind at 1. unfold index at 1. rewrite Hp. cbn [ret].
    rewrite (IH (S i) _ p Hp) by lia.
    rewrite (drop_S _ _ _ Hp). cbn [midpoint_segments].
    rewrite <- app_assoc. reflexivity.
Qed.

(** With at least one point the compositor returns, having painted the
    midpoint path with the current pen. *)
Lemma process_raster_stroke_total (s : DrawingView) (p0 : QPointF) (rest : list QPointF) :
  stroke_points s = p0 :: rest ->
  exists s',
    process_raster_stroke s = (Return tt, s') /\
    raster_pixmap s' =
      Painted (raster_pixmap s) (MoveTo p0 :: midpoint_segments p0 rest)
              (mkPen (pen_color s) (current_pen_width s)) true /\
    drawing s' = drawing s /\ stroke_points s' = stroke_points s.
Proof.
  intros Hpts. unfold process_raster_stroke.
  unfold bind at 1. cbn [gets]. rewrite Hpts.
  unfold bind at 1. cbn [index lookup list_lookup ret].
  unfold bind at 1. unfold range.
  replace (length (p0 :: rest) - 1)%nat with (length rest) by (simpl; lia).
  match goal with
  | |- context [let (r, s') := ?m in _] =>
      replace m
        with (Return ([MoveTo p0] ++ midpoint_segments p0 (drop 1 (p0 :: rest))), s)
  end.
  2:{ symmetry.
      apply (compositor_loop (p0 :: rest) s (length rest) 0 [MoveTo p0] p0 eq_refl).
      simpl. lia. }
  cbn [drop app]. run_method.
  eexists. split; [reflexivity|].
  destruct (QRectF_isNull (raster_bounding_rect s)); cbn; rewrite Hpts; auto.
Qed.

End Compositor.

Section GestureInvariant.
Context `{QtModel}.

Lemma snoc_not_nil {A} (l : list A) (x : A) : l ++ [x] <> [].
Proof. destruct l; discriminate. Qed.

(** A stylus event returns, and keeps a drawn stroke non-empty. *)
Lemma tabletEvent_gesture (event : QTabletEvent) (v : DrawingView) :
  gesture_has_points v ->
  exists b v', tabletEvent event v = (Return b, v') /\ gesture_has_points v'.
Proof.
  intros Hinv. destruct event as [ty p pr]. destruct ty.
  - destruct (tablet_press_spec v p pr) as (v' & E & _ & _ & Hsp & _).
    exists true, v'. split; [exact E|]. intros _. rewrite Hsp. discriminate.
  - destruct (drawing v) eqn:Hd.
    + destruct (tablet_move_points v p pr Hd) as (v' & E & _ & _ & _ & Hsp).
      exists true, v'. split; [exact E|]. intros _. rewrite Hsp. apply snoc_not_nil.
    + exists false, (set_use_tablet true v). split.
      * unfold tabletEvent. cbv [bind modify gets ret]. cbn. now rewrite Hd.
      * intros Hd'. cbn in Hd'. congruence.
  - destruct (drawing v) eqn:Hd.
    + destruct (stroke_points v) as [|p0 rest] eqn:Hsp; [now elim (Hinv Hd)|].
      destruct (process_raster_stroke_total (set_use_tablet true v) p0 rest Hsp)
        as (v1 & E & _ & _ & _).
      exists true, (set_drawing false v1). split.
      * unfold tabletEvent. cbv [bind modify gets ret]. cbn [te_type].
        replace (drawing (set_use_tablet true v)) with true by (now rewrite <- Hd).
        now rewrite E.
      * intros Hd'. discriminate.
    + exists true, (set_drawing false (set_use_tablet true v)). split.
      * unfold tabletEvent. cbv [bind modify gets ret]. cbn. now rewrite Hd.
      * intros Hd'. discriminate.
  - exists false, (set_use_tablet true v). split.
    + unfold tabletEvent. cbv [bind modify gets ret]. cbn.
      destruct (drawing v); reflexivity.
    + intros Hd'. apply Hinv. exact Hd'.
Qed.

Lemma mousePressEvent_gesture (event : QMouseEvent) (v : DrawingView) :
  gesture_has_points v ->
  exists b v', mousePressEvent event v = (Return b, v') /\ gesture_has_points v'.
Proof.
  intros Hinv. destruct (use_tablet v) eqn:Hu.
  - destruct (mouse_ignored v event Hu) as (E & _ & _). eauto.
  - destruct event as [[] p].
    + destruct (mouse_press_spec v p Hu) as (v' & E & _ & _ & Hsp & _).
      exists true, v'. split; [exact E|]. intros _. rewrite Hsp. discriminate.
    + exists false, v. split; [|exact Hinv].
      unfold mousePressEvent. cbv [bind gets]. rewrite Hu. reflexivity.
Qed.

Lemma mouseMoveEvent_gesture (event : QMouseEvent) (v : DrawingView) :
  gesture_has_points v ->
  exists b v', mouseMoveEvent event v = (Return b, v') /\ gesture_has_points v'.
Proof.
  intros Hinv. destruct (use_tablet v) eqn:Hu.
  - destruct (mouse_ignored v event Hu) as (_ & E & _). eauto.
  - destruct (drawing v) eqn:Hd.
    + destruct (mouse_move_points v event Hu Hd) as (v' & E & _ & _ & _ & _ & Hsp).
      exists true, v'. split; [exact E|]. intros _. rewrite Hsp. apply snoc_not_nil.
    + exists false, v. split; [|exact Hinv].
      unfold mouseMoveEvent. cbv [bind gets]. rewrite Hu, Hd. reflexivity.
Qed.

Lemma mouseReleaseEvent_gesture (event : QMouseEvent) (v : DrawingView) :
  gesture_has_points v ->
  exists b v', mouseReleaseEvent event v = (Return b, v') /\ gesture_has_points v'.
Proof.
  intros Hinv. destruct (use_tablet v) eqn:Hu.
  - destruct (mouse_ignored v event Hu) as (_ & _ & E). eauto.
  - destruct (drawing v) eqn:Hd.
    + destruct event as [[] p].
      * destruct (stroke_points v) as [|p0 rest] eqn:Hsp; [now elim (Hinv Hd)|].
        destruct (process_raster_stroke_total v p0 rest Hsp) as (v1 & E & _ & _ & _).
        exists true, (set_drawing false v1). split.
        -- unfold mouseReleaseEvent. cbv [bind modify gets ret].
           rewrite Hu, Hd. cbn [negb andb is_left me_button]. now rewrite E.
        -- intros Hd'. discriminate.
      * exists false, v. split; [|exact Hinv].
        unfold mouseReleaseEvent. cbv [bind gets]. rewrite Hu, Hd. reflexivity.
    + exists false, v. split; [|exact Hinv].
      unfold mouseReleaseEvent. cbv [bind gets]. rewrite Hu, Hd.
      destruct (is_left (me_button event)); reflexivity.
Qed.

(** What holds at construction and after every returning action holds in
    every reachable state. *)
Lemma reachable_ind (P : World -> Prop) :
  (forall config d, P (mkWorld (DrawingView_init config) d)) ->
  (forall a w w', P w -> perform a w = (Return tt, w') -> P w') ->
  forall w, reachable w -> P w.
Proof.
  intros Hinit Hstep w (config & d & actions & Hrun).
  specialize (Hinit config d). revert Hinit Hrun.
  generalize (mkWorld (DrawingView_init config) d).
  induction actions as [|a rest IH]; intros w0 HP Hrun.
  - injection Hrun as <-. exact HP.
  - apply run_cons_Return in Hrun as (w1 & Hs & Hrun).
    apply (IH w1); [eapply Hstep; eassumption | exact Hrun].
Qed.

Lemma init_gesture (config : option Settings) :
  gesture_has_points (DrawingView_init config).
Proof.
  assert (E : drawing (DrawingView_init config) = false).
  { unfold DrawingView_init.
    assert (Hp : preserves drawing (load_settings config))
      by (unfold load_settings; frame).
    now rewrite Hp. }
  intros Hd. congruence.
Qed.

Lemma perform_gesture (a : Action) (w w' : World) :
  gesture_has_points (view w) -> perform a w = (Return tt, w') ->
  gesture_has_points (view w').
Proof.
  intros Hinv Hperf.
  pose proof (perform_preserves_gesture a) as Hp. unfold preserves in Hp.
  assert (Hview : forall (m : M DrawingView bool),
             (exists b v', m (view w) = (Return b, v') /\ gesture_has_points v') ->
             (bind (on_view m) (fun _ => ret tt)) w = (Return tt, w') ->
             gesture_has_points (view w')).
  { intros m (b & v' & E & Hv') Hrun. unfold bind, on_view, with_field in Hrun.
    rewrite E in Hrun. cbn in Hrun. injection Hrun as <-. exact Hv'. }
  destruct a as [e|e|e|e|e|k| | |nm ps|nm|p|p|p];
    try (specialize (Hp I w); rewrite Hperf in Hp; cbn in Hp;
         injection Hp as Hd Hs; unfold gesture_has_points; now rewrite Hd, Hs).
  - apply (Hview (tabletEvent e)); [now apply tabletEvent_gesture | exact Hperf].
  - apply (Hview (mousePressEvent e)); [now apply mousePressEvent_gesture | exact Hperf].
  - apply (Hview (mouseMoveEvent e)); [now apply mouseMoveEvent_gesture | exact Hperf].
  - apply (Hview (mouseReleaseEvent e)); [now apply mouseReleaseEvent_gesture | exact Hperf].
Qed.

Lemma reachable_gesture (w : World) : reachable w -> gesture_has_points (view w).
Proof.
  apply (reachable_ind (fun w => gesture_has_points (view w))).
  - intros config d. apply init_gesture.
  - intros a w0 w'. apply perform_gesture.
Qed.

End GestureInvariant.

(** X3.  In every state the program can reach, a
    stroke that is being drawn has at least one point, and the compositor
    runs only for such a stroke: the end of a gesture, stylus or mouse,
    returns without raising.  For a stroke of one point the compositor
    paints a path that holds a move only. *)
Theorem compositor_never_raises_in_a_run `{QtModel} (w : World) :
  reachable w ->
  (drawing (view w) = true -> stroke_points (view w) <> []) /\
  (forall event, te_type event = TabletRelease ->
     exists v, tabletEvent event (view w) = (Return true, v)) /\
  (forall event, exists b v, mouseReleaseEvent event (view w) = (Return b, v)) /\
  (forall p, stroke_points (view w) = [p] ->
     exists v,
       process_raster_stroke (view w) = (Return tt, v) /\
       raster_pixmap v =
         Painted (raster_pixmap (view w)) [MoveTo p]
                 (mkPen (pen_color (view w)) (current_pen_width (view w))) true).
Proof.
  intros Hreach. pose proof (reachable_gesture w Hreach) as Hinv.
  repeat apply conj.
  - exact Hinv.
  - intros event Hty.
    destruct (tabletEvent_gesture event (view w) Hinv) as (b & v & E & _).
    exists v. rewrite E. f_equal. f_equal.
    revert E. unfold tabletEvent. cbv [bind modify gets ret]. rewrite Hty.
    destruct (drawing _); [|now intros [= <- _]].
    destruct (process_raster_stroke _) as [[[]|e] s1]; [now intros [= <- _] | discriminate].
  - intros event.
    destruct (mouseReleaseEvent_gesture event (view w) Hinv) as (b & v & E & _).
    eauto.
  - intros p Hp.
    destruct (process_raster_stroke_total (view w) p [] Hp) as (v & E & Hr & _).
    eauto.
Qed.

Lemma compositor_never_raises_in_a_run_witness :
  let w := snd (run (H := sample_qt)
                  [Tablet (mkTablet TabletPress (mkPoint 2 2) 0.5%float)]
                  (mkWorld (DrawingView_init None) ∅)) in
  stroke_points (view w) = [mkPoint 2 2] /\
  exists v, tabletEvent (H := sample_qt)
              (mkTablet TabletRelease (mkPoint 2 2) 0%float) (view w)
            = (Return true, v).
Proof.
  cbv zeta. split; [reflexivity|].
  refine (proj1 (proj2 (compositor_never_raises_in_a_run (H := sample_qt) _ _))
            (mkTablet TabletRelease (mkPoint 2 2) 0%float) eq_refl).
  exists None, ∅, [Tablet (mkTablet TabletPress (mkPoint 2 2) 0.5%float)].
  vm_compute. reflexivity.
Defined.

(** ** Binarisation *)

(** The float test [brightness < 128] decides [sum < 384] for every sum of
    three channels, by running it on all of them. *)
Lemma brightness_table :
  forallb (fun n => Bool.eqb (float_of_Z (Z.of_nat n) / 3 <? 128)%float
                             (Z.of_nat n <? 384))
          (seq 0 766) = true.
Proof. vm_compute. reflexivity. Qed.

Lemma brightness_threshold (sum : Z) :
  0 <= sum <= 765 ->
  (float_of_Z sum / 3 <? 128)%float = (sum <? 384).
Proof.
  intros Hr. pose proof brightness_table as Ht.
  rewrite forallb_forall in Ht. specialize (Ht (Z.to_nat sum)).
  rewrite Z2Nat.id in Ht by lia.
  apply Bool.eqb_prop, Ht, in_seq. lia.
Qed.

Lemma binarize_pixel_px (image : QImage) (x y : nat) :
  binarize_pixel image x y
  = mkImage (img_w image) (img_h image)
            (binarize_at (img_px image) (pixel_index image x y)).
Proof.
  unfold binarize_pixel, binarize_at, binarized, QImage_setPixelColor, QImage_pixelColor.
  destruct (_ <? _)%float; reflexivity.
Qed.

(** One row of the loop: the pixels of the row, left to right. *)
Lemma binarize_row (y : nat) :
  forall (k a : nat) (image : QImage),
    fold_left (fun image x => binarize_pixel image x y) (seq a k) image
    = mkImage (img_w image) (img_h image)
        (fold_left binarize_at (seq (y * Z.to_nat (img_w image) + a) k) (img_px image)).
Proof.
  induction k as [|k IH]; intros a image.
  - now destruct image.
  - cbn [seq fold_left]. rewrite IH, binarize_pixel_px. cbn [img_w img_h img_px].
    unfold pixel_index. now rewrite Nat.add_succ_r.
Qed.

(** The rows from [b] on: the pixels in row-major order. *)
Lemma binarize_rows (w : nat) :
  forall (k b : nat) (image : QImage),
    Z.to_nat (img_w image) = w ->
    fold_left
      (fun image y =>
         fold_left (fun image x => binarize_pixel image x y)
                   (range 0 (Z.to_nat (img_w image))) image)
      (seq b k) image
    = mkImage (img_w image) (img_h image)
        (fold_left binarize_at (seq (b * w) (k * w)) (img_px image)).
Proof.
  induction k as [|k IH]; intros b image Hw.
  - now destruct image.
  - cbn [seq fold_left]. unfold range in *. rewrite Nat.sub_0_r, binarize_row.
    rewrite IH by exact Hw. cbn [img_w img_h img_px]. rewrite Hw, Nat.add_0_r.
    f_equal. replace (S k * w)%nat with (w + k * w)%nat by lia.
    rewrite seq_app, fold_left_app. do 2 f_equal. lia.
Qed.

(** The loop touches each index of the range once, in place. *)
Lemma binarize_at_fold_lookup :
  forall (k a : nat) (px : list QColor) (i : nat),
    fold_left binarize_at (seq a k) px !! i
    = if decide (a <= i < a + k)%nat
      then binarized <$> px !! i
      else px !! i.
Proof.
  induction k as [|k IH]; intros a px i.
  - cbn. case_decide; [lia | reflexivity].
  - cbn [seq fold_left]. rewrite IH. unfold binarize_at at 1 2.
    destruct (decide (i = a)) as [->|Hne].
    + rewrite decide_False by lia. rewrite decide_True by lia.
      destruct (px !! a) as [c|] eqn:Hc.
      * rewrite list_lookup_insert_eq by (apply lookup_lt_Some in Hc; lia).
        reflexivity.
      * rewrite list_insert_ge by (apply lookup_ge_None in Hc; lia).
        now rewrite Hc.
    + rewrite list_lookup_insert_ne by lia.
      repeat case_decide; try lia; reflexivity.
Qed.

Lemma binarize_px (image : QImage) :
  binarize image
  = mkImage (img_w image) (img_h image)
      (fold_left binarize_at
         (seq 0 (Z.to_nat (img_h image) * Z.to_nat (img_w image))) (img_px image)).
Proof.
  unfold binarize, range. rewrite Nat.sub_0_r.
  now rewrite (binarize_rows (Z.to_nat (img_w image))).
Qed.

(** X4.  After the binarisation loop of [save_raster_image] every pixel of
    the buffer is pure white when the average of its red, green and blue
    channels is 128 or more (their sum is at least [3 * 128]) and pure black
    when it is below 128; an average of exactly 128 gives white, 127 gives
    black.  The size of the image is unchanged. *)
Theorem binarize_threshold_128 (image : QImage) (x y : nat) :
  let color := QImage_pixelColor image x y in
  let sum := red color + green color + blue color in
  length (img_px image) = (Z.to_nat (img_h image) * Z.to_nat (img_w image))%nat ->
  (x < Z.to_nat (img_w image))%nat ->
  (y < Z.to_nat (img_h image))%nat ->
  0 <= red color <= 255 -> 0 <= green color <= 255 -> 0 <= blue color <= 255 ->
  (3 * 128 <= sum -> QImage_pixelColor (binarize image) x y = Qt_white) /\
  (sum < 3 * 128 -> QImage_pixelColor (binarize image) x y = Qt_black) /\
  (sum = 3 * 128 -> QImage_pixelColor (binarize image) x y = Qt_white) /\
  (sum = 3 * 127 -> QImage_pixelColor (binarize image) x y = Qt_black) /\
  img_w (binarize image) = img_w image /\
  img_h (binarize image) = img_h image.
Proof.
  intros color sum Hlen Hx Hy Hr Hg Hb.
  assert (Hi : (pixel_index image x y < length (img_px image))%nat).
  { unfold pixel_index. rewrite Hlen. nia. }
  assert (Hpix : QImage_pixelColor (binarize image) x y = binarized color).
  { rewrite binarize_px. unfold QImage_pixelColor at 1. cbn [img_px].
    replace (pixel_index _ x y) with (pixel_index image x y) by reflexivity.
    rewrite binarize_at_fold_lookup, decide_True by lia.
    subst color. unfold QImage_pixelColor.
    destruct (lookup_lt_is_Some_2 _ _ Hi) as [c ->]. reflexivity. }
  assert (Hbin : binarized color = if sum <? 384 then Qt_black else Qt_white).
  { unfold binarized. fold sum. rewrite brightness_threshold by (subst sum; lia).
    reflexivity. }
  rewrite Hpix, Hbin, binarize_px. cbn [img_w img_h].
  repeat apply conj; try reflexivity; intros Hs.
  - destruct (Z.ltb_spec sum 384); [lia | reflexivity].
  - destruct (Z.ltb_spec sum 384); [reflexivity | lia].
  - rewrite Hs. reflexivity.
  - rewrite Hs. reflexivity.
Qed.

Lemma binarize_threshold_128_witness :
  let image :=
    mkImage 2 1 [mkColor 128 128 128 255; mkColor 127 127 127 255] in
  QImage_pixelColor (binarize image) 0 0 = Qt_white /\
  QImage_pixelColor (binarize image) 1 0 = Qt_black.
Proof.
  cbv zeta. split.
  - refine (proj1 (proj2 (proj2 (binarize_threshold_128
      (mkImage 2 1 [mkColor 128 128 128 255; mkColor 127 127 127 255]) 0 0
      eq_refl _ _ _ _ _))) eq_refl); cbn; lia.
  - refine (proj1 (proj2 (proj2 (proj2 (binarize_threshold_128
      (mkImage 2 1 [mkColor 128 128 128 255; mkColor 127 127 127 255]) 1 0
      eq_refl _ _ _ _ _)))) eq_refl); cbn; lia.
Defined.

(** ** The loading loop *)

(** The loop never reads out of range, and the calls it makes on the path
    are those read off the rest of the list. *)
Lemma rebuild_path_spec (elements : list RawElement) (i : nat) (path : QPainterPath) :
  rebuild_path elements i path
  = (Return tt, path ++ calls_of_elements (drop i elements)).
Proof.
  funelim (rebuild_path elements i path).
  - rewrite drop_ge by lia. cbn. now rewrite app_nil_r.
  - clear Heqcall. rename H into IHmove, H0 into IHline, H1 into IHcurve, H2 into IHskip.
    unfold RawElement in *.
    match goal with
    | E : ?l !! i = Some _ |- _ => rename E into Hi; rename l into stored
    end.
    rewrite (drop_S _ _ _ Hi). cbn [calls_of_elements].
    replace (i + 1)%nat with (S i) in * by lia.
    destruct (elem_type =? 0).
    { rewrite IHmove, <- app_assoc. reflexivity. }
    destruct (elem_type =? 1).
    { rewrite IHline, <- app_assoc. reflexivity. }
    destruct (elem_type =? 2); [|apply IHskip].
    destruct (decide (i + 2 < length stored)%nat) as [Hlt|Hge].
    + match goal with
      | |- context [match ?l with Some _ => _ | None => _ end] =>
          destruct l as [[[t2 x2] y2]|] eqn:H2
      end.
      2:{ apply lookup_ge_None in H2. lia. }
      match goal with
      | |- context [match ?l with Some _ => _ | None => _ end] =>
          destruct l as [[[t3 x3] y3]|] eqn:H3
      end.
      2:{ apply lookup_ge_None in H3. lia. }
      rewrite (drop_S _ _ _ H2).
      replace (S (S i)) with (i + 2)%nat by lia. rewrite (drop_S _ _ _ H3).
      replace (S (i + 2)) with (i + 3)%nat by lia.
      rewrite (IHcurve Hlt (t2, x2, y2) (t2, x2) y2 t2 x2 (t3, x3, y3) (t3, x3) y3 t3 x3).
      rewrite <- app_assoc. reflexivity.
    + assert (Hshort : (length (drop (S i) stored) < 2)%nat)
        by (rewrite length_drop; lia).
      destruct (drop (S i) stored) as [|e2 [|e3 rest]]; cbn in Hshort; try lia.
      * now rewrite app_nil_r.
      * destruct e2 as [[? ?] ?]. now rewrite app_nil_r.
  - match goal with E : _ !! i = None |- _ => apply lookup_ge_None in E end.
    lia.
Qed.

Lemma calls_of_whole_records_app (pre rest : list RawElement) :
  whole_records pre ->
  calls_of_elements (pre ++ rest) = calls_of_elements pre ++ calls_of_elements rest.
Proof.
  induction 1 as [|x y e2 e3 pre' Hw IH|t x y pre' Hne Hw IH].
  - reflexivity.
  - destruct e2 as [[t2 x2] y2], e3 as [[t3 x3] y3].
    cbn. now rewrite IH.
  - cbn [app calls_of_elements]. rewrite IH.
    destruct (t =? 0); [reflexivity|]. destruct (t =? 1); [reflexivity|].
    destruct (Z.eqb_spec t 2); [contradiction | reflexivity].
Qed.

(** X5.  The loading loop returns for every list of stored elements and
    every start index, without reading an element that is not there.  On a
    curve element with fewer than three elements left it stops and leaves
    the path as built so far; a list that is cut inside a curve record
    loads as the list of the whole records before the cut. *)
Theorem truncated_curve_stops_the_load
    (pre tail : list RawElement) (x y : float) (path : QPainterPath) :
  let elements := pre ++ (2, x, y) :: tail in
  (length tail < 2)%nat ->
  whole_records pre ->
  (forall els i p, fst (rebuild_path els i p) = Return tt) /\
  rebuild_path elements (length pre) path = (Return tt, path) /\
  rebuild_path elements 0 [] = rebuild_path pre 0 [] /\
  rebuild_path elements 0 [] = (Return tt, calls_of_elements pre).
Proof.
  intros elements Hshort Hwhole. subst elements.
  assert (Hcut : calls_of_elements ((2, x, y) :: tail) = []).
  { destruct tail as [|e2 [|e3 rest]]; cbn in Hshort; try lia; [reflexivity|].
    destruct e2 as [[? ?] ?]. reflexivity. }
  repeat apply conj.
  - intros els i p. now rewrite rebuild_path_spec.
  - rewrite rebuild_path_spec, drop_app_length, Hcut. now rewrite app_nil_r.
  - rewrite !rebuild_path_spec, !drop_0, !app_nil_l.
    now rewrite calls_of_whole_records_app, Hcut, app_nil_r.
  - rewrite rebuild_path_spec, drop_0, app_nil_l.
    now rewrite calls_of_whole_records_app, Hcut, app_nil_r.
Qed.

Lemma truncated_curve_stops_the_load_witness :
  rebuild_path
    [(0, 1%float, 2%float); (1, 3%float, 4%float); (2, 5%float, 6%float);
     (3, 7%float, 8%float)] 0 []
  = (Return tt, [MoveTo (mkPoint 1 2); LineTo (mkPoint 3 4)]).
Proof.
  refine (proj2 (proj2 (proj2 (truncated_curve_stops_the_load
            [(0, 1%float, 2%float); (1, 3%float, 4%float)]
            [(3, 7%float, 8%float)] 5 6 [] _ _)))).
  - simpl. lia.
  - repeat constructor; discriminate.
Defined.

(** ** Bytes and big-endian numbers *)

Lemma Z_of_byte_range (b : byte) : 0 <= Z_of_byte b < 256.
Proof. unfold Z_of_byte. pose proof (Byte.to_N_bounded b). lia. Qed.

Lemma Z_of_byte_of_Z (z : Z) : Z_of_byte (byte_of_Z z) = z mod 256.
Proof.
  unfold Z_of_byte, byte_of_Z.
  assert (Hr : 0 <= z mod 256 < 256) by (apply Z.mod_pos_bound; lia).
  destruct (Byte.of_N (Z.to_N (z mod 256))) as [b|] eqn:E.
  - apply Byte.to_of_N in E. cbn. rewrite E. lia.
  - apply Byte.of_N_None_iff in E. lia.
Qed.

Lemma Z_of_byte_of_small (z : Z) : 0 <= z < 256 -> Z_of_byte (byte_of_Z z) = z.
Proof. intros Hz. rewrite Z_of_byte_of_Z. now apply Z.mod_small. Qed.

Lemma byte_of_Z_of_byte (b : byte) : byte_of_Z (Z_of_byte b) = b.
Proof.
  unfold byte_of_Z. rewrite Z.mod_small by apply Z_of_byte_range.
  unfold Z_of_byte. now rewrite N2Z.id, Byte.of_to_N.
Qed.

Lemma length_be_bytes (n : nat) (v : Z) : length (be_bytes n v) = n.
Proof.
  revert v. induction n as [|n IH]; intros v; [reflexivity|].
  cbn [be_bytes]. rewrite length_app, IH. simpl. lia.
Qed.

Lemma be_value_snoc (bs : list byte) (b : byte) :
  be_value (bs ++ [b]) = be_value bs * 256 + Z_of_byte b.
Proof. unfold be_value. now rewrite fold_left_app. Qed.

Lemma be_value_be_bytes (n : nat) (v : Z) :
  be_value (be_bytes n v) = v mod 256 ^ Z.of_nat n.
Proof.
  revert v. induction n as [|n IH]; intros v.
  - cbn. now rewrite Z.mod_1_r.
  - cbn [be_bytes]. rewrite be_value_snoc, IH, Z_of_byte_of_Z.
    rewrite Nat2Z.inj_succ, Z.pow_succ_r by lia.
    rewrite Z.rem_mul_r by lia.
    lia.
Qed.

Lemma read_be_be_bytes (n : nat) (v : Z) (rest : stream) :
  0 <= v < 256 ^ Z.of_nat n ->
  read_be n (be_bytes n v ++ rest) = (v, rest).
Proof.
  intros Hv. unfold read_be.
  rewrite length_app, length_be_bytes.
  replace (n <=? n + length rest)%nat with true by (symmetry; apply Nat.leb_le; lia).
  rewrite take_app_length', drop_app_length' by (now rewrite length_be_bytes).
  rewrite be_value_be_bytes. now rewrite Z.mod_small.
Qed.

Lemma readUInt32_be_bytes (v : Z) (rest : stream) :
  0 <= v < 2 ^ 32 -> readUInt32 (be_bytes 4 v ++ rest) = (v, rest).
Proof. intros Hv. apply read_be_be_bytes. exact Hv. Qed.

Lemma readUInt8_be_bytes (v : Z) (rest : stream) :
  0 <= v < 256 -> readUInt8 (be_bytes 1 v ++ rest) = (v, rest).
Proof. intros Hv. apply read_be_be_bytes. exact Hv. Qed.

Lemma readBool_be_bytes (b : bool) (rest : stream) :
  readBool (be_bytes 1 (if b then 1 else 0) ++ rest) = (b, rest).
Proof.
  unfold readBool. rewrite readUInt8_be_bytes by (destruct b; lia).
  now destruct b.
Qed.

(** ** Doubles and their 64 bits *)

Lemma digits2_pos_size (m : positive) : digits2_pos m = Pos.size m.
Proof. induction m; simpl; congruence. Qed.

Lemma size_bounds (m : positive) :
  2 ^ (Z.pos (Pos.size m) - 1) <= Z.pos m < 2 ^ Z.pos (Pos.size m).
Proof.
  pose proof (Pos.size_gt m) as Hgt. pose proof (Pos.size_le m) as Hle.
  apply Pos2Z.pos_lt_pos in Hgt. apply Pos2Z.pos_le_pos in Hle.
  rewrite Pos2Z.inj_pow in Hgt, Hle.
  change (Z.pos m~0) with (2 * Z.pos m) in Hle.
  replace (Z.pos (Pos.size m)) with (Z.succ (Z.pos (Pos.size m) - 1)) in Hle by lia.
  rewrite Z.pow_succ_r in Hle by lia. lia.
Qed.

(** A valid binary64 number is normal, with a mantissa of 53 bits, or
    subnormal, with the least exponent. *)
Lemma valid_finite_cases (s : bool) (m : positive) (e : Z) :
  valid_binary (S754_finite s m e) = true ->
  (two52 <= Z.pos m < 2 * two52 /\ -1074 <= e <= 971) \/
  (Z.pos m < two52 /\ e = -1074).
Proof.
  cbn [SpecFloat.valid_binary]. unfold bounded, canonical_mantissa, fexp, SpecFloat.emin.
  rewrite digits2_pos_size. intros Hv.
  apply andb_true_iff in Hv as [Hc He].
  apply Z.eqb_eq in Hc. apply Z.leb_le in He.
  change prec with 53 in *. change emax with 1024 in *.
  pose proof (size_bounds m) as [Hlo Hhi].
  destruct (Z.max_spec (Z.pos (Pos.size m) + e - 53) (3 - 1024 - 53)) as [[Hlt Hm]|[Hge Hm]];
    rewrite Hm in Hc.
  - (* the least exponent *)
    assert (Hs : Z.pos (Pos.size m) <= 53) by lia.
    assert (Hm53 : Z.pos m < 2 * two52).
    { change (2 * two52) with (2 ^ 53).
      eapply Z.lt_le_trans; [exact Hhi|]. apply Z.pow_le_mono_r; lia. }
    destruct (Z.lt_ge_cases (Z.pos m) two52); [right | left]; lia.
  - (* the exponent given by the size of the mantissa: 53 bits *)
    left. assert (Hs : Z.pos (Pos.size m) = 53) by lia.
    rewrite Hs in Hlo, Hhi. change (2 ^ (53 - 1)) with two52 in Hlo.
    change (2 ^ 53) with (2 * two52) in Hhi. lia.
Qed.

Lemma bits_of_SF_range (f : spec_float) :
  valid_binary f = true -> 0 <= bits_of_SF f < two64.
Proof.
  destruct f as [s|s| |s m e]; intros Hv; cbn [bits_of_SF]; unfold sign_bits.
  - destruct s; unfold two63, two64; lia.
  - destruct s; unfold two63, two64, two52; lia.
  - unfold nan_bits, two64; lia.
  - apply valid_finite_cases in Hv.
    destruct (Z.leb_spec two52 (Z.pos m)); destruct s;
      unfold two63, two64, two52 in *; lia.
Qed.

(** Division and remainder by constants are linear arithmetic. *)
Ltac Zify.zify_post_hook ::= Z.div_mod_to_equations.

Lemma SF_of_bits_of_SF (f : spec_float) :
  valid_binary f = true -> SF_of_bits (bits_of_SF f) = f.
Proof.
  destruct f as [s|s| |s m e]; intros Hv.
  - destruct s; reflexivity.
  - destruct s; reflexivity.
  - reflexivity.
  - apply valid_finite_cases in Hv. cbn [bits_of_SF]. unfold SF_of_bits, sign_bits.
    destruct (Z.leb_spec two52 (Z.pos m)) as [Hn|Hsub].
    + (* stored with a biased exponent *)
      assert (He : -1074 <= e <= 971) by (unfold two52 in *; lia).
      set (b := (if s then two63 else 0) + ((e + 1075) * two52 + (Z.pos m - two52))).
      assert (Hs : (two63 <=? b) = s).
      { subst b. destruct s; [apply Z.leb_le | apply Z.leb_gt];
          unfold two63, two52 in *; lia. }
      assert (Hexp : (b / two52) mod 2048 = e + 1075).
      { subst b. destruct s; unfold two63, two52 in *; lia. }
      assert (Hfrac : b mod two52 = Z.pos m - two52).
      { subst b. destruct s; unfold two63, two52 in *; lia. }
      rewrite Hs, Hexp, Hfrac.
      destruct (Z.eqb_spec (e + 1075) 0); [lia|].
      destruct (Z.eqb_spec (e + 1075) 2047); [lia|].
      replace (Z.pos m - two52 + two52) with (Z.pos m) by lia.
      f_equal. lia.
    + (* subnormal *)
      assert (He : e = -1074) by (unfold two52 in *; lia). subst e.
      set (b := (if s then two63 else 0) + Z.pos m).
      assert (Hs : (two63 <=? b) = s).
      { subst b. destruct s; [apply Z.leb_le | apply Z.leb_gt];
          unfold two63, two52 in *; lia. }
      assert (Hexp : (b / two52) mod 2048 = 0).
      { subst b. destruct s; unfold two63, two52 in *; lia. }
      assert (Hfrac : b mod two52 = Z.pos m).
      { subst b. destruct s; unfold two63, two52 in *; lia. }
      rewrite Hs, Hexp, Hfrac. reflexivity.
Qed.

(** Writing a double and reading it back gives the same number. *)
Lemma float_of_bits_of_float (x : float) : float_of_bits (bits_of_float x) = x.
Proof.
  unfold float_of_bits, bits_of_float.
  rewrite SF_of_bits_of_SF by apply Prim2SF_valid.
  apply SF2Prim_Prim2SF.
Qed.

Lemma bits_of_float_range (x : float) : 0 <= bits_of_float x < 2 ^ 64.
Proof. apply bits_of_SF_range, Prim2SF_valid. Qed.

Lemma readDouble_be_bytes (x : float) (rest : stream) :
  readDouble (be_bytes 8 (bits_of_float x) ++ rest) = (x, rest).
Proof.
  unfold readDouble. rewrite length_app, length_be_bytes.
  replace (8 <=? 8 + length rest)%nat with true by reflexivity.
  rewrite take_app_length', drop_app_length' by (now rewrite length_be_bytes).
  rewrite be_value_be_bytes, Z.mod_small by apply bits_of_float_range.
  now rewrite float_of_bits_of_float.
Qed.

(** ** UTF-8 *)

Ltac decide_bounds :=
  repeat match goal with
  | |- context [?a <? ?b] => destruct (Z.ltb_spec a b); try lia
  | |- context [?a <=? ?b] => destruct (Z.leb_spec a b); try lia
  end.

(** Decoding the bytes of one encoded code point gives it back. *)
Lemma utf8_decode_encode_cp (c : Z) (bs rest : list byte) :
  utf8_encode_cp c = Some bs ->
  utf8_decode (bs ++ rest) = cons c <$> utf8_decode rest.
Proof.
  unfold utf8_encode_cp.
  destruct (Z.ltb_spec c 0); [discriminate|].
  destruct (Z.ltb_spec c 0x80).
  { intros [= <-]. cbn [app utf8_decode]. cbv zeta.
    rewrite Z_of_byte_of_small by lia. decide_bounds. reflexivity. }
  destruct (Z.ltb_spec c 0x800).
  { intros [= <-]. cbn [app utf8_decode]. cbv zeta.
    rewrite !Z_of_byte_of_small by lia. unfold is_cont. decide_bounds.
    cbn [andb]. do 2 f_equal. lia. }
  destruct (Z.ltb_spec c 0x10000).
  { destruct (Z.leb_spec 0xD800 c); destruct (Z.leb_spec c 0xDFFF);
      cbn [andb]; try discriminate;
      intros [= <-]; cbn [app utf8_decode]; cbv zeta;
      rewrite !Z_of_byte_of_small by lia; unfold is_cont;
      replace ((0xE0 + c / 4096 - 0xE0) * 4096 + (0x80 + (c / 64) mod 64 - 0x80) * 64
               + (0x80 + c mod 64 - 0x80)) with c by lia;
      decide_bounds; cbn [andb negb]; reflexivity. }
  destruct (Z.ltb_spec c 0x110000); [|discriminate].
  intros [= <-]. cbn [app utf8_decode]. cbv zeta.
  rewrite !Z_of_byte_of_small by lia. unfold is_cont.
  replace ((0xF0 + c / 262144 - 0xF0) * 262144 + (0x80 + (c / 4096) mod 64 - 0x80) * 4096
           + (0x80 + (c / 64) mod 64 - 0x80) * 64 + (0x80 + c mod 64 - 0x80))
    with c by lia.
  decide_bounds. cbn [andb]. reflexivity.
Qed.

(** [bytes.decode] undoes [str.encode]. *)
Lemma utf8_decode_encode (s : pystr) (bs : list byte) :
  utf8_encode s = Some bs -> utf8_decode bs = Some s.
Proof.
  revert bs. induction s as [|c s IH]; intros bs.
  - intros [= <-]. reflexivity.
  - cbn [utf8_encode].
    destruct (utf8_encode_cp c) as [b1|] eqn:E1; [|discriminate].
    destruct (utf8_encode s) as [b2|] eqn:E2; [|discriminate].
    intros [= <-]. rewrite (utf8_decode_encode_cp c b1 b2 E1), (IH b2 eq_refl).
    reflexivity.
Qed.

(** ** Element lists and the calls that rebuild them *)

Section Replay.
Context `{QtModel}.
Hypothesis origin_valid : qt_valid_coords (mkPoint 0 0) = true.

Lemma elements_snoc (path : QPainterPath) (c : PathCall) :
  elements (path ++ [c]) = apply_call (elements path) c.
Proof. unfold elements. now rewrite fold_left_app. Qed.

Lemma built_not_nil (els : list Element) : built els -> els <> [].
Proof. destruct 1; try discriminate; now destruct els. Qed.

Lemma ensureData_built (els : list Element) : built els -> ensureData els = els.
Proof. intros Hb. apply built_not_nil in Hb. now destruct els. Qed.

Lemma built_origin : built (ensureData []).
Proof. apply (built_first (mkPoint 0 0)), origin_valid. Qed.

Lemma built_ensureData (els : list Element) :
  els = [] \/ built els -> built (ensureData els).
Proof. intros [->|Hb]; [apply built_origin | now rewrite ensureData_built]. Qed.

Lemma ends_with_move_snoc (els : list Element) (e : Element) :
  ends_with_move (els ++ [e])
  = match el_type e with MoveToElement => true | _ => false end.
Proof. unfold ends_with_move. rewrite last_snoc. now destruct e as [[] ? ?]. Qed.

Lemma ends_with_move_curve (els : list Element) (c1 c2 e : QPointF) :
  ends_with_move (els ++ curve_elements c1 c2 e) = false.
Proof.
  unfold curve_elements.
  change (els ++ [?a; ?b; ?c]) with (els ++ [a; b] ++ [c]).
  now rewrite app_assoc, ends_with_move_snoc.
Qed.

(** Overwriting a trailing move keeps the list well built. *)
Lemma built_replace_move (els : list Element) (p : QPointF) :
  built els -> ends_with_move els = true -> qt_valid_coords p = true ->
  built (removelast els ++ [move_element p]).
Proof.
  intros Hb Hm Hp. destruct Hb as [q Hq|els q Hb Hnm Hq|els q Hb Hq Hne|els a b c Hb Hv Hd].
  - cbn. now apply built_first.
  - rewrite removelast_last. now apply built_move.
  - rewrite ends_with_move_snoc in Hm. discriminate.
  - rewrite ends_with_move_curve in Hm. discriminate.
Qed.

Lemma built_cubicTo (els : list Element) (c1 c2 e : QPointF) :
  els = [] \/ built els ->
  elements_cubicTo c1 c2 e els = [] \/ built (elements_cubicTo c1 c2 e els).
Proof.
  intros Hels. pose proof (built_ensureData els Hels) as Hen.
  unfold elements_cubicTo.
  destruct (qt_valid_coords c1 && qt_valid_coords c2 && qt_valid_coords e) eqn:Hv;
    [right | exact Hels].
  cbv zeta.
  destruct (qt_point_eq (last_point (ensureData els)) c1 && qt_point_eq c1 c2
            && qt_point_eq c2 e) eqn:Hd; [exact Hen | now apply built_curve].
Qed.

(** Every call leaves an empty or a well-built list. *)
Lemma built_apply_call (els : list Element) (c : PathCall) :
  els = [] \/ built els ->
  apply_call els c = [] \/ built (apply_call els c).
Proof.
  intros Hels. pose proof (built_ensureData els Hels) as Hen.
  destruct c as [p|p|c e|c1 c2 e]; cbn [apply_call].
  - unfold elements_moveTo. destruct (qt_valid_coords p) eqn:Hp; [right | exact Hels].
    cbv zeta. destruct (ends_with_move (ensureData els)) eqn:Hm.
    + now apply built_replace_move.
    + now apply built_move.
  - unfold elements_lineTo. destruct (qt_valid_coords p) eqn:Hp; [right | exact Hels].
    cbv zeta. destruct (qt_point_eq p (last_point (ensureData els))) eqn:Hq;
      [exact Hen | now apply built_line].
  - unfold elements_quadTo.
    destruct (qt_valid_coords c && qt_valid_coords e); [|exact Hels].
    cbv zeta.
    destruct (qt_point_eq (last_point (ensureData els)) c && qt_point_eq c e);
      [right; exact Hen | apply built_cubicTo; now right].
  - now apply built_cubicTo.
Qed.

Lemma elements_built (path : QPainterPath) :
  elements path = [] \/ built (elements path).
Proof.
  induction path as [|c path IH] using rev_ind.
  - now left.
  - rewrite elements_snoc. now apply built_apply_call.
Qed.

Lemma whole_records_app (a b : list RawElement) :
  whole_records a -> whole_records b -> whole_records (a ++ b).
Proof.
  induction 1; intros Hb; cbn; [assumption | constructor 2; auto | constructor 3; auto].
Qed.

Lemma built_whole_records (els : list Element) :
  built els -> whole_records (map raw_element els).
Proof.
  induction 1 as [p Hp|els p Hb IH Hm Hp|els p Hb IH Hp Hq|els c1 c2 e Hb IH Hv Hd];
    rewrite ?map_app.
  - constructor 3; [discriminate | constructor].
  - apply whole_records_app; [exact IH|]. constructor 3; [discriminate | constructor].
  - apply whole_records_app; [exact IH|]. constructor 3; [discriminate | constructor].
  - apply whole_records_app; [exact IH|]. constructor 2. constructor.
Qed.

(** The calls made for the stored form of a well-built list build that
    list again. *)
Lemma built_replay (els : list Element) :
  built els -> elements (calls_of_elements (map raw_element els)) = els.
Proof.
  induction 1 as [p Hp|els p Hb IH Hm Hp|els p Hb IH Hp Hq|els c1 c2 e Hb IH Hv Hd];
    rewrite ?map_app, ?calls_of_whole_records_app by (now apply built_whole_records).
  - cbn. unfold elements_moveTo. cbn. rewrite point_eta, Hp. reflexivity.
  - cbn [map raw_element calls_of_elements move_element el_type el_x el_y
         ElementType_value Z.eqb].
    rewrite point_eta, elements_snoc, IH. cbn [apply_call]. unfold elements_moveTo.
    now rewrite Hp, (ensureData_built els Hb), Hm.
  - cbn [map raw_element calls_of_elements line_element el_type el_x el_y
         ElementType_value Z.eqb Pos.eqb].
    rewrite point_eta, elements_snoc, IH. cbn [apply_call]. unfold elements_lineTo.
    now rewrite Hp, (ensureData_built els Hb), Hq.
  - cbn [map raw_element calls_of_elements curve_elements el_type el_x el_y
         ElementType_value Z.eqb Pos.eqb].
    rewrite !point_eta, elements_snoc, IH. cbn [apply_call]. unfold elements_cubicTo.
    now rewrite Hv, (ensureData_built els Hb), Hd.
Qed.

(** Rebuilding a path from its stored elements gives a path with the same
    elements. *)
Lemma elements_replay (path : QPainterPath) :
  elements (calls_of_elements (map raw_element (elements path))) = elements path.
Proof.
  destruct (elements_built path) as [->|Hb]; [reflexivity | now apply built_replay].
Qed.

End Replay.

(** ** Writing a canvas file *)

Lemma write_raw_written (path : string) (bs : list byte) : appends path bs (write_raw path bs).
Proof.
  intros v d c. unfold write_raw, modify, written. cbn [disk].
  rewrite lookup_insert_eq. unfold set_disk. cbn [view disk].
  now rewrite insert_insert_eq.
Qed.

Lemma appends_bind (path : string) (bs1 bs2 : list byte) (m k : M World unit) :
  appends path bs1 m -> appends path bs2 k ->
  appends path (bs1 ++ bs2) (m;; k).
Proof.
  intros Hm Hk v d c. unfold bind. rewrite Hm, Hk. now rewrite app_assoc.
Qed.

Lemma appends_for_each {A} (path : string) (enc : A -> list byte)
    (xs : list A) (body : A -> M World unit) :
  (forall x, appends path (enc x) (body x)) ->
  appends path (concat (map enc xs)) (for_each xs body).
Proof.
  intros Hb. induction xs as [|x xs IH]; intros v d c.
  - cbn. now rewrite app_nil_r.
  - cbn [for_each map concat]. apply appends_bind; [apply Hb | exact IH].
Qed.

(** Running a step that appends, inside a longer computation. *)
Lemma bind_appends {B} (path : string) (bs : list byte) (m : M World unit)
    (k : unit -> M World B) (v : DrawingView) (d : gmap string File) (c : list byte) :
  appends path bs m ->
  bind m k (written path v d c) = k tt (written path v d (c ++ bs)).
Proof. intros Hm. unfold bind. now rewrite Hm. Qed.

Lemma appends_element (path : string) (e : RawElement) :
  appends path (encode_element e)
    (let '(elem_type, x, y) := e in
     writeUInt8 path elem_type;; writeDouble path x;; writeDouble path y).
Proof.
  destruct e as [[t x] y]. unfold encode_element.
  repeat apply appends_bind; apply write_raw_written.
Qed.

(** The pin loop of [save_canvas_to_file]: it appends the pin section, or
    raises at the first name that cannot be encoded. *)
Lemma save_pins_loop (path : string) (ps : list Pin) (v : DrawingView)
    (d : gmap string File) (c : list byte) :
  let loop :=
    for_each ps (fun pin =>
      name_bytes ← str_encode (pin_name pin);
      writeUInt32 path (Z.of_nat (length name_bytes));;
      writeRawData path name_bytes;;
      writeDouble path (pt_x (pin_pos pin));;
      writeDouble path (pt_y (pin_pos pin))) in
  match encode_pins ps with
  | Some bs => loop (written path v d c) = (Return tt, written path v d (c ++ bs))
  | None => exists w', loop (written path v d c) = (Raise UnicodeEncodeError, w')
  end.
Proof.
  cbv zeta. revert c. induction ps as [|p ps IH]; intros c.
  - cbn. now rewrite app_nil_r.
  - cbn [encode_pins for_each].
    destruct (utf8_encode (pin_name p)) as [nb|] eqn:En.
    2:{ unfold bind, str_encode. rewrite En. eexists. reflexivity. }
    assert (Hw : appends path (encode_pin nb (pin_pos p))
                   (writeUInt32 path (Z.of_nat (length nb));;
                    writeRawData path nb;;
                    writeDouble path (pt_x (pin_pos p));;
                    writeDouble path (pt_y (pin_pos p)))).
    { unfold encode_pin. repeat apply appends_bind; apply write_raw_written. }
    specialize (IH (c ++ encode_pin nb (pin_pos p))).
    destruct (encode_pins ps) as [rest|]; [|destruct IH as [w' IH]; exists w'];
      unfold bind at 1; unfold bind at 1; unfold str_encode at 1; rewrite En;
      cbn [ret]; rewrite Hw, IH, ?app_assoc; reflexivity.
Qed.

Lemma bind_gets {S A B} (f : S -> A) (k : A -> M S B) (s : S) :
  bind (gets f) k s = k (f s) s.
Proof. reflexivity. Qed.

Lemma bind_modify {S B} (f : S -> S) (k : unit -> M S B) (s : S) :
  bind (modify f) k s = k tt (f s).
Proof. reflexivity. Qed.

Lemma view_written (path : string) (v : DrawingView) (d : gmap string File)
    (c : list byte) : view (written path v d c) = v.
Proof. reflexivity. Qed.

Lemma QFile_open_write_ok (path : string) (v : DrawingView) (d : gmap string File) :
  d !! path <> Some Unopenable ->
  QFile_open_write path (mkWorld v d) = (Return true, written path v d []).
Proof.
  intros Hd. unfold QFile_open_write. rewrite bind_gets. cbn [disk].
  destruct (d !! path) as [[content|]|]; [reflexivity|congruence|reflexivity].
Qed.

Lemma QFile_open_read_written (path : string) (v : DrawingView)
    (d : gmap string File) (c : list byte) :
  QFile_open_read path (written path v d c) = (Return (Some c), written path v d c).
Proof.
  unfold QFile_open_read. rewrite bind_gets. cbn [disk written].
  now rewrite lookup_insert_eq.
Qed.

Section SaveSpec.
Context `{QtModel}.

(** What [save_canvas_to_file] does on a path that can be opened: it
    returns [True] and the file holds the document, field by field, unless
    a pin name cannot be encoded. *)
Lemma save_canvas_to_file_spec (path : string) (v : DrawingView) (d : gmap string File) :
  d !! path <> Some Unopenable ->
  match encode_pins (pins v) with
  | Some pins_bytes =>
      save_canvas_to_file path (mkWorld v d)
      = (Return true,
         written path v d
           (canvas_file (QPixmap_save_PNG (raster_pixmap v))
              (map raw_element (elements (vector_path v)))
              pins_bytes (length (pins v)) (background_visible v)))
  | None =>
      exists w', save_canvas_to_file path (mkWorld v d) = (Raise UnicodeEncodeError, w')
  end.
Proof.
  intros Hopen.
  set (prefix :=
         be_bytes 4 (Z.of_nat (length (QPixmap_save_PNG (raster_pixmap v))))
         ++ be_bytes 4 (Z.of_nat (length (QPixmap_save_PNG (raster_pixmap v))))
         ++ QPixmap_save_PNG (raster_pixmap v)
         ++ be_bytes 4 (Z.of_nat (length (elements (vector_path v))))
         ++ concat (map encode_element (map raw_element (elements (vector_path v))))
         ++ be_bytes 4 (Z.of_nat (length (pins v)))).
  pose proof (save_pins_loop path (pins v) v d prefix) as Hpins. cbv zeta in Hpins.
  (* the raster, the vector path and the pin count *)
  assert (Hhead : forall k : list Pin -> M World bool,
    (raster_bytes ← gets (fun w => QPixmap_save_PNG (raster_pixmap (view w)));
     writeUInt32 path (Z.of_nat (length raster_bytes));;
     writeBytes path raster_bytes;;
     elements ← gets (fun w =>
       map (fun elem => (ElementType_value (el_type elem), el_x elem, el_y elem))
           (elements (vector_path (view w))));
     writeUInt32 path (Z.of_nat (length elements));;
     for_each elements (fun '(elem_type, x, y) =>
       writeUInt8 path elem_type;;
       writeDouble path x;;
       writeDouble path y);;
     the_pins ← gets (fun w => pins (view w));
     writeUInt32 path (Z.of_nat (length the_pins));;
     k the_pins) (written path v d [])
    = k (pins v) (written path v d prefix)).
  { intros k.
    rewrite bind_gets; cbv beta; rewrite ?view_written.
    erewrite bind_appends by apply write_raw_written.
    erewrite bind_appends by (unfold writeBytes; apply appends_bind; apply write_raw_written).
    rewrite bind_gets; cbv beta; rewrite ?view_written.
    erewrite bind_appends by apply write_raw_written.
    erewrite bind_appends
      by (apply (appends_for_each path encode_element); apply appends_element).
    rewrite bind_gets; cbv beta; rewrite ?view_written.
    erewrite bind_appends by apply write_raw_written.
    rewrite length_map. subst prefix. cbn [app]. rewrite <- !app_assoc. reflexivity. }
  destruct (encode_pins (pins v)) as [pins_bytes|];
    [|destruct Hpins as [w' Hpins]; exists w'];
    unfold save_canvas_to_file; unfold bind at 1;
    rewrite (QFile_open_write_ok path v d Hopen); cbv zeta; cbn [negb];
    (etransitivity;
     [ apply (Hhead (fun the_pins =>
         for_each the_pins (fun pin =>
           name_bytes ← str_encode (pin_name pin);
           writeUInt32 path (Z.of_nat (length name_bytes));;
           writeRawData path name_bytes;;
           writeDouble path (pt_x (pin_pos pin));;
           writeDouble path (pt_y (pin_pos pin)));;
         visible ← gets (fun w => background_visible (view w));
         writeBool path visible;;
         ret true))
     | cbv beta; unfold bind at 1; rewrite Hpins ]); [|reflexivity].
  rewrite bind_gets; cbv beta; rewrite ?view_written.
  erewrite bind_appends by apply write_raw_written.
  unfold canvas_file, ret. subst prefix. rewrite length_map, <- !app_assoc. reflexivity.
Qed.

(** A path that cannot be opened for writing: [False], and nothing
    changes, on disk or in the object. *)
Lemma save_canvas_to_file_unopenable (path : string) (w : World) :
  disk w !! path = Some Unopenable ->
  save_canvas_to_file path w = (Return false, w).
Proof.
  intros Hd. unfold save_canvas_to_file, QFile_open_write.
  unfold bind at 1. rewrite bind_gets, Hd. reflexivity.
Qed.

End SaveSpec.

(** ** Reading a canvas file *)

Lemma readBytes_written (bs : list byte) (rest : stream) :
  (0 < length bs)%nat -> Z.of_nat (length bs) < 2 ^ 32 ->
  readBytes (be_bytes 4 (Z.of_nat (length bs)) ++ bs ++ rest) = (Some bs, rest).
Proof.
  intros Hpos Hlt. unfold readBytes.
  rewrite readUInt32_be_bytes by lia. cbv beta iota zeta.
  rewrite Nat2Z.id, length_app.
  replace (Z.of_nat (length bs) =? 0) with false by (symmetry; apply Z.eqb_neq; lia).
  replace (length bs <=? length bs + length rest)%nat with true
    by (symmetry; apply Nat.leb_le; lia).
  now rewrite take_app_length, drop_app_length.
Qed.

Lemma read_elements_written (raws : list RawElement) (rest : stream)
    (acc : list RawElement) :
  Forall (fun e : RawElement => 0 <= e.1.1 < 256) raws ->
  read_elements (length raws) (concat (map encode_element raws) ++ rest) acc
  = (acc ++ raws, rest).
Proof.
  intros Hraws. revert acc.
  induction Hraws as [|[[t x] y] raws Ht _ IH]; intros acc.
  - cbn. now rewrite app_nil_r.
  - cbn [length map concat read_elements encode_element]. cbn [fst] in Ht.
    rewrite <- !app_assoc.
    rewrite readUInt8_be_bytes by exact Ht. cbv beta iota zeta.
    rewrite readDouble_be_bytes. cbv beta iota zeta.
    rewrite readDouble_be_bytes. cbv beta iota zeta.
    rewrite IH, <- app_assoc. reflexivity.
Qed.

Lemma raw_element_tag (els : list Element) :
  Forall (fun e : RawElement => 0 <= e.1.1 < 256) (map raw_element els).
Proof.
  apply Forall_map, Forall_forall. intros [[] x y] _; cbn; lia.
Qed.

Lemma set_pins_pins (v : DrawingView) : set_pins (pins v) v = v.
Proof. now destruct v. Qed.

Section LoadSpec.
Context `{QtModel}.

(** The pin loop on the bytes the saving loop wrote: the pins are appended
    to the registry in order. *)
Lemma read_pins_written (ps : list Pin) (pins_bytes : list byte) (rest : stream)
    (v : DrawingView) :
  encode_pins ps = Some pins_bytes ->
  Forall (fun p => forall name_bytes,
            utf8_encode (pin_name p) = Some name_bytes ->
            Z.of_nat (length name_bytes) < 2 ^ 31) ps ->
  read_pins (length ps) (pins_bytes ++ rest) v
  = (Return rest, set_pins (pins v ++ ps) v).
Proof.
  intros Henc Hfit. revert pins_bytes v Henc.
  induction Hfit as [|[name [x y]] ps Hname _ IH]; intros pins_bytes v.
  - intros [= <-]. cbn. now rewrite app_nil_r, set_pins_pins.
  - cbn [encode_pins pin_name pin_pos].
    destruct (utf8_encode name) as [name_bytes|] eqn:En; [|discriminate].
    destruct (encode_pins ps) as [bs|]; [|discriminate].
    intros Heq. apply (inj Some) in Heq. subst pins_bytes.
    specialize (Hname name_bytes En). specialize (IH bs).
    cbn [length read_pins]. unfold encode_pin. cbn [pt_x pt_y].
    rewrite <- !app_assoc.
    rewrite readUInt32_be_bytes by lia. cbv beta iota zeta.
    unfold readRawData.
    replace (2 ^ 31 <=? Z.of_nat (length name_bytes)) with false
      by (symmetry; apply Z.leb_gt; lia).
    rewrite Nat2Z.id, take_app_length, drop_app_length.
    rewrite bind_ret_l. cbv beta iota zeta.
    unfold bytes_decode. rewrite (utf8_decode_encode name name_bytes En).
    rewrite bind_ret_l.
    rewrite readDouble_be_bytes. cbv beta iota zeta.
    rewrite readDouble_be_bytes. cbv beta iota zeta.
    unfold bind at 1, modify at 1.
    rewrite (IH _ eq_refl). cbn [pins set_pins]. rewrite <- app_assoc. reflexivity.
Qed.

Lemma toImage_width (p : QPixmap) : img_w (toImage p) = QPixmap_width p.
Proof.
  induction p as [| | |dev IH]; cbn [toImage QPixmap_width]; try reflexivity.
  now destruct (QPixmap_isNull dev).
Qed.

Lemma toImage_height (p : QPixmap) : img_h (toImage p) = QPixmap_height p.
Proof.
  induction p as [| | |dev IH]; cbn [toImage QPixmap_height]; try reflexivity.
  now destruct (QPixmap_isNull dev).
Qed.

Lemma fromImage_toImage (p : QPixmap) :
  QPixmap_isNull p = false -> QPixmap_fromImage (toImage p) = FromImage (toImage p).
Proof.
  unfold QPixmap_isNull, QPixmap_fromImage.
  rewrite toImage_width, toImage_height. now intros ->.
Qed.

(** Loading a file that holds a document, field by field: the call returns
    [True] with the decoded raster, the rebuilt path, the pins and the
    flag of the file; the disk is not touched. *)
Lemma load_canvas_from_file_written (path : string) (raster_bytes : list byte)
    (els : list Element) (ps : list Pin) (pins_bytes : list byte) (visible : bool)
    (v : DrawingView) (d : gmap string File) :
  let content :=
    canvas_file raster_bytes (map raw_element els) pins_bytes (length ps) visible in
  (0 < length raster_bytes)%nat ->
  Z.of_nat (length raster_bytes) < 2 ^ 32 ->
  Z.of_nat (length els) < 2 ^ 32 ->
  Z.of_nat (length ps) < 2 ^ 32 ->
  encode_pins ps = Some pins_bytes ->
  Forall (fun p => forall name_bytes,
            utf8_encode (pin_name p) = Some name_bytes ->
            Z.of_nat (length name_bytes) < 2 ^ 31) ps ->
  exists v',
    load_canvas_from_file path (written path v d content)
    = (Return true, written path v' d content) /\
    raster_pixmap v' = QPixmap_fromImage (QImage_loadFromData raster_bytes) /\
    vector_path v' = calls_of_elements (map raw_element els) /\
    pins v' = ps /\
    background_visible v' = visible.
Proof.
  intros content Hpos Hraster Hels Hps Henc Hfit.
  unfold load_canvas_from_file. unfold bind at 1.
  rewrite QFile_open_read_written.
  unfold on_view, with_field. rewrite view_written.
  match goal with |- context [let '(r, t) := ?m v in _] =>
    assert (Hm : exists v', m v = (Return true, v') /\
              raster_pixmap v' = QPixmap_fromImage (QImage_loadFromData raster_bytes) /\
              vector_path v' = calls_of_elements (map raw_element els) /\
              pins v' = ps /\
              background_visible v' = visible)
  end.
  { subst content. unfold canvas_file.
    rewrite <- (app_nil_r (be_bytes 1 (if visible then 1 else 0))).
    rewrite readUInt32_be_bytes by lia. cbv beta iota zeta.
    rewrite readBytes_written by assumption. cbv beta iota zeta.
    unfold QByteArray. rewrite bind_ret_l.
    rewrite !bind_modify.
    rewrite readUInt32_be_bytes by (rewrite length_map; lia). cbv beta iota zeta.
    rewrite Nat2Z.id, read_elements_written by apply raw_element_tag.
    cbv beta iota zeta. rewrite app_nil_l.
    rewrite bind_modify.
    unfold bind at 1. cbn [vector_path set_vector_path].
    rewrite rebuild_path_spec, drop_0, app_nil_l. cbv beta iota zeta.
    rewrite bind_modify.
    rewrite readUInt32_be_bytes by lia. cbv beta iota zeta.
    rewrite bind_modify.
    rewrite Nat2Z.id. unfold bind at 1.
    rewrite (read_pins_written ps pins_bytes _ _ Henc Hfit).
    rewrite readBool_be_bytes. cbv beta iota zeta.
    rewrite !bind_modify.
    eexists. split; [reflexivity|]. repeat apply conj; reflexivity. }
  destruct Hm as (v' & -> & Hfields). exists v'. split; [reflexivity | exact Hfields].
Qed.

End LoadSpec.

(** ** The canvas file: what saving and loading do *)

(** Frames on the disk: a write to one file leaves the others. *)
Lemma write_raw_other (path q : string) (bs : list byte) :
  q <> path -> preserves (fun w => disk w !! q) (write_raw path bs).
Proof.
  intros Hq. apply preserves_modify. intros w.
  destruct (disk w !! path) as [[content|]|]; [|reflexivity|reflexivity].
  cbn. now rewrite lookup_insert_ne.
Qed.

Lemma QFile_open_write_other (path q : string) :
  q <> path -> preserves (fun w => disk w !! q) (QFile_open_write path).
Proof.
  intros Hq. unfold QFile_open_write. intros w. unfold bind, gets.
  destruct (disk w !! path) as [[content|]|]; cbn; try reflexivity;
    now rewrite lookup_insert_ne.
Qed.

Lemma on_view_disk {A} (m : M DrawingView A) : preserves disk (on_view m).
Proof. intros w. unfold on_view, with_field. now destruct (m (view w)). Qed.

Section CanvasFile.
Context `{QtModel}.

Lemma save_canvas_to_file_other (path q : string) :
  q <> path -> preserves (fun w => disk w !! q) (save_canvas_to_file path).
Proof.
  intros Hq.
  pose proof (write_raw_other path q) as Hw.
  pose proof (QFile_open_write_other path q Hq) as Ho.
  unfold save_canvas_to_file, writeBytes, writeUInt32, writeUInt8, writeDouble,
    writeBool, writeRawData, str_encode.
  frame.
Qed.

Lemma save_raster_image_other (path q : string) :
  q <> path -> preserves (fun w => disk w !! q) (save_raster_image path).
Proof.
  intros Hq.
  pose proof (write_raw_other path q) as Hw.
  pose proof (QFile_open_write_other path q Hq) as Ho.
  unfold save_raster_image. frame.
Qed.


End CanvasFile.

(** A call of [save_canvas_to_file] that returned [True] left the document
    in the file and the object as it was. *)
Lemma save_returned_true `{QtModel} (path : string) (w w1 : World) :
  save_canvas_to_file path w = (Return true, w1) ->
  exists pins_bytes,
    encode_pins (pins (view w)) = Some pins_bytes /\
    w1 = written path (view w) (disk w)
           (canvas_file (QPixmap_save_PNG (raster_pixmap (view w)))
              (map raw_element (elements (vector_path (view w))))
              pins_bytes (length (pins (view w))) (background_visible (view w))).
Proof.
  destruct w as [v d]. cbn [view disk]. intros Hsave.
  assert (Hd : d !! path <> Some Unopenable).
  { intros Hd.
    rewrite (save_canvas_to_file_unopenable path (mkWorld v d) Hd) in Hsave.
    discriminate. }
  pose proof (save_canvas_to_file_spec path v d Hd) as Hspec.
  destruct (encode_pins (pins v)) as [pins_bytes|].
  - rewrite Hsave in Hspec. injection Hspec as ->. eauto.
  - destruct Hspec as [w' Hw']. rewrite Hsave in Hw'. discriminate.
Qed.

(** X6.  The three outcomes of [save_canvas_to_file].  On a path that cannot
    be opened it returns [False] and changes nothing.  Otherwise, when every
    pin name can be encoded, it returns [True] and the file holds exactly
    the length of the PNG data twice, the PNG data, the element count, 17
    bytes per element, the pin count, the pins and the flag byte; what the
    file held before is gone.  When a pin name cannot be encoded it raises
    [UnicodeEncodeError], and the object is as before. *)
Theorem save_canvas_to_file_outcomes `{QtModel} (path : string) (w : World) :
  match disk w !! path with
  | Some Unopenable => save_canvas_to_file path w = (Return false, w)
  | _ =>
      match encode_pins (pins (view w)) with
      | Some pins_bytes =>
          save_canvas_to_file path w
          = (Return true,
             mkWorld (view w)
               (<[path := Regular
                    (canvas_file (QPixmap_save_PNG (raster_pixmap (view w)))
                       (map raw_element (elements (vector_path (view w))))
                       pins_bytes (length (pins (view w)))
                       (background_visible (view w)))]> (disk w)))
      | None =>
          exists w',
            save_canvas_to_file path w = (Raise UnicodeEncodeError, w') /\
            view w' = view w
      end
  end.
Proof.
  destruct w as [v d]. cbn [view disk].
  assert (Hopen : d !! path <> Some Unopenable ->
            match encode_pins (pins v) with
            | Some pins_bytes =>
                save_canvas_to_file path (mkWorld v d)
                = (Return true,
                   mkWorld v
                     (<[path := Regular
                          (canvas_file (QPixmap_save_PNG (raster_pixmap v))
                             (map raw_element (elements (vector_path v)))
                             pins_bytes (length (pins v))
                             (background_visible v))]> d))
            | None =>
                exists w',
                  save_canvas_to_file path (mkWorld v d) = (Raise UnicodeEncodeError, w') /\
                  view w' = v
            end).
  { intros Hd. pose proof (save_canvas_to_file_spec path v d Hd) as Hspec.
    destruct (encode_pins (pins v)) as [pins_bytes|]; [exact Hspec|].
    destruct Hspec as [w' Hw']. exists w'. split; [exact Hw'|].
    pose proof (save_canvas_to_file_frame (fun v => v) path (mkWorld v d)) as Hf.
    cbv beta in Hf. now rewrite Hw' in Hf. }
  destruct (d !! path) as [[content|]|] eqn:Hd.
  - apply Hopen. discriminate.
  - apply (save_canvas_to_file_unopenable path (mkWorld v d)). exact Hd.
  - apply Hopen. discriminate.
Qed.

(** X7.  [save_canvas_to_file] writes no file but its own: every other path
    holds after the call what it held before, whether the call returned
    or raised. *)
Theorem save_canvas_touches_only_its_file `{QtModel} (path q : string) (w : World) :
  q <> path ->
  disk (snd (save_canvas_to_file path w)) !! q = disk w !! q.
Proof. intros Hq. apply (save_canvas_to_file_other path q Hq w). Qed.

Lemma save_canvas_touches_only_its_file_witness :
  disk (snd (save_canvas_to_file (H := sample_qt) "drawing.canvas"
               (mkWorld sample_document {["notes.txt" := Regular []]})))
    !! "notes.txt"
  = Some (Regular []).
Proof.
  rewrite (save_canvas_touches_only_its_file (H := sample_qt)
             "drawing.canvas" "notes.txt"
             (mkWorld sample_document {["notes.txt" := Regular []]}));
    [reflexivity | discriminate].
Defined.

(** X8.  Saving again changes nothing: a second [save_canvas_to_file] to
    the same path, with the document as it is, returns [True] and leaves
    the same file. *)
Theorem save_canvas_twice `{QtModel} (path : string) (w w1 : World) :
  save_canvas_to_file path w = (Return true, w1) ->
  save_canvas_to_file path w1 = (Return true, w1).
Proof.
  intros Hsave.
  destruct (save_returned_true path w w1 Hsave) as (pins_bytes & Henc & ->).
  unfold written at 1.
  pose proof (save_canvas_to_file_spec path (view w) (<[path := Regular
                (canvas_file (QPixmap_save_PNG (raster_pixmap (view w)))
                   (map raw_element (elements (vector_path (view w))))
                   pins_bytes (length (pins (view w)))
                   (background_visible (view w)))]> (disk w))) as Hspec.
  rewrite Henc in Hspec. rewrite Hspec by (rewrite lookup_insert_eq; discriminate).
  unfold written. now rewrite insert_insert_eq.
Qed.

Lemma save_canvas_twice_witness :
  let w1 := snd (save_canvas_to_file (H := sample_qt) "drawing.canvas"
                   (mkWorld sample_document ∅)) in
  save_canvas_to_file (H := sample_qt) "drawing.canvas" w1 = (Return true, w1).
Proof.
  cbv zeta.
  apply (save_canvas_twice (H := sample_qt) "drawing.canvas"
           (mkWorld sample_document ∅)).
  vm_compute. reflexivity.
Defined.

(** X9.  Saving a document and loading the file gives the document back:
    the path has the same elements, the pins and the background flag are
    those saved, and the raster has the same pixels.  The raster must not
    be null and its PNG data must decode to it; the counts and lengths
    must fit their fields. *)
Theorem save_then_load_round_trip `{QtModel} (path : string) (w w1 : World) :
  qt_valid_coords (mkPoint 0 0) = true ->
  QPixmap_isNull (raster_pixmap (view w)) = false ->
  qt_png_decode (qt_png_encode (toImage (raster_pixmap (view w))))
  = Some (toImage (raster_pixmap (view w))) ->
  fits_canvas_file (view w) ->
  save_canvas_to_file path w = (Return true, w1) ->
  exists w2,
    load_canvas_from_file path w1 = (Return true, w2) /\
    elements (vector_path (view w2)) = elements (vector_path (view w)) /\
    pins (view w2) = pins (view w) /\
    background_visible (view w2) = background_visible (view w) /\
    toImage (raster_pixmap (view w2)) = toImage (raster_pixmap (view w)) /\
    disk w2 = disk w1.
Proof.
  intros Horigin Hnull Hpng (Hpos & Hraster & Hels & Hps & Hnames) Hsave.
  destruct (save_returned_true path w w1 Hsave) as (pins_bytes & Henc & ->).
  destruct (load_canvas_from_file_written path
              (QPixmap_save_PNG (raster_pixmap (view w)))
              (elements (vector_path (view w))) (pins (view w)) pins_bytes
              (background_visible (view w)) (view w) (disk w)
              Hpos Hraster Hels Hps Henc Hnames)
    as (v' & Hload & Hr & Hv & Hp & Hb).
  eexists. split; [exact Hload|]. cbn [view disk written].
  repeat apply conj; try assumption; try reflexivity.
  - rewrite Hv. now apply elements_replay.
  - rewrite Hr. unfold QPixmap_save_PNG, QImage_loadFromData.
    rewrite Hnull, Hpng. now rewrite fromImage_toImage.
Qed.

Lemma save_then_load_round_trip_witness :
  let w := mkWorld sample_document ∅ in
  exists w2,
    load_canvas_from_file (H := sample_qt) "drawing.canvas"
      (snd (save_canvas_to_file (H := sample_qt) "drawing.canvas" w))
    = (Return true, w2) /\
    elements (H := sample_qt) (vector_path (view w2))
    = elements (H := sample_qt) (vector_path (view w)) /\
    pins (view w2) = pins (view w) /\
    background_visible (view w2) = background_visible (view w) /\
    toImage (H := sample_qt) (raster_pixmap (view w2))
    = toImage (H := sample_qt) (raster_pixmap (view w)) /\
    disk w2 = disk (snd (save_canvas_to_file (H := sample_qt) "drawing.canvas" w)).
Proof.
  cbv zeta.
  apply (save_then_load_round_trip (H := sample_qt) "drawing.canvas"
           (mkWorld sample_document ∅)).
  - reflexivity.
  - reflexivity.
  - vm_compute. reflexivity.
  - unfold fits_canvas_file.
    split; [vm_compute; lia|].
    do 3 (split; [vm_compute; reflexivity|]).
    change (pins (view (mkWorld sample_document ∅)))
      with [default_pin; mkPin (str "Home") (mkPoint 3 4)].
    repeat apply List.Forall_cons; try apply List.Forall_nil;
      intros name_bytes Hname; vm_compute in Hname; injection Hname as <-;
      vm_compute; reflexivity.
  - vm_compute. reflexivity.
Defined.

(** *** Loading: outcomes and what a failed load leaves *)

Section LoadOutcomes.
Context `{QtModel}.



End LoadOutcomes.


(** X11.  [load_canvas_from_file] is not transactional.  On a file with
    raster data, the raster, its scene item and bounding box and the vector
    path are those read from the file when the call ends, whether it
    returns [True] or raises at a pin name. *)
Theorem load_keeps_what_it_assigned `{QtModel} (path : string) (w : World)
    (content raster_bytes rest : list byte) :
  disk w !! path = Some (Regular content) ->
  readBytes (snd (readUInt32 content)) = (Some raster_bytes, rest) ->
  let after := view (snd (load_canvas_from_file path w)) in
  let element_count := fst (readUInt32 rest) in
  let elements :=
    fst (read_elements (Z.to_nat element_count) (snd (readUInt32 rest)) []) in
  raster_pixmap after = QPixmap_fromImage (QImage_loadFromData raster_bytes) /\
  raster_item_pixmap after = raster_pixmap after /\
  raster_bounding_rect after
  = QRectF_of_QRect (QPixmap_getRect (raster_pixmap after)) /\
  vector_path after = calls_of_elements elements /\
  vector_item_path after = vector_path after.
Proof.
  intros Hd Hraster. cbv zeta.
  assert (Hw : written path (view w) (disk w) content = w).
  { unfold written. rewrite (insert_id _ _ _ Hd). now destruct w. }
  rewrite <- Hw. generalize (view w) (disk w). clear Hw Hd w. intros v d.
  remember (load_canvas_from_file path (written path v d content)) as r eqn:Hr.
  unfold load_canvas_from_file in Hr. unfold bind at 1 in Hr.
  rewrite QFile_open_read_written in Hr.
  unfold on_view, with_field in Hr. rewrite view_written in Hr.
  destruct (readUInt32 content) as [raster_size s1]. cbn [snd] in Hraster.
  rewrite Hraster in Hr.
  unfold QByteArray in Hr. rewrite bind_ret_l, !bind_modify in Hr.
  destruct (readUInt32 rest) as [element_count s3]. cbn [fst snd].
  destruct (read_elements _ s3 []) as [els s4]. cbn [fst].
  rewrite bind_modify in Hr. unfold bind at 1 in Hr.
  rewrite rebuild_path_spec in Hr. rewrite bind_modify in Hr.
  destruct (readUInt32 s4) as [pin_count s5].
  rewrite bind_modify in Hr.
  set (f := fun v : DrawingView =>
              (raster_pixmap v, raster_item_pixmap v, raster_bounding_rect v,
               vector_path v, vector_item_path v)).
  match type of Hr with context [bind (read_pins ?n ?s) ?k ?v0] =>
    assert (Hrest : preserves f (bind (read_pins n s) k));
    [ apply preserves_bind; [apply read_pins_frame; reflexivity | intros s6; frame]
    | specialize (Hrest v0);
      destruct (bind (read_pins n s) k v0) as [r0 t] ]
  end.
  subst r. cbn [snd view set_view]. cbn [snd] in Hrest.
  unfold f in Hrest. cbn in Hrest. rewrite drop_0 in Hrest.
  injection Hrest as -> -> -> -> ->.
  repeat apply conj; reflexivity.
Qed.

Lemma load_keeps_what_it_assigned_witness :
  let w := mkWorld sample_document {["bad.canvas" := Regular sample_bad_file]} in
  let r := load_canvas_from_file (H := sample_qt) "bad.canvas" w in
  fst r = Raise UnicodeDecodeError /\
  raster_pixmap (view (snd r)) = NullPixmap /\
  vector_path (view (snd r)) = [] /\
  pins (view (snd r)) = [].
Proof.
  cbv zeta.
  pose proof (load_keeps_what_it_assigned (H := sample_qt) "bad.canvas"
                (mkWorld sample_document {["bad.canvas" := Regular sample_bad_file]})
                sample_bad_file [x00]
                [x00; x00; x00; x00; x00; x00; x00; x01; x00; x00; x00; x01; xff]
                eq_refl eq_refl) as (Hraster & _ & _ & Hpath & _).
  repeat apply conj.
  - vm_compute. reflexivity.
  - exact Hraster.
  - exact Hpath.
  - vm_compute. reflexivity.
Defined.

(** ** The raster compositor *)

(** The compositor on a stroke of at least one point, as an equation. *)
Lemma process_raster_stroke_eq `{QtModel} (s : DrawingView)
    (p0 : QPointF) (rest : list QPointF) :
  stroke_points s = p0 :: rest ->
  let path := MoveTo p0 :: midpoint_segments p0 rest in
  let painted :=
    Painted (raster_pixmap s) path (mkPen (pen_color s) (current_pen_width s)) true in
  let stroke_bounding_rect := qt_bounding_rect (elements path) in
  process_raster_stroke s
  = (Return tt,
     set_raster_bounding_rect
       (if QRectF_isNull (raster_bounding_rect s) then stroke_bounding_rect
        else qt_united (raster_bounding_rect s) stroke_bounding_rect)
       (set_raster_item_pixmap painted (set_raster_pixmap painted s))).
Proof.
  intros Hpts. cbv zeta.
  unfold process_raster_stroke.
  unfold bind at 1. cbn [gets]. rewrite Hpts.
  unfold bind at 1. cbn [index lookup list_lookup ret].
  unfold bind at 1. unfold range.
  replace (length (p0 :: rest) - 1)%nat with (length rest) by (simpl; lia).
  match goal with
  | |- context [let (r, s') := ?m in _] =>
      replace m
        with (Return ([MoveTo p0] ++ midpoint_segments p0 (drop 1 (p0 :: rest))), s)
  end.
  2:{ symmetry.
      apply (compositor_loop (p0 :: rest) s (length rest) 0 [MoveTo p0] p0 eq_refl).
      simpl. lia. }
  cbn [drop app]. run_method.
  destruct (QRectF_isNull (raster_bounding_rect s)); reflexivity.
Qed.

Lemma process_raster_stroke_nil `{QtModel} (s : DrawingView) :
  stroke_points s = [] -> process_raster_stroke s = (Raise IndexError, s).
Proof.
  intros Hpts. unfold process_raster_stroke.
  unfold bind at 1. cbn [gets]. rewrite Hpts. reflexivity.
Qed.

(** X12.  With at least one captured point the compositor returns.  It paints
    on the raster, antialiased and with the pen of the current width, the
    path that starts at the first point and has one quadratic segment per
    later point, to that point, with the midpoint of the point before and
    the point as control point; the pixmap item gets the new raster, and
    the bounding box of the raster grows by the box of the path.  Nothing
    else changes. *)
Theorem compositor_paints_midpoint_path `{QtModel} (s : DrawingView)
    (p0 : QPointF) (rest : list QPointF) :
  stroke_points s = p0 :: rest ->
  let path := MoveTo p0 :: midpoint_segments p0 rest in
  let painted :=
    Painted (raster_pixmap s) path (mkPen (pen_color s) (current_pen_width s)) true in
  let stroke_bounding_rect := qt_bounding_rect (elements path) in
  process_raster_stroke s
  = (Return tt,
     set_raster_bounding_rect
       (if QRectF_isNull (raster_bounding_rect s) then stroke_bounding_rect
        else qt_united (raster_bounding_rect s) stroke_bounding_rect)
       (set_raster_item_pixmap painted (set_raster_pixmap painted s))) /\
  length (midpoint_segments p0 rest) = length rest.
Proof.
  intros Hpts. cbv zeta. split.
  - now apply process_raster_stroke_eq.
  - clear Hpts. revert p0. induction rest as [|p rest IH]; intros p0; cbn; [|rewrite IH];
      reflexivity.
Qed.

Lemma compositor_paints_midpoint_path_witness :
  let s := set_stroke_points [mkPoint 0 0; mkPoint 2 4] DrawingView_new in
  raster_pixmap (snd (process_raster_stroke (H := sample_qt) s))
  = Painted (Filled 10000 10000 Qt_transparent)
      [MoveTo (mkPoint 0 0); QuadTo (mkPoint 1 2) (mkPoint 2 4)]
      (mkPen Qt_black (PyInt 2)) true.
Proof.
  cbv zeta.
  rewrite (proj1 (compositor_paints_midpoint_path (H := sample_qt)
                    (set_stroke_points [mkPoint 0 0; mkPoint 2 4] DrawingView_new)
                    (mkPoint 0 0) [mkPoint 2 4] eq_refl)).
  vm_compute. reflexivity.
Defined.

(** X13.  With no captured point the compositor raises [IndexError] at
    [self.stroke_points[0]] and assigns nothing. *)
Theorem compositor_raises_on_empty_stroke `{QtModel} (s : DrawingView) :
  stroke_points s = [] -> process_raster_stroke s = (Raise IndexError, s).
Proof. apply process_raster_stroke_nil. Qed.

Lemma compositor_raises_on_empty_stroke_witness :
  process_raster_stroke (H := sample_qt) DrawingView_new
  = (Raise IndexError, DrawingView_new).
Proof.
  apply (compositor_raises_on_empty_stroke (H := sample_qt) DrawingView_new).
  reflexivity.
Defined.

(** ** Invariants of the states of a run *)

Lemma deque_append_length {A} (l : list A) (x : A) :
  (length l <= 3)%nat -> (length (deque_append 3 l x) <= 3)%nat.
Proof.
  intros Hl. unfold deque_append.
  destruct (length l <? 3)%nat eqn:E.
  - apply Nat.ltb_lt in E. rewrite length_app. simpl. lia.
  - rewrite length_app, length_drop. simpl. lia.
Qed.

(** Closes a goal [view_invariant s'] where [s'] is [s] under setters. *)
Ltac invariant_holds :=
  unfold view_invariant, background_consistent, pen_consistent,
    scene_shows_raster, scene_shows_path, window_bounded in *;
  cbn;
  repeat match goal with
         | Hi : _ /\ _ |- _ => destruct Hi
         | Hi : exists _, _ |- _ => destruct Hi
         end;
  repeat apply conj;
  try assumption; try reflexivity; try congruence;
  try (apply pen_width_floor);
  try (apply deque_append_length; assumption);
  try (simpl in *; lia).

Section Invariant.
Context `{QtModel}.

Lemma smooth_path_eq (q : QPointF) (s : DrawingView) :
  smooth_path q s
  = (Return tt,
     let s1 := set_last_points (deque_append 3 (last_points s) q) s in
     match deque_append 3 (last_points s) q with
     | [p0; p1; p2] =>
         let path := vector_path s ++ [QuadTo (mkPoint (pt_x p1) (pt_y p1)) p2] in
         set_vector_item_path path (set_vector_path path s1)
     | _ => s1
     end).
Proof.
  unfold smooth_path. rewrite bind_modify, bind_gets. cbn [last_points set_last_points].
  destruct (deque_append 3 (last_points s) q) as [|a [|b [|c [|]]]]; reflexivity.
Qed.

Lemma bind_update_pen {B} (k : unit -> M DrawingView B) (s : DrawingView) :
  bind update_pen k s
  = k tt (set_vector_item_pen (mkPen (pen_color s) (current_pen_width s))
            (set_pen (mkPen (pen_color s) (current_pen_width s)) s)).
Proof. reflexivity. Qed.

Lemma smooth_path_invariant (q : QPointF) (s : DrawingView) :
  view_invariant s -> view_invariant (snd (smooth_path q s)).
Proof.
  intros Hinv. rewrite smooth_path_eq. cbn [snd].
  assert (Hlen : (length (deque_append 3 (last_points s) q) <= 3)%nat)
    by (apply deque_append_length, Hinv).
  destruct (deque_append 3 (last_points s) q) as [|a [|b [|c [|]]]];
    invariant_holds;
    try (match goal with Hs : vector_path s = _ |- _ => eexists; exact Hs end);
    try (exists []; now rewrite app_nil_r).
Qed.

Lemma process_raster_stroke_invariant (s : DrawingView) :
  view_invariant s -> view_invariant (snd (process_raster_stroke s)).
Proof.
  intros Hinv. destruct (stroke_points s) as [|p0 rest] eqn:Hpts.
  - now rewrite process_raster_stroke_nil.
  - rewrite (process_raster_stroke_eq s p0 rest Hpts). cbn [snd].
    destruct (QRectF_isNull (raster_bounding_rect s)); invariant_holds; eauto.
Qed.

Lemma tabletEvent_invariant (event : QTabletEvent) (s : DrawingView) :
  view_invariant s -> view_invariant (snd (tabletEvent event s)).
Proof.
  intros Hinv. destruct event as [ty p pr]. unfold tabletEvent.
  rewrite bind_modify, bind_gets. cbn [te_type te_posF te_pressure].
  assert (Hinv0 : view_invariant (set_use_tablet true s)) by (invariant_holds; eauto).
  destruct ty.
  - rewrite !bind_modify, bind_update_pen. cbn [ret snd].
    invariant_holds.
    match goal with Hs : vector_path s = _ ++ map MoveTo ?x |- _ =>
      exists (x ++ [p]); rewrite Hs, map_app, <- app_assoc; reflexivity end.
  - destruct (drawing (set_use_tablet true s)); [|exact Hinv0].
    rewrite !bind_modify, bind_update_pen. unfold bind at 1.
    match goal with |- context [smooth_path p ?s0] =>
      assert (Hs0 : view_invariant s0) by (invariant_holds; eauto);
      pose proof (smooth_path_invariant p s0 Hs0) as Hs1;
      rewrite smooth_path_eq in Hs1 |- *
    end.
    cbn [snd] in Hs1. rewrite bind_modify. cbn [ret snd].
    match goal with |- view_invariant (set_stroke_points _ ?s1) =>
      revert Hs1; generalize s1; intros s1' Hs1
    end.
    invariant_holds; eauto.
  - unfold bind at 1.
    pose proof (process_raster_stroke_invariant _ Hinv0) as Hp.
    destruct (drawing (set_use_tablet true s)).
    + destruct (process_raster_stroke (set_use_tablet true s)) as [[[]|e] s1];
        cbn [snd] in *; [|exact Hp].
      rewrite bind_modify. cbn [ret snd]. invariant_holds; eauto.
    + cbn [ret]. rewrite bind_modify. cbn [ret snd]. invariant_holds; eauto.
  - exact Hinv0.
Qed.

Lemma mousePressEvent_invariant (event : QMouseEvent) (s : DrawingView) :
  view_invariant s -> view_invariant (snd (mousePressEvent event s)).
Proof.
  intros Hinv. unfold mousePressEvent, QGraphicsView_mouseEvent. rewrite bind_gets.
  destruct (negb (use_tablet s) && is_left (me_button event)); [|exact Hinv].
  rewrite !bind_modify, bind_update_pen. cbn [ret snd].
  invariant_holds.
  match goal with Hs : vector_path s = _ ++ map MoveTo ?x |- _ =>
    exists (x ++ [me_scene_pos event]); rewrite Hs, map_app, <- app_assoc; reflexivity end.
Qed.

Lemma mouseMoveEvent_invariant (event : QMouseEvent) (s : DrawingView) :
  view_invariant s -> view_invariant (snd (mouseMoveEvent event s)).
Proof.
  intros Hinv. unfold mouseMoveEvent, QGraphicsView_mouseEvent. rewrite !bind_gets.
  destruct (negb (use_tablet s) && drawing s); [|exact Hinv].
  rewrite bind_update_pen. unfold bind at 1.
  match goal with |- context [smooth_path ?p ?s0] =>
    assert (Hs0 : view_invariant s0) by (invariant_holds; eauto);
    pose proof (smooth_path_invariant p s0 Hs0) as Hs1;
    rewrite smooth_path_eq in Hs1 |- *
  end.
  cbn [snd] in Hs1. rewrite bind_modify. cbn [ret snd].
  match goal with |- view_invariant (set_stroke_points _ ?s1) =>
    revert Hs1; generalize s1; intros s1' Hs1
  end.
  invariant_holds; eauto.
Qed.

Lemma mouseReleaseEvent_invariant (event : QMouseEvent) (s : DrawingView) :
  view_invariant s -> view_invariant (snd (mouseReleaseEvent event s)).
Proof.
  intros Hinv. unfold mouseReleaseEvent, QGraphicsView_mouseEvent. rewrite !bind_gets.
  destruct (negb (use_tablet s) && is_left (me_button event) && drawing s) eqn:E;
    [|exact Hinv].
  apply andb_prop in E as [_ ->]. unfold bind at 1.
  pose proof (process_raster_stroke_invariant _ Hinv) as Hp.
  destruct (process_raster_stroke s) as [[[]|e] s1]; cbn [snd] in *; [|exact Hp].
  rewrite bind_modify. cbn [ret snd]. invariant_holds; eauto.
Qed.

Lemma wheelEvent_invariant (event : QWheelEvent) (s : DrawingView) :
  view_invariant s -> view_invariant (snd (wheelEvent event s)).
Proof.
  intros Hinv. unfold wheelEvent. destruct (we_control event); [|exact Hinv].
  rewrite bind_modify. cbn [ret snd]. invariant_holds; eauto.
Qed.

Lemma keyPressEvent_invariant (key : Key) (s : DrawingView) :
  view_invariant s -> view_invariant (snd (keyPressEvent key s)).
Proof.
  intros Hinv. destruct key; cbn [keyPressEvent modify ret snd];
    invariant_holds; eauto.
Qed.

Lemma clear_canvas_invariant (s : DrawingView) :
  view_invariant s -> view_invariant (snd (clear_canvas s)).
Proof.
  intros Hinv. unfold clear_canvas. rewrite !bind_modify. cbn [modify snd].
  invariant_holds. now exists [].
Qed.

Lemma toggle_background_invariant (s : DrawingView) :
  view_invariant s -> view_invariant (snd (toggle_background s)).
Proof.
  intros Hinv. unfold toggle_background. rewrite bind_gets.
  destruct (background_visible s); rewrite !bind_modify; cbn [modify snd];
    invariant_holds; eauto.
Qed.

Lemma add_pin_invariant (name : pystr) (pos : QPointF) (s : DrawingView) :
  view_invariant s -> view_invariant (snd (add_pin name pos s)).
Proof. intros Hinv. cbn [add_pin modify snd]. invariant_holds; eauto. Qed.

Lemma remove_pin_invariant (name : pystr) (s : DrawingView) :
  view_invariant s -> view_invariant (snd (remove_pin name s)).
Proof. intros Hinv. cbn [remove_pin modify snd]. invariant_holds; eauto. Qed.

Lemma read_pins_invariant (n : nat) (st : stream) (s : DrawingView) :
  view_invariant s -> view_invariant (snd (read_pins n st s)).
Proof.
  revert st s. induction n as [|n IH]; intros st s Hinv; [exact Hinv|].
  cbn [read_pins]. destruct (readUInt32 st) as [name_length s1].
  unfold readRawData. destruct (2 ^ 31 <=? name_length); [exact Hinv|].
  rewrite bind_ret_l. unfold bytes_decode.
  destruct (utf8_decode _) as [name|]; [|exact Hinv].
  rewrite bind_ret_l.
  destruct (readDouble (drop (Z.to_nat name_length) s1)) as [x s2].
  destruct (readDouble s2) as [y s3].
  rewrite bind_modify. apply IH. invariant_holds; eauto.
Qed.

Lemma load_canvas_from_file_invariant (path : string) (w : World) :
  view_invariant (view w) ->
  view_invariant (view (snd (load_canvas_from_file path w))).
Proof.
  intros Hinv.
  remember (load_canvas_from_file path w) as r eqn:Hr.
  unfold load_canvas_from_file in Hr. unfold bind at 1 in Hr.
  pose proof (preserves_QFile_open_read (fun w => w) path w) as Ho. cbv beta in Ho.
  destruct (QFile_open_read path w) as [[[content|]|e] w0]; cbn [snd] in Ho; subst w0;
    [| subst r; exact Hinv | subst r; exact Hinv].
  unfold on_view, with_field in Hr.
  destruct (readUInt32 content) as [raster_size s1].
  destruct (readBytes s1) as [[raster_bytes|] s2]; [|subst r; exact Hinv].
  unfold QByteArray in Hr. rewrite bind_ret_l, !bind_modify in Hr.
  destruct (readUInt32 s2) as [element_count s3].
  destruct (read_elements _ s3 []) as [els s4].
  rewrite bind_modify in Hr. unfold bind at 1 in Hr.
  rewrite rebuild_path_spec in Hr. rewrite bind_modify in Hr.
  destruct (readUInt32 s4) as [pin_count s5].
  rewrite bind_modify in Hr. unfold bind at 1 in Hr.
  match type of Hr with context [read_pins ?n ?s ?v0] =>
    assert (Hv0 : view_invariant v0)
      by (invariant_holds; exists []; cbn; now rewrite app_nil_r);
    pose proof (read_pins_invariant n s v0 Hv0) as Hp;
    destruct (read_pins n s v0) as [[s6|e] v6]; cbn [snd] in Hp
  end.
  - destruct (readBool s6) as [visible s7]. rewrite !bind_modify in Hr.
    subst r. cbn [ret snd view set_view].
    destruct visible; invariant_holds; eauto.
  - subst r. exact Hp.
Qed.

Lemma init_invariant (config : option Settings) :
  view_invariant (DrawingView_init config).
Proof.
  assert (Hnew : view_invariant DrawingView_new).
  { invariant_holds. now exists []. }
  unfold DrawingView_init, load_settings.
  destruct config as [[ps vw st]|]; [|exact Hnew]. cbn [cfg_pins cfg_settings].
  unfold bind at 1.
  match goal with |- context [match ?m DrawingView_new with _ => _ end] =>
    assert (Hpins : view_invariant (snd (m DrawingView_new)));
    [| destruct (m DrawingView_new) as [[[]|e] s1]; cbn [snd] in *; [|exact Hpins] ]
  end.
  { destruct ps as [ps|]; [|exact Hnew]. rewrite bind_modify.
    assert (Hloop : forall s, view_invariant s ->
              view_invariant
                (snd (for_each ps
                        (fun pin => modify (fun s => set_pins (pins s ++ [pin]) s)) s))).
    { induction ps as [|pin ps IH]; intros s Hs; [exact Hs|].
      cbn [for_each]. rewrite bind_modify. apply IH. invariant_holds; eauto. }
    apply Hloop. invariant_holds. now exists []. }
  destruct st as [[bg aa]|]; [|exact Hpins].
  rewrite !bind_modify. cbn [modify snd].
  destruct bg; invariant_holds; eauto.
Qed.

Lemma perform_invariant (a : Action) (w : World) :
  view_invariant (view w) -> view_invariant (view (snd (perform a w))).
Proof.
  intros Hinv.
  assert (Hview : forall {A} (m : M DrawingView A),
             view_invariant (snd (m (view w))) ->
             view_invariant (view (snd (on_view m w)))).
  { intros A m Hm. unfold on_view, with_field.
    destruct (m (view w)) as [r v]. exact Hm. }
  assert (Hview' : forall {A} (m : M DrawingView A),
             view_invariant (snd (m (view w))) ->
             view_invariant (view (snd (bind (on_view m) (fun _ => ret tt) w)))).
  { intros A m Hm. specialize (Hview A m Hm). unfold bind.
    destruct (on_view m w) as [[b|e] w1]; exact Hview. }
  destruct a as [e|e|e|e|e|k| | |nm ps|nm|p|p|p]; unfold perform.
  - now apply Hview', tabletEvent_invariant.
  - now apply Hview', mousePressEvent_invariant.
  - now apply Hview', mouseMoveEvent_invariant.
  - now apply Hview', mouseReleaseEvent_invariant.
  - now apply Hview', wheelEvent_invariant.
  - now apply Hview, keyPressEvent_invariant.
  - now apply Hview, clear_canvas_invariant.
  - now apply Hview, toggle_background_invariant.
  - now apply Hview, add_pin_invariant.
  - now apply Hview, remove_pin_invariant.
  - pose proof (save_canvas_to_file_frame (fun v => v) p w) as Hs. cbv beta in Hs.
    unfold bind. destruct (save_canvas_to_file p w) as [[b|e] w1]; cbn [snd ret] in *;
      now rewrite Hs.
  - pose proof (load_canvas_from_file_invariant p w Hinv) as Hl.
    unfold bind. destruct (load_canvas_from_file p w) as [[b|e] w1]; exact Hl.
  - pose proof (save_raster_image_frame (fun v => v) p w) as Hs. cbv beta in Hs.
    now rewrite Hs.
Qed.

(** The invariant holds in every state of a run, also when the run ends
    with an exception. *)
Lemma run_invariant (config : option Settings) (d : gmap string File)
    (actions : list Action) :
  view_invariant
    (view (snd (run actions (mkWorld (DrawingView_init config) d)))).
Proof.
  apply (run_keeps (fun w => view_invariant (view w))).
  - intros a w. apply perform_invariant.
  - apply init_invariant.
Qed.

End Invariant.

(** X14.  After any run, the background colour is white when the background
    is visible and transparent when it is not, and the brush of the
    background rectangle is that colour: construction, the settings file,
    [toggle_background] and [load_canvas_from_file] keep the three in
    step. *)
Theorem background_follows_the_flag `{QtModel} (config : option Settings)
    (d : gmap string File) (actions : list Action) :
  let v := view (snd (run actions (mkWorld (DrawingView_init config) d))) in
  background_color v = (if background_visible v then Qt_white else Qt_transparent) /\
  background_rect_brush v = background_color v.
Proof. cbv zeta. apply (run_invariant config d actions). Qed.

(** X15.  After any run, the pen is the black pen of the current width, the
    path item draws with that pen, and the width is at least 1. *)
Theorem pen_follows_the_width `{QtModel} (config : option Settings)
    (d : gmap string File) (actions : list Action) :
  let v := view (snd (run actions (mkWorld (DrawingView_init config) d))) in
  pen v = mkPen Qt_black (current_pen_width v) /\
  vector_item_pen v = pen v /\
  (1 <=? pynum_float (current_pen_width v))%float = true.
Proof.
  cbv zeta.
  destruct (run_invariant config d actions) as (_ & (Hc & Hp & Hi & Hw) & _).
  rewrite Hc in Hp. auto.
Qed.

(** X16.  After any run, the pixmap item of the scene holds the raster: the
    compositor, [clear_canvas] and [load_canvas_from_file] hand every new
    raster to the item. *)
Theorem scene_shows_the_raster `{QtModel} (config : option Settings)
    (d : gmap string File) (actions : list Action) :
  let v := view (snd (run actions (mkWorld (DrawingView_init config) d))) in
  raster_item_pixmap v = raster_pixmap v.
Proof. cbv zeta. apply (run_invariant config d actions). Qed.

(** X17.  After any run, the path item of the scene holds the vector path up
    to [moveTo] calls at its end: a press does not update the item, every
    segment does, so the item lacks no segment of the path. *)
Theorem scene_shows_every_segment `{QtModel} (config : option Settings)
    (d : gmap string File) (actions : list Action) :
  let v := view (snd (run actions (mkWorld (DrawingView_init config) d))) in
  exists moves, vector_path v = vector_item_path v ++ map MoveTo moves.
Proof. cbv zeta. apply (run_invariant config d actions). Qed.

(** X18.  After any run, the smoothing window holds at most three points. *)
Theorem smoothing_window_holds_at_most_three `{QtModel} (config : option Settings)
    (d : gmap string File) (actions : list Action) :
  (length (last_points
             (view (snd (run actions (mkWorld (DrawingView_init config) d)))))
   <= 3)%nat.
Proof. apply (run_invariant config d actions). Qed.

(** ** The pin registry: removal and the settings file *)


(** X20.  Removing a pin that was just added under a name no other pin has
    gives back the state before the addition. *)
Theorem remove_pin_undoes_add_pin (name : pystr) (pos : QPointF) (s : DrawingView) :
  (forall p, p ∈ pins s -> pin_name p <> name) ->
  snd (remove_pin name (snd (add_pin name pos s))) = s.
Proof.
  intros Hfresh. cbn [remove_pin add_pin modify snd].
  cbn [pins set_pins]. rewrite filter_app.
  replace (filter (fun pin => pin_name pin <> name) [mkPin name pos]) with (@nil Pin).
  2:{ rewrite filter_cons_False by (cbn; tauto). reflexivity. }
  rewrite app_nil_r.
  replace (filter (fun pin => pin_name pin <> name) (pins s)) with (pins s).
  - now destruct s.
  - symmetry. induction (pins s) as [|p ps IH]; [reflexivity|].
    rewrite filter_cons_True by (apply Hfresh; left).
    f_equal. apply IH. intros q Hq. apply Hfresh. now right.
Qed.

Lemma remove_pin_undoes_add_pin_witness :
  snd (remove_pin (str "Home")
         (snd (add_pin (str "Home") (mkPoint 3 4) DrawingView_new)))
  = DrawingView_new.
Proof.
  apply (remove_pin_undoes_add_pin (str "Home") (mkPoint 3 4) DrawingView_new).
  intros p Hp. apply list_elem_of_singleton in Hp. subst p. discriminate.
Defined.



(** ** Raster export *)

Lemma binarized_black_or_white (c : QColor) :
  binarized c = Qt_black \/ binarized c = Qt_white.
Proof. unfold binarized. destruct (_ <? _)%float; auto. Qed.

Lemma binarized_idempotent (c : QColor) : binarized (binarized c) = binarized c.
Proof.
  destruct (binarized_black_or_white c) as [-> | ->]; vm_compute; reflexivity.
Qed.

(** On an image that holds its [height * width] pixels, the loop maps the
    test over the pixels. *)
Lemma binarize_map (image : QImage) :
  length (img_px image) = (Z.to_nat (img_h image) * Z.to_nat (img_w image))%nat ->
  binarize image = mkImage (img_w image) (img_h image) (map binarized (img_px image)).
Proof.
  intros Hlen. rewrite binarize_px. f_equal. apply list_eq. intros i.
  rewrite binarize_at_fold_lookup, list_lookup_fmap.
  case_decide as Hi; [reflexivity|].
  rewrite lookup_ge_None_2 by lia. reflexivity.
Qed.

(** X22.  The binarisation loop of [save_raster_image] leaves only pure black
    and pure white, both opaque, keeps the size of the image, and changes
    nothing when run again on its result. *)
Theorem binarize_leaves_black_and_white (image : QImage) :
  length (img_px image) = (Z.to_nat (img_h image) * Z.to_nat (img_w image))%nat ->
  Forall (fun c => c = Qt_black \/ c = Qt_white) (img_px (binarize image)) /\
  length (img_px (binarize image)) = length (img_px image) /\
  img_w (binarize image) = img_w image /\
  img_h (binarize image) = img_h image /\
  binarize (binarize image) = binarize image.
Proof.
  intros Hlen. rewrite (binarize_map image Hlen). cbn [img_px img_w img_h].
  repeat apply conj; try reflexivity.
  - apply Forall_map, Forall_forall. intros c _. apply binarized_black_or_white.
  - apply length_map.
  - rewrite binarize_map by (cbn [img_px img_w img_h]; now rewrite length_map).
    cbn [img_px img_w img_h]. f_equal. rewrite <- list_fmap_compose.
    apply list_fmap_ext. intros i c _. apply binarized_idempotent.
Qed.

Lemma binarize_leaves_black_and_white_witness :
  binarize (mkImage 2 1 [mkColor 200 10 30 0; mkColor 250 250 250 128])
  = mkImage 2 1 [Qt_black; Qt_white] /\
  binarize (binarize (mkImage 2 1 [mkColor 200 10 30 0; mkColor 250 250 250 128]))
  = binarize (mkImage 2 1 [mkColor 200 10 30 0; mkColor 250 250 250 128]).
Proof.
  split; [vm_compute; reflexivity|].
  apply (binarize_leaves_black_and_white
           (mkImage 2 1 [mkColor 200 10 30 0; mkColor 250 250 250 128])).
  reflexivity.
Defined.

Section RasterExport.
Context `{QtModel}.

Lemma save_raster_image_returns (path : string) (w : World) :
  fst (save_raster_image path w) = Return tt.
Proof.
  unfold save_raster_image. rewrite bind_gets.
  destruct (_ || _); [reflexivity|].
  cbv [bind QFile_open_write gets modify ret write_raw].
  destruct (disk w !! path) as [[content|]|]; reflexivity.
Qed.

End RasterExport.

(** X23.  [save_raster_image] always returns, never changes the object, and
    writes no file but its own. *)
Theorem save_raster_image_touches_only_its_file `{QtModel} (path : string) (w : World) :
  fst (save_raster_image path w) = Return tt /\
  view (snd (save_raster_image path w)) = view w /\
  forall q, q <> path -> disk (snd (save_raster_image path w)) !! q = disk w !! q.
Proof.
  repeat apply conj.
  - apply save_raster_image_returns.
  - apply (save_raster_image_frame (fun v => v) path w).
  - intros q Hq. apply (save_raster_image_other path q Hq w).
Qed.

(** X24.  After [clear_canvas] there is nothing to export: [save_raster_image]
    returns without creating or changing a file.  (Qt gives an empty path
    the null rectangle as bounding box, and the union of two null
    rectangles is null.) *)
Theorem nothing_to_export_after_clear_canvas `{QtModel} (path : string) (w : World) :
  qt_bounding_rect [] = QRectF_null ->
  qt_united QRectF_null QRectF_null = QRectF_null ->
  run [ClearCanvas; SaveRasterImage path] w = (Return tt, snd (perform ClearCanvas w)) /\
  disk (snd (run [ClearCanvas; SaveRasterImage path] w)) = disk w.
Proof.
  intros Hrect Hunited.
  assert (Hrun : run [ClearCanvas; SaveRasterImage path] w
                 = (Return tt, snd (perform ClearCanvas w))).
  { unfold run. cbn [for_each perform]. unfold bind at 1.
    unfold on_view at 1, with_field at 1, clear_canvas at 1.
    rewrite !bind_modify. cbn [modify].
    unfold bind at 1. unfold save_raster_image at 1. rewrite bind_gets.
    cbn [view set_view vector_path raster_bounding_rect set_raster_bounding_rect
           set_raster_item_pixmap set_raster_pixmap set_vector_item_path
           set_vector_path].
    change (elements []) with (@nil Element).
    rewrite Hrect, Hunited. reflexivity. }
  split; [exact Hrun|]. rewrite Hrun. cbn [snd perform].
  apply (on_view_disk clear_canvas w).
Qed.

Lemma nothing_to_export_after_clear_canvas_witness :
  disk (snd (run (H := sample_qt) [ClearCanvas; SaveRasterImage "out.png"]
               (mkWorld sample_document ∅)))
  = ∅.
Proof.
  apply (proj2 (nothing_to_export_after_clear_canvas (H := sample_qt) "out.png"
                  (mkWorld sample_document ∅) eq_refl eq_refl)).
Defined.

(** ** The background switch *)

Lemma toggle_background_flips (v : DrawingView) :
  background_visible (snd (toggle_background v)) = negb (background_visible v).
Proof.
  unfold toggle_background. rewrite bind_gets.
  destruct (background_visible v); reflexivity.
Qed.

Lemma toggle_background_twice_eq (v : DrawingView) :
  background_consistent v ->
  toggle_background (snd (toggle_background v)) = (Return tt, v).
Proof.
  unfold background_consistent, toggle_background. destruct v. cbn.
  intros [-> ->].
  repeat match goal with b : bool |- _ => destruct b end; reflexivity.
Qed.

(** X25.  [toggle_background] flips the visibility flag, and toggling twice
    gives back the state, in every state a run can be in. *)
Theorem toggle_background_twice `{QtModel} (config : option Settings)
    (d : gmap string File) (actions : list Action) :
  let w := snd (run actions (mkWorld (DrawingView_init config) d)) in
  background_visible (view (snd (perform ToggleBackground w)))
  = negb (background_visible (view w)) /\
  run [ToggleBackground; ToggleBackground] w = (Return tt, w).
Proof.
  cbv zeta.
  destruct (run_invariant config d actions) as (Hbg & _).
  destruct (snd (run actions _)) as [v dk]. cbn [view] in *.
  split.
  - cbn [perform]. unfold on_view, with_field. cbn [view].
    pose proof (toggle_background_flips v) as Hf.
    destruct (toggle_background v) as [r v']. exact Hf.
  - unfold run. cbn [for_each perform]. unfold bind at 1.
    unfold on_view at 1, with_field at 1. cbn [view].
    pose proof (toggle_background_twice_eq v Hbg) as Ht.
    assert (Hr : fst (toggle_background v) = Return tt).
    { unfold toggle_background. rewrite bind_gets.
      destruct (background_visible v); reflexivity. }
    destruct (toggle_background v) as [r v']. cbn [fst snd] in *. subst r.
    unfold bind at 1. unfold on_view, with_field. cbn [view set_view].
    rewrite Ht. reflexivity.
Qed.

(** ** Stored elements with an unknown tag *)

(** X26.  The loading loop skips an element whose tag is none of 0, 1, 2 (a
    curve data element outside a curve, or a damaged tag): the path is the
    one of the list without that element. *)
Theorem unknown_elements_are_skipped (pre post : list RawElement)
    (tag : Z) (x y : float) (path : QPainterPath) :
  tag <> 0 -> tag <> 1 -> tag <> 2 ->
  whole_records pre ->
  rebuild_path (pre ++ (tag, x, y) :: post) 0 path
  = rebuild_path (pre ++ post) 0 path.
Proof.
  intros H0 H1 H2 Hpre.
  rewrite !rebuild_path_spec, !drop_0, !calls_of_whole_records_app by assumption.
  cbn [calls_of_elements].
  destruct (Z.eqb_spec tag 0); [contradiction|].
  destruct (Z.eqb_spec tag 1); [contradiction|].
  destruct (Z.eqb_spec tag 2); [contradiction|].
  reflexivity.
Qed.

Lemma unknown_elements_are_skipped_witness :
  rebuild_path [(0, 1%float, 2%float); (3, 9%float, 9%float); (1, 3%float, 4%float)] 0 []
  = (Return tt, [MoveTo (mkPoint 1 2); LineTo (mkPoint 3 4)]).
Proof.
  etransitivity.
  - apply (unknown_elements_are_skipped [(0, 1%float, 2%float)]
             [(1, 3%float, 4%float)] 3 9 9 []); try discriminate.
    repeat constructor; discriminate.
  - rewrite rebuild_path_spec. reflexivity.
Defined.

(** ** A whole stylus stroke *)

Lemma last_cons_default {A} (l : list A) :
  forall x d : A, List.last (x :: l) d = List.last l x.
Proof.
  induction l as [|y l IH]; intros x d; [reflexivity|].
  change (List.last (x :: y :: l) d) with (List.last (y :: l) d).
  now rewrite (IH y d), (IH y x).
Qed.

Section Stroke.
Context `{QtModel}.

(** A stylus move while drawing, field by field. *)
Lemma tablet_move_step (s : DrawingView) (q : QPointF) (pressure : float) :
  drawing s = true ->
  exists s',
    tabletEvent (mkTablet TabletMove q pressure) s = (Return true, s') /\
    last_points s' = deque_append 3 (last_points s) q /\
    vector_path s' = vector_path s ++ emitted (deque_append 3 (last_points s) q) /\
    drawing s' = true /\
    stroke_points s' = stroke_points s ++ [q] /\
    current_pen_width s' = pen_width_of_pressure pressure /\
    raster_pixmap s' = raster_pixmap s /\
    pen_color s' = pen_color s /\
    raster_bounding_rect s' = raster_bounding_rect s.
Proof.
  intros Hd. unfold tabletEvent. rewrite bind_modify, bind_gets.
  cbn [te_type te_posF te_pressure].
  replace (drawing (set_use_tablet true s)) with true by (now rewrite <- Hd).
  rewrite !bind_modify, bind_update_pen. unfold bind at 1.
  rewrite smooth_path_eq, bind_modify.
  eexists. split; [reflexivity|]. cbn.
  destruct (deque_append 3 (last_points s) q) as [|a [|b [|c [|]]]]; cbn;
    rewrite ?point_eta, ?app_nil_r; repeat apply conj; auto.
Qed.

(** The moves of a stroke, one after the other. *)
Lemma tablet_moves_run (moves : list (QPointF * float)) :
  forall (s : DrawingView) (pressure : float),
    drawing s = true ->
    (1 <= length (last_points s) <= 3)%nat ->
    current_pen_width s = pen_width_of_pressure pressure ->
    exists s',
      for_each moves
        (fun m => tabletEvent (mkTablet TabletMove (fst m) (snd m));; ret tt) s
      = (Return tt, s') /\
      vector_path s'
      = vector_path s ++ triple_segments (window_tail (last_points s) ++ map fst moves) /\
      drawing s' = true /\
      stroke_points s' = stroke_points s ++ map fst moves /\
      current_pen_width s' = pen_width_of_pressure (List.last (map snd moves) pressure) /\
      raster_pixmap s' = raster_pixmap s /\
      pen_color s' = pen_color s /\
      raster_bounding_rect s' = raster_bounding_rect s.
Proof.
  induction moves as [|[q pr] moves IH]; intros s pressure Hd Hlen Hw.
  - exists s. cbn [for_each map List.last]. rewrite !app_nil_r.
    repeat apply conj; try reflexivity; try assumption.
    destruct (last_points s) as [|x [|y [|z [|? ?]]]]; simpl in *; try lia;
      now rewrite app_nil_r.
  - destruct (tablet_move_step s q pr Hd)
      as (s1 & E1 & Hl1 & Hv1 & Hd1 & Hs1 & Hw1 & Hr1 & Hc1 & Hb1).
    destruct (IH s1 pr Hd1) as (s2 & E2 & Hv2 & Hd2 & Hs2 & Hw2 & Hr2 & Hc2 & Hb2).
    { rewrite Hl1. unfold deque_append.
      destruct (last_points s) as [|x [|y [|z [|? ?]]]]; simpl in *; lia. }
    { exact Hw1. }
    exists s2. split.
    { cbn [for_each fst snd]. unfold bind at 1. unfold bind at 1.
      rewrite E1. exact E2. }
    repeat apply conj.
    + rewrite Hv2, Hv1, Hl1, <- app_assoc. f_equal.
      unfold deque_append.
      destruct (last_points s) as [|x [|y [|z [|? ?]]]]; simpl in *; try lia;
        reflexivity.
    + exact Hd2.
    + rewrite Hs2, Hs1, <- app_assoc. reflexivity.
    + rewrite Hw2. cbn [map snd]. now rewrite last_cons_default.
    + congruence.
    + congruence.
    + congruence.
Qed.

End Stroke.

(** X27.  A whole stylus stroke, a press at [start], moves and a release.
    The vector path gets one [moveTo] and the smoothed segments of the
    points; the raster gets, in one compositing step at the release, the
    midpoint path through all the points, painted with the width of the
    last pressure of the stroke; and the stroke is over. *)
Theorem stylus_stroke_draws_both_layers `{QtModel} (s : DrawingView)
    (start : QPointF) (pressure : float) (moves : list (QPointF * float))
    (release : QTabletEvent) :
  te_type release = TabletRelease ->
  let points := start :: map fst moves in
  let width := pen_width_of_pressure (List.last (map snd moves) pressure) in
  exists s',
    (tablet_gesture (start, pressure) moves;; tabletEvent release) s
    = (Return true, s') /\
    vector_path s' = vector_path s ++ MoveTo start :: triple_segments points /\
    raster_pixmap s'
    = Painted (raster_pixmap s) (MoveTo start :: midpoint_segments start (map fst moves))
              (mkPen (pen_color s) width) true /\
    raster_item_pixmap s' = raster_pixmap s' /\
    drawing s' = false.
Proof.
  intros Hrel. cbv zeta.
  (* the press *)
  assert (Hpress : exists t0,
            tabletEvent (mkTablet TabletPress start pressure) s = (Return true, t0) /\
            last_points t0 = [start] /\
            vector_path t0 = vector_path s ++ [MoveTo start] /\
            stroke_points t0 = [start] /\ drawing t0 = true /\
            current_pen_width t0 = pen_width_of_pressure pressure /\
            raster_pixmap t0 = raster_pixmap s /\ pen_color t0 = pen_color s).
  { unfold tabletEvent. rewrite bind_modify, bind_gets. cbn [te_type te_posF te_pressure].
    rewrite !bind_modify, bind_update_pen.
    eexists. split; [reflexivity|]. cbn. auto 10. }
  destruct Hpress as (t0 & E0 & Hl0 & Hv0 & Hs0 & Hd0 & Hw0 & Hr0 & Hc0).
  (* the moves *)
  destruct (tablet_moves_run moves t0 pressure Hd0) as
    (t1 & E1 & Hv1 & Hd1 & Hs1 & Hw1 & Hr1 & Hc1 & _);
    [rewrite Hl0; simpl; lia | exact Hw0 |].
  (* the release *)
  assert (Hpts : stroke_points (set_use_tablet true t1) = start :: map fst moves).
  { cbn. rewrite Hs1, Hs0. reflexivity. }
  pose proof (process_raster_stroke_eq (set_use_tablet true t1) start (map fst moves) Hpts)
    as Ep. cbv zeta in Ep.
  eexists. split.
  { unfold tablet_gesture. cbn [fst snd]. unfold bind at 1. unfold bind at 1.
    rewrite E0. rewrite E1.
    unfold tabletEvent. rewrite bind_modify, bind_gets, Hrel.
    replace (drawing (set_use_tablet true t1)) with true by (now rewrite <- Hd1).
    unfold bind at 1. rewrite Ep. rewrite bind_modify. reflexivity. }
  cbn. rewrite Hv1, Hv0, Hl0, Hw1, Hr1, Hr0, Hc1, Hc0, <- app_assoc.
  destruct (QRectF_isNull (raster_bounding_rect t1)); cbn; auto.
Qed.

Lemma stylus_stroke_draws_both_layers_witness :
  let moves := [(mkPoint 2 0, 0.5%float); (mkPoint 4 2, 0.05%float)] in
  exists s',
    (tablet_gesture (H := sample_qt) (mkPoint 0 0, 0.3%float) moves;;
     tabletEvent (H := sample_qt) (mkTablet TabletRelease (mkPoint 4 2) 0%float))
      DrawingView_new
    = (Return true, s') /\
    vector_path s' = [MoveTo (mkPoint 0 0); QuadTo (mkPoint 2 0) (mkPoint 4 2)] /\
    raster_pixmap s'
    = Painted (Filled 10000 10000 Qt_transparent)
        [MoveTo (mkPoint 0 0); QuadTo (mkPoint 1 0) (mkPoint 2 0);
         QuadTo (mkPoint 3 1) (mkPoint 4 2)]
        (mkPen Qt_black (PyInt 1)) true.
Proof.
  cbv zeta.
  destruct (stylus_stroke_draws_both_layers (H := sample_qt) DrawingView_new
              (mkPoint 0 0) 0.3%float
              [(mkPoint 2 0, 0.5%float); (mkPoint 4 2, 0.05%float)]
              (mkTablet TabletRelease (mkPoint 4 2) 0%float) eq_refl)
    as (s' & E & Hv & Hr & _).
  exists s'. split; [exact E|]. split.
  - rewrite Hv. reflexivity.
  - rewrite Hr. vm_compute. reflexivity.
Defined.

(** ** The vector path only grows *)

Section PathGrows.
Context `{QtModel}.






End PathGrows.



(** ** The file number of [save_multi] *)

Lemma uint_of_padded (k : nat) (s : string) :
  NilEmpty.uint_of_string (Nat.iter k (String "0"%char) s)
  = Nat.iter k (fun d => Decimal.D0 <$> d) (NilEmpty.uint_of_string s).
Proof.
  induction k as [|k IH]; [reflexivity|].
  rewrite !Nat.iter_succ. cbn [NilEmpty.uint_of_string]. rewrite IH.
  now destruct (Nat.iter k _ _).
Qed.

Lemma of_uint_zeros (k : nat) (d : Decimal.uint) :
  Nat.of_uint <$> Nat.iter k (fun d => Decimal.D0 <$> d) (Some d)
  = Some (Nat.of_uint d).
Proof.
  induction k as [|k IH]; [reflexivity|].
  rewrite Nat.iter_succ.
  destruct (Nat.iter k _ _) as [d'|]; [|discriminate].
  cbn in *. injection IH as <-. reflexivity.
Qed.

(** The number can be read back from its four or more digits. *)
Lemma format_04d_parse (num : nat) :
  Nat.of_uint <$> NilEmpty.uint_of_string (format_04d num) = Some num.
Proof.
  unfold format_04d. cbv zeta. rewrite uint_of_padded.
  rewrite <- (DecimalNat.Unsigned.of_to num) at 3.
  destruct (Nat.to_uint num) as [|d|d|d|d|d|d|d|d|d|d] eqn:E;
    [ apply (of_uint_zeros _ (Decimal.D0 Decimal.Nil)) | .. ];
    unfold NilZero.string_of_uint; rewrite NilEmpty.usu; apply of_uint_zeros.
Qed.

Lemma format_04d_inj : Inj (=) (=) format_04d.
Proof.
  intros a b E. pose proof (format_04d_parse a) as Ha.
  rewrite E, format_04d_parse in Ha. now injection Ha.
Qed.

Lemma string_length_app (s t : string) :
  String.length (s +:+ t) = (String.length s + String.length t)%nat.
Proof.
  induction s as [|a s IH]; [reflexivity|].
  change (String.length (String a (s +:+ t)) = S (String.length s + String.length t)).
  cbn [String.length]. now rewrite IH.
Qed.

Lemma string_app_inj_r (t s1 s2 : string) : s1 +:+ t = s2 +:+ t -> s1 = s2.
Proof.
  revert s2. induction s1 as [|a s1 IH]; intros [|b s2] E.
  - reflexivity.
  - apply (f_equal String.length) in E.
    change (String.length t = S (String.length (s2 +:+ t))) in E.
    rewrite string_length_app in E. lia.
  - apply (f_equal String.length) in E.
    change (S (String.length (s1 +:+ t)) = String.length t) in E.
    rewrite string_length_app in E. lia.
  - change (String a (s1 +:+ t) = String b (s2 +:+ t)) in E.
    injection E as -> E. f_equal. now apply IH.
Qed.

Lemma multi_raster_filename_inj : Inj (=) (=) multi_raster_filename.
Proof.
  intros a b E. unfold multi_raster_filename in E.
  apply (inj (String.app "imagemulti.")) in E.
  apply string_app_inj_r in E. now apply format_04d_inj.
Qed.

Lemma multi_vector_filename_inj : Inj (=) (=) multi_vector_filename.
Proof.
  intros a b E. unfold multi_vector_filename in E.
  apply (inj (String.app "imagemulti.")) in E.
  apply string_app_inj_r in E. now apply format_04d_inj.
Qed.

Section SaveMulti.
Variable d : gmap string File.

(** The loop stops at a free number and skips none. *)
Lemma save_multi_number_sound (fuel : nat) :
  forall num r,
    save_multi_number fuel num d = Some r ->
    (num <= r)%nat /\ number_is_free d r = true /\
    forall k, (num <= k < r)%nat -> number_is_free d k = false.
Proof.
  induction fuel as [|fuel IH]; intros num r; [discriminate|].
  cbn [save_multi_number]. cbv zeta. fold (number_is_free d num).
  destruct (number_is_free d num) eqn:Hf.
  - intros [= <-]. repeat split; [lia | exact Hf | intros k Hk; lia].
  - intros Hr. apply IH in Hr as (Hle & Hfree & Hskip).
    repeat split; [lia | exact Hfree |].
    intros k Hk. destruct (decide (k = num)) as [->|Hne]; [exact Hf|].
    apply Hskip. lia.
Qed.

(** The loop finds a free number that is within its rounds. *)
Lemma save_multi_number_complete (fuel : nat) :
  forall num f,
    (num <= f < num + fuel)%nat -> number_is_free d f = true ->
    exists r, save_multi_number fuel num d = Some r.
Proof.
  induction fuel as [|fuel IH]; intros num f Hf Hfree; [lia|].
  cbn [save_multi_number]. cbv zeta. fold (number_is_free d num).
  destruct (number_is_free d num) eqn:Hnum; [eauto|].
  apply (IH (num + 1)%nat f); [|exact Hfree].
  destruct (decide (f = num)) as [->|Hne]; [congruence | lia].
Qed.

(** The numbers whose file of one kind exists are no more than the files. *)
Lemma existing_numbers_bound (name : nat -> string) (Hinj : Inj (=) (=) name)
    (l : list nat) :
  NoDup l ->
  (length (filter (fun k => is_Some (d !! name k)) l) <= size d)%nat.
Proof.
  intros Hl. rewrite <- (length_fmap name).
  rewrite <- (length_map_to_list d), <- (length_fmap fst (map_to_list d)).
  apply submseteq_length, NoDup_submseteq.
  - apply (NoDup_fmap_2 name), NoDup_filter, Hl.
  - intros p Hp. apply list_elem_of_fmap in Hp as (k & -> & Hk).
    apply list_elem_of_filter in Hk as [[x Hx] _].
    apply list_elem_of_fmap. exists (name k, x). split; [reflexivity|].
    now apply elem_of_map_to_list.
Qed.

Lemma filter_cover {A} (P Q : A -> Prop) `{!forall x, Decision (P x)}
    `{!forall x, Decision (Q x)} (l : list A) :
  (forall x, x ∈ l -> P x \/ Q x) ->
  (length l <= length (filter P l) + length (filter Q l))%nat.
Proof.
  induction l as [|x l IH]; intros Hall; [cbn; lia|].
  assert (IH' := IH (fun y Hy => Hall y (list_elem_of_further _ _ _ Hy))).
  rewrite !filter_cons.
  destruct (Hall x (list_elem_of_here _ _)) as [HP|HQ];
    repeat case_decide; cbn; try lia; contradiction.
Qed.

(** Among the first [2 * size d + 1] numbers one is free. *)
Lemma a_number_is_free :
  exists f, (1 <= f < 1 + (2 * size d + 1))%nat /\ number_is_free d f = true.
Proof.
  set (N := (2 * size d + 1)%nat).
  destruct (decide (Exists (fun k => number_is_free d k = true) (seq 1 N))) as [Hex|Hno].
  - apply Exists_exists in Hex as (f & Hf & Hfree).
    exists f. split; [|exact Hfree]. apply elem_of_seq in Hf. lia.
  - exfalso. apply not_Exists_Forall in Hno; [|intros k; apply _].
    rewrite Forall_forall in Hno.
    assert (Hcover : forall k, k ∈ seq 1 N ->
              is_Some (d !! multi_raster_filename k) \/
              is_Some (d !! multi_vector_filename k)).
    { intros k Hk. specialize (Hno k Hk). cbn in Hno. unfold number_is_free, os_path_exists in Hno.
      destruct (decide (is_Some (d !! multi_raster_filename k))) as [?|Hr]; [now left|].
      destruct (decide (is_Some (d !! multi_vector_filename k))) as [?|Hv]; [now right|].
      rewrite !bool_decide_eq_false_2 in Hno by assumption. now elim Hno. }
    pose proof (filter_cover _ _ (seq 1 N) Hcover) as Hlen.
    pose proof (existing_numbers_bound multi_raster_filename multi_raster_filename_inj
                  (seq 1 N) (NoDup_seq 1 N)).
    pose proof (existing_numbers_bound multi_vector_filename multi_vector_filename_inj
                  (seq 1 N) (NoDup_seq 1 N)).
    rewrite length_seq in Hlen. subst N. lia.
Qed.

Lemma free_spec (num : nat) :
  number_is_free d num = true <->
  d !! multi_raster_filename num = None /\ d !! multi_vector_filename num = None.
Proof.
  unfold number_is_free, os_path_exists.
  rewrite andb_true_iff, !negb_true_iff, !bool_decide_eq_false, <- !eq_None_not_Some.
  reflexivity.
Qed.

End SaveMulti.

(** X29.  The loop of [save_multi] ends: on every disk it stops within
    [2 * n + 1] rounds, [n] the number of files, at the first number from 1
    up for which neither the PNG nor the SVG name exists; so the export
    that follows overwrites no file.  More rounds give the same number. *)
Theorem save_multi_picks_the_first_free_number (d : gmap string File) :
  exists num,
    save_multi_number (2 * size d + 1) 1 d = Some num /\
    (1 <= num)%nat /\
    d !! multi_raster_filename num = None /\
    d !! multi_vector_filename num = None /\
    (forall k, (1 <= k < num)%nat ->
       is_Some (d !! multi_raster_filename k) \/
       is_Some (d !! multi_vector_filename k)) /\
    (forall fuel, (num <= fuel)%nat -> save_multi_number fuel 1 d = Some num).
Proof.
  destruct (a_number_is_free d) as (f & Hf & Hfree).
  destruct (save_multi_number_complete d _ 1 f Hf Hfree) as [num Hnum].
  destruct (save_multi_number_sound d _ 1 num Hnum) as (Hle & Hfr & Hskip).
  exists num. split; [exact Hnum|]. split; [exact Hle|].
  apply free_spec in Hfr as Hnone. destruct Hnone as [Hr Hv].
  repeat apply conj; try assumption.
  - intros k Hk. specialize (Hskip k Hk).
    destruct (d !! multi_raster_filename k) as [x|] eqn:Ek; [left; eauto|].
    destruct (d !! multi_vector_filename k) as [y|] eqn:Ev; [right; eauto|].
    assert (Hfk : number_is_free d k = true) by (apply free_spec; auto).
    congruence.
  - intros fuel Hfuel.
    destruct (save_multi_number_complete d fuel 1 num) as [r Hr']; [lia | exact Hfr |].
    destruct (save_multi_number_sound d _ 1 r Hr') as (Hle' & Hfr' & Hskip').
    rewrite Hr'. f_equal.
    destruct (Nat.lt_trichotomy r num) as [Hlt | [-> | Hgt]]; [|reflexivity|].
    + rewrite (Hskip r) in Hfr' by lia. discriminate.
    + rewrite (Hskip' num) in Hfr by lia. discriminate.
Qed.
